(** * Mini database engine: storage stack

    A shallow embedding of the storage core of the engine (types.h,
    buffer_pool.h, b_tree.h, storage_engine.cpp, database_engine.cpp and
    transaction_manager.cpp) together with the properties
    that were checked against it.

    Conventions.
    - Fixed-width unsigned integers ([PageId], [TupleId], header fields) are
      [Z] with the wrap-around written out where the code can reach it.
    - A byte buffer ([vector<uint8_t>]) is a [list byte]; [memcpy] of a
      little-endian scalar is [le_bytes] / [le_value].
    - [unordered_map] is stdpp's [gmap]; [vector] indexed access is list
      lookup, and an access the C++ leaves undefined raises [Undefined].
    - Member functions thread the object explicitly and return an
      [outcome]: either a value with the new state, or a C++ exception
      with the state at the point of the throw. *)

From Stdlib Require Import ZArith Lia.
From Stdlib Require Import Strings.Byte.
From Stdlib Require Structures.OrderedTypeEx DecimalString.
From stdpp Require Import base gmap list strings sorting.

Local Open Scope Z_scope.
#[local] Set Warnings "-clear-no-such-hyp,-register-all,-abstract-large-number".

(** ** types.h *)

Abbreviation PageId := Z (only parsing).          (* uint32_t *)
Abbreviation TupleId := Z (only parsing).         (* uint64_t *)
Abbreviation TransactionId := Z (only parsing).   (* uint32_t *)
Abbreviation BufferFrameId := nat (only parsing). (* uint32_t, used as a vector index *)

Definition PAGE_SIZE : nat := 4096.
Definition BUFFER_POOL_SIZE : nat := 1000.

Inductive DataType := INTEGER | VARCHAR | BOOLEAN | DOUBLE.

Inductive LockType := SHARED | EXCLUSIVE.

#[global] Instance DataType_eq_dec : EqDecision DataType.
Proof. solve_decision. Defined.

#[global] Instance LockType_eq_dec : EqDecision LockType.
Proof. solve_decision. Defined.

(** ** Exceptions and outcomes *)

Inductive exn :=
| NoUnpinnedFrames  (* runtime_error("No unpinned frames available") *)
| BadVariantAccess  (* std::bad_variant_access raised by get<string> *)
| Undefined         (* behaviour the C++ leaves undefined: null or out-of-range access *)
| OutOfFuel.        (* the loop bound given to the model ran out *)

Inductive outcome (S A : Type) :=
| Ok (a : A) (s : S)
| Throw (e : exn) (s : S).
Arguments Ok {S A} a s.
Arguments Throw {S A} e s.

Definition bind {S A B} (m : outcome S A) (k : A -> S -> outcome S B) : outcome S B :=
  match m with
  | Ok a s => k a s
  | Throw e s => Throw e s
  end.

Definition final_state {S A} (m : outcome S A) : S :=
  match m with Ok _ s => s | Throw _ s => s end.

Definition returned {S A} (m : outcome S A) : option A :=
  match m with Ok a _ => Some a | Throw _ _ => None end.

Definition raises {S A} (m : outcome S A) : Prop :=
  match m with Ok _ _ => False | Throw _ _ => True end.

Definition raised {S A} (m : outcome S A) : option exn :=
  match m with Ok _ _ => None | Throw e _ => Some e end.

(** ** The lock manager (transaction_manager.cpp) *)

Module LockManager.

Record LockRequest := mkLockRequest {
  page_id : PageId;
  lock_type : LockType;
  transaction_id : TransactionId;
  granted : bool
}.

(* LockRequest(page_id, lock_type, transaction_id): starts as not granted *)
Definition newRequest (p : PageId) (lt : LockType) (t : TransactionId) : LockRequest :=
  mkLockRequest p lt t false.

(* unordered_map<PageId, vector<LockRequest>>; operator[] reads an absent
   key as the empty vector *)
Definition lock_table_t := gmap Z (list LockRequest).

Definition requests_of (lt : lock_table_t) (p : PageId) : list LockRequest :=
  default [] (lt !! p).

Definition conflicts (request existing : LockRequest) : bool :=
  granted existing &&
  (bool_decide (lock_type request = EXCLUSIVE) ||
   bool_decide (lock_type existing = EXCLUSIVE)).

Definition canGrantLock (lt : lock_table_t) (request : LockRequest) : bool :=
  forallb (fun existing => negb (conflicts request existing))
          (requests_of lt (page_id request)).

Definition grantLock (request : LockRequest) : LockRequest :=
  mkLockRequest (page_id request) (lock_type request) (transaction_id request) true.

Definition set_lock_type (r : LockRequest) (t : LockType) : LockRequest :=
  mkLockRequest (page_id r) t (transaction_id r) (granted r).

(* The loop over [requests]: the first request of the transaction decides.
   Returns the answer and the rewritten vector, or [None] when the
   transaction has no request on the page. [lt] is the table the loop
   runs in, which [canGrantLock] consults. *)
Fixpoint acquire_existing (lt : lock_table_t) (p : PageId) (want : LockType)
    (t : TransactionId) (requests : list LockRequest)
    : option (bool * list LockRequest) :=
  match requests with
  | [] => None
  | request :: rest =>
      if bool_decide (transaction_id request = t) then
        if bool_decide (lock_type request = SHARED) &&
           bool_decide (want = EXCLUSIVE) &&
           canGrantLock lt (newRequest p EXCLUSIVE t)
        then Some (true, set_lock_type request EXCLUSIVE :: rest)
        else Some (granted request, request :: rest)
      else
        match acquire_existing lt p want t rest with
        | Some (b, rest') => Some (b, request :: rest')
        | None => None
        end
  end.

Definition acquireLock (lt : lock_table_t) (p : PageId) (want : LockType)
    (t : TransactionId) : bool * lock_table_t :=
  let requests := requests_of lt p in
  (* lock_table[page_id] creates the entry *)
  let lt0 := <[p := requests]> lt in
  match acquire_existing lt0 p want t requests with
  | Some (b, requests') => (b, <[p := requests']> lt0)
  | None =>
      let new_request := newRequest p want t in
      if canGrantLock lt0 new_request
      then (true, <[p := requests ++ [grantLock new_request]]> lt0)
      else (false, <[p := requests ++ [new_request]]> lt0)
  end.

Definition releaseLock (lt : lock_table_t) (p : PageId) (t : TransactionId)
    : lock_table_t :=
  let requests :=
    filter (fun r => transaction_id r ≠ t) (requests_of lt p) in
  match requests with
  | [] => delete p lt
  | _ => <[p := requests]> lt
  end.

Definition hasLock (lt : lock_table_t) (p : PageId) (t : TransactionId) : bool :=
  match lt !! p with
  | None => false
  | Some requests =>
      existsb (fun r => bool_decide (transaction_id r = t) && granted r) requests
  end.

(* The lock type under which transaction [t] holds page [p], if granted. *)
Definition heldLock (lt : lock_table_t) (p : PageId) (t : TransactionId)
    : option LockType :=
  lock_type <$>
    head (filter (fun r => transaction_id r = t ∧ granted r = true) (requests_of lt p)).

(* the request that decides acquireLock for transaction t on page p *)
Definition own_request (lt : lock_table_t) (p : PageId) (t : TransactionId)
    : option LockRequest :=
  head (filter (fun r => transaction_id r = t) (requests_of lt p)).

(* transaction 7 holds a granted SHARED lock on page 1, nobody else does *)
Definition shared_holder : lock_table_t :=
  {[ 1 := [mkLockRequest 1 SHARED 7 true] ]}.

(* the pages found by the scan of releaseAllLocks: every page with a request
   of the transaction, granted or not, in the order of the map walk *)
Definition pages_with_request (lt : lock_table_t) (t : TransactionId) : list PageId :=
  (filter (fun entry => existsb (fun r => bool_decide (transaction_id r = t)) entry.2)
          (map_to_list lt)).*1.

(* releaseAllLocks takes lock_manager_mutex and then calls releaseLock for
   each page found; releaseLock takes the same std::mutex, which the thread
   already owns. With no page to release the call returns and the table is
   as before; with one, locking the mutex again is undefined. *)
Definition releaseAllLocks (lt : lock_table_t) (t : TransactionId)
    : (exn + lock_table_t)%type :=
  match pages_with_request lt t with
  | [] => inr lt
  | _ :: _ => inl Undefined
  end.

(* getLockedPages: the pages with a granted request of the transaction, in
   the order of the map walk *)
Definition getLockedPages (lt : lock_table_t) (t : TransactionId) : list PageId :=
  (filter (fun entry =>
             existsb (fun r => bool_decide (transaction_id r = t) && granted r) entry.2)
          (map_to_list lt)).*1.

(* the lock tables that calls of acquireLock and releaseLock produce from
   the empty table *)
Inductive reachable : lock_table_t → Prop :=
| reach_empty : reachable ∅
| reach_acquireLock lt p want t :
    reachable lt → reachable (acquireLock lt p want t).2
| reach_releaseLock lt p t :
    reachable lt → reachable (releaseLock lt p t).

(* the granted requests of a page *)
Definition granted_requests (lt : lock_table_t) (p : PageId) : list LockRequest :=
  filter (fun r => granted r = true) (requests_of lt p).

(** *** What the lock table guarantees *)

(* the granted requests of one page: at most one, or all of them SHARED *)
Definition compatible (rs : list LockRequest) : Prop :=
  let g := filter (fun r => granted r = true) rs in
  (length g <= 1)%nat ∨ Forall (fun r => lock_type r = SHARED) g.

Definition table_compatible (lt : lock_table_t) : Prop :=
  ∀ p rs, lt !! p = Some rs → compatible rs.

(* transaction 7 holds page 1 exclusively, transaction 8 asks and is
   denied, transaction 7 releases *)
Definition after_holder_released : lock_table_t :=
  releaseLock (acquireLock (acquireLock ∅ 1 EXCLUSIVE 7).2 1 EXCLUSIVE 8).2 1 7.

End LockManager.


(** ** Byte buffers and little-endian scalars *)

Definition byte_of_Z (z : Z) : byte :=
  default x00 (Byte.of_N (Z.to_N (z mod 256))).

Definition Z_of_byte (b : byte) : Z := Z.of_N (Byte.to_N b).

(* memcpy(dst, &v, n) for an n-byte little-endian scalar v *)
Fixpoint le_bytes (n : nat) (v : Z) : list byte :=
  match n with
  | O => []
  | S n' => byte_of_Z v :: le_bytes n' (v / 256)
  end.

(* memcpy(&v, src, n): the value of the little-endian bytes [bs] *)
Fixpoint le_value (bs : list byte) : Z :=
  match bs with
  | [] => 0
  | b :: bs' => Z_of_byte b + 256 * le_value bs'
  end.

(* the n bytes at offset off, when the buffer has them *)
Definition read_bytes (buf : list byte) (off n : nat) : option (list byte) :=
  if decide (off + n <= length buf)%nat then Some (take n (drop off buf)) else None.

(* memcpy(buf.data() + off, bs, |bs|), when it stays inside the buffer *)
Definition write_bytes (buf : list byte) (off : nat) (bs : list byte)
    : option (list byte) :=
  if decide (off + length bs <= length buf)%nat
  then Some (take off buf ++ bs ++ drop (off + length bs) buf)
  else None.

Definition zero_page : list byte := replicate PAGE_SIZE x00.

(** ** Values, tuples, schemas (types.h) and the tuple codec
       (storage_engine.cpp) *)

Module Types.

Inductive Value :=
| VInt (v : Z)        (* int32_t *)
| VString (s : string)
| VBool (b : bool)
| VDouble (bits : Z). (* double, as the 64 bits of its object representation *)

Record Tuple := mkTuple {
  id : TupleId;
  values : list Value
}.

Record Column := mkColumn {
  name : string;
  type : DataType;
  size : Z
}.

Record Schema := mkSchema {
  columns : list Column
}.

End Types.
Export Types.

(* a pure computation that may raise *)
Abbreviation res A := (exn + A)%type (only parsing).

Definition res_bind {A B} (m : res A) (k : A -> res B) : res B :=
  match m with
  | inl e => inl e
  | inr a => k a
  end.

Definition of_option {A} (o : option A) : res A :=
  match o with
  | Some a => inr a
  | None => inl Undefined
  end.

Module Codec.

Definition TUPLE_HEADER_SIZE : nat := 16. (* sizeof(TupleHeader) *)
Definition PAGE_HEADER_SIZE : nat := 16.  (* sizeof(PageHeader) *)

Record TupleHeader := mkTupleHeader {
  tuple_size : Z;        (* uint32_t *)
  next_tuple_offset : Z; (* uint32_t *)
  tuple_id : Z           (* uint64_t *)
}.

Definition encode_tuple_header (h : TupleHeader) : list byte :=
  le_bytes 4 (tuple_size h) ++ le_bytes 4 (next_tuple_offset h)
    ++ le_bytes 8 (tuple_id h).

(* memcpy(&header, buffer.data() + offset, sizeof(TupleHeader)) *)
Definition read_tuple_header (buf : list byte) (off : nat) : res TupleHeader :=
  res_bind (of_option (read_bytes buf off TUPLE_HEADER_SIZE)) (fun bs =>
    inr (mkTupleHeader (le_value (take 4 bs))
                       (le_value (take 4 (drop 4 bs)))
                       (le_value (drop 8 bs)))).

(* getTupleSize: the loop runs over the indexes that both the value list
   and the column list have, and dispatches on the column's type *)
Fixpoint fields_size (cols : list Column) (vs : list Value) : res nat :=
  match cols, vs with
  | col :: cols', v :: vs' =>
      res_bind
        (match type col with
         | INTEGER => inr 4%nat
         | DOUBLE => inr 8%nat
         | BOOLEAN => inr 1%nat
         | VARCHAR =>
             match v with
             | VString str => inr (4 + String.length str)%nat
             | _ => inl BadVariantAccess
             end
         end)
        (fun n => res_bind (fields_size cols' vs') (fun m => inr (n + m)%nat))
  | _, _ => inr 0%nat
  end.

Definition getTupleSize (schema : Schema) (tuple : Tuple) : res nat :=
  res_bind (fields_size (columns schema) (values tuple)) (fun n =>
    inr (TUPLE_HEADER_SIZE + n)%nat).

(* the bytes one value is stored as; the visitor dispatches on the value *)
Definition encode_value (v : Value) : list byte :=
  match v with
  | VInt z => le_bytes 4 z
  | VDouble bits => le_bytes 8 bits
  | VBool b => [if b then x01 else x00]
  | VString str =>
      let length := Z.of_nat (String.length str) mod 2 ^ 32 in
      le_bytes 4 length ++ take (Z.to_nat length) (String.list_byte_of_string str)
  end.

Fixpoint write_values (vs : list Value) (buf : list byte) (current_offset : nat)
    : res (list byte * nat) :=
  match vs with
  | [] => inr (buf, current_offset)
  | v :: vs' =>
      res_bind (of_option (write_bytes buf current_offset (encode_value v)))
        (fun buf' =>
           write_values vs' buf' (current_offset + length (encode_value v))%nat)
  end.

(* serializeTuple: the buffer after the stores, and the number of bytes
   written *)
Definition serializeTuple (schema : Schema) (tuple : Tuple) (buf : list byte)
    (offset : nat) : res (list byte * nat) :=
  res_bind (getTupleSize schema tuple) (fun sz =>
  let header := mkTupleHeader (Z.of_nat sz mod 2 ^ 32) 0 (id tuple) in
  res_bind (of_option (write_bytes buf offset (encode_tuple_header header)))
    (fun buf1 =>
  res_bind (write_values (values tuple) buf1 (offset + TUPLE_HEADER_SIZE)%nat)
    (fun '(buf2, current_offset) => inr (buf2, (current_offset - offset)%nat)))).

(* two's complement reading of 32 bits *)
Definition to_int32 (u : Z) : Z := if decide (u < 2 ^ 31) then u else u - 2 ^ 32.

Definition read_value (ty : DataType) (buf : list byte) (current_offset : nat)
    : res (Value * nat) :=
  match ty with
  | INTEGER =>
      res_bind (of_option (read_bytes buf current_offset 4)) (fun bs =>
        inr (VInt (to_int32 (le_value bs)), (current_offset + 4)%nat))
  | DOUBLE =>
      res_bind (of_option (read_bytes buf current_offset 8)) (fun bs =>
        inr (VDouble (le_value bs), (current_offset + 8)%nat))
  | BOOLEAN =>
      res_bind (of_option (read_bytes buf current_offset 1)) (fun bs =>
        inr (VBool (negb (bool_decide (le_value bs = 0))), (current_offset + 1)%nat))
  | VARCHAR =>
      res_bind (of_option (read_bytes buf current_offset 4)) (fun bs =>
        let length := Z.to_nat (le_value bs) in
        res_bind (of_option (read_bytes buf (current_offset + 4) length)) (fun str =>
          inr (VString (String.string_of_list_byte str), (current_offset + 4 + length)%nat)))
  end.

Fixpoint read_values (cols : list Column) (buf : list byte) (current_offset : nat)
    : res (list Value) :=
  match cols with
  | [] => inr []
  | column :: cols' =>
      res_bind (read_value (type column) buf current_offset) (fun '(value, off') =>
        res_bind (read_values cols' buf off') (fun vs => inr (value :: vs)))
  end.

Definition deserializeTuple (schema : Schema) (buf : list byte) (offset : nat)
    : res Tuple :=
  res_bind (read_tuple_header buf offset) (fun header =>
    res_bind (read_values (columns schema) buf (offset + TUPLE_HEADER_SIZE)%nat)
      (fun vs => inr (mkTuple (tuple_id header) vs))).

Definition type_of (v : Value) : DataType :=
  match v with
  | VInt _ => INTEGER
  | VString _ => VARCHAR
  | VBool _ => BOOLEAN
  | VDouble _ => DOUBLE
  end.

(* the value list has the schema's length and types *)
Definition conforms (schema : Schema) (tuple : Tuple) : Prop :=
  Forall2 (fun col v => type col = type_of v) (columns schema) (values tuple).

(* every scalar is a value of its C++ type *)
Definition value_in_range (v : Value) : Prop :=
  match v with
  | VInt z => - 2 ^ 31 <= z < 2 ^ 31
  | VString str => Z.of_nat (String.length str) < 2 ^ 32
  | VBool _ => True
  | VDouble bits => 0 <= bits < 2 ^ 64
  end.

(* the field bytes of a tuple, in order *)
Definition encode_values (vs : list Value) : list byte :=
  concat (map encode_value vs).

Definition tuple_in_range (tuple : Tuple) : Prop :=
  0 <= id tuple < 2 ^ 64 ∧ Forall value_in_range (values tuple).

(* the users table of the documentation, and one of its rows *)
Definition users_schema : Schema :=
  mkSchema [mkColumn "id" INTEGER 0; mkColumn "name" VARCHAR 0;
            mkColumn "age" INTEGER 0; mkColumn "active" BOOLEAN 0;
            mkColumn "score" DOUBLE 0].

Definition alice : Tuple :=
  mkTuple 1 [VInt (-1); VString "Alice"; VInt 25; VBool true;
             VDouble 4607182418800017408].

End Codec.

(** ** The B-tree index (b_tree.h), at its instance BTree<string, TupleId> *)

Module BTree.

Definition MAX_KEYS : nat := 4.
Definition MIN_KEYS : nat := (MAX_KEYS / 2)%nat.

(* children holds unique_ptr<BTreeNode>: a child is a node or null *)
Inductive BTreeNode :=
| Node (keys : list string) (values : list TupleId)
       (children : list (option BTreeNode)) (is_leaf : bool).

Definition keys (n : BTreeNode) : list string :=
  match n with Node ks _ _ _ => ks end.
Definition values (n : BTreeNode) : list TupleId :=
  match n with Node _ vs _ _ => vs end.
Definition children (n : BTreeNode) : list (option BTreeNode) :=
  match n with Node _ _ cs _ => cs end.
Definition is_leaf (n : BTreeNode) : bool :=
  match n with Node _ _ _ l => l end.

Definition createNode (leaf : bool) : BTreeNode := Node [] [] [] leaf.

Definition isFull (n : BTreeNode) : bool :=
  bool_decide (MAX_KEYS <= length (keys n))%nat.

(* operator<, operator> and operator== of std::string *)
Definition key_lt (a b : string) : bool := String.ltb a b.
Definition key_gt (a b : string) : bool := String.ltb b a.
Definition key_eq (a b : string) : bool := String.eqb a b.

(* vector::insert(begin() + i, x); a position past the end is undefined *)
Definition vector_insert {A} (l : list A) (i : nat) (x : A) : res (list A) :=
  if decide (i <= length l)%nat then inr (take i l ++ x :: drop i l)
  else inl Undefined.

(* v[i] *)
Definition at_index {A} (l : list A) (i : nat) : res A := of_option (l !! i).

(* p->... through a unique_ptr *)
Definition deref {A} (p : option A) : res A := of_option p.

Definition splitChild (parent : BTreeNode) (child_index : nat) : res BTreeNode :=
  (* auto child = move(parent->children[child_index]); the slot is left null *)
  res_bind (at_index (children parent) child_index) (fun child_ptr =>
  res_bind (deref child_ptr) (fun child =>
  let moved_from := <[child_index := None]> (children parent) in
  let mid := (length (keys child) / 2)%nat in
  res_bind (at_index (keys child) mid) (fun middle_key =>
  res_bind (at_index (values child) mid) (fun middle_value =>
  res_bind (if decide (length (keys child) <= length (values child))%nat
            then inr tt else inl Undefined) (fun _ =>
  let new_node :=
    Node (drop (S mid) (keys child))
         (take (length (keys child) - S mid) (drop (S mid) (values child)))
         (if is_leaf child then [] else drop (S mid) (children child))
         (is_leaf child) in
  (* child, resized to its left half, is destroyed when the function returns *)
  res_bind (vector_insert (keys parent) child_index middle_key) (fun keys' =>
  res_bind (vector_insert (values parent) child_index middle_value) (fun values' =>
  res_bind (vector_insert moved_from (S child_index) (Some new_node)) (fun children' =>
  inr (Node keys' values' children' (is_leaf parent)))))))))).

(* int i = size - 1; while (i >= 0 && key < keys[i]) i--; i++;
   computed on the keys taken from the right *)
Fixpoint skip_greater (key : string) (rev_keys : list string) : nat :=
  match rev_keys with
  | [] => O
  | k :: rest => if key_lt key k then skip_greater key rest else length rev_keys
  end.

Definition insert_index (key : string) (ks : list string) : nat :=
  skip_greater key (reverse ks).

Fixpoint insertNonFull (fuel : nat) (node : BTreeNode) (key : string)
    (value : TupleId) : res BTreeNode :=
  match fuel with
  | O => inl OutOfFuel
  | S fuel' =>
      let i := insert_index key (keys node) in
      if is_leaf node then
        res_bind (vector_insert (keys node) i key) (fun keys' =>
        res_bind (vector_insert (values node) i value) (fun values' =>
        inr (Node keys' values' (children node) (is_leaf node))))
      else
        res_bind (at_index (children node) i) (fun child_ptr =>
        res_bind (deref child_ptr) (fun child =>
        res_bind
          (if isFull child then
             res_bind (splitChild node i) (fun node' =>
             res_bind (at_index (keys node') i) (fun k =>
             inr (node', if key_gt key k then S i else i)))
           else inr (node, i))
          (fun '(node1, i1) =>
        res_bind (at_index (children node1) i1) (fun target_ptr =>
        res_bind (deref target_ptr) (fun target =>
        res_bind (insertNonFull fuel' target key value) (fun target' =>
        inr (Node (keys node1) (values node1)
                  (<[i1 := Some target']> (children node1))
                  (is_leaf node1))))))))
  end.

(* size_t i = 0; while (i < size && key > keys[i]) i++; *)
Fixpoint search_index (key : string) (ks : list string) : nat :=
  match ks with
  | [] => O
  | k :: rest => if key_gt key k then S (search_index key rest) else O
  end.

Fixpoint searchRecursive (node : BTreeNode) (key : string) : res (option TupleId) :=
  match node with
  | Node ks vs cs leaf =>
      let i := search_index key ks in
      (* searchRecursive(node->children[i].get(), key), a null child is "not found" *)
      let descend (_ : unit) : res (option TupleId) :=
        (fix child_at (cs : list (option BTreeNode)) (j : nat) :=
           match cs, j with
           | [], _ => inl Undefined
           | None :: _, O => inr None
           | Some c :: _, O => searchRecursive c key
           | _ :: cs', S j' => child_at cs' j'
           end) cs i in
      match ks !! i with
      | Some k =>
          if key_eq key k then
            res_bind (at_index vs i) (fun v => inr (Some v))
          else if leaf then inr None
          else descend tt
      | None => if leaf then inr None else descend tt
      end
  end.

(* the number of levels below a node, which bounds the descent *)
Fixpoint depth (node : BTreeNode) : nat :=
  match node with
  | Node _ _ cs _ =>
      S ((fix max_depth (cs : list (option BTreeNode)) : nat :=
            match cs with
            | [] => O
            | None :: cs' => max_depth cs'
            | Some c :: cs' => Nat.max (depth c) (max_depth cs')
            end) cs)
  end.

(* a <= b on keys: not (b < a) *)
Definition key_le (a b : string) : Prop := key_lt b a = false.

(* a root that is still a leaf: parallel key and value vectors, the keys in
   nondecreasing order *)
Definition leaf_root (node : BTreeNode) (entries : list (string * TupleId)) : Prop :=
  node = Node entries.*1 entries.*2 [] true ∧ StronglySorted key_le entries.*1.

(* a BTree is its root; BTree() starts with an empty leaf *)
Definition t := BTreeNode.

Definition empty : t := createNode true.

Definition insert (root : t) (key : string) (value : TupleId) : res t :=
  res_bind
    (if isFull root
     then splitChild (Node [] [] [Some root] false) 0
     else inr root)
    (fun root' => insertNonFull (S (depth root')) root' key value).

Definition search (root : t) (key : string) : res (option TupleId) :=
  searchRecursive root key.

(* the index after the rows have been inserted one after the other *)
Fixpoint insert_all (root : t) (rows : list (string * TupleId)) : res t :=
  match rows with
  | [] => inr root
  | (key, value) :: rows' =>
      res_bind (insert root key value) (fun root' => insert_all root' rows')
  end.

(* the tuple id of the first, respectively the last, of the rows that
   carries the key *)
Definition first_with_key (key : string) (rows : list (string * TupleId))
    : option TupleId :=
  snd <$> head (filter (fun row => row.1 = key) rows).

Definition last_with_key (key : string) (rows : list (string * TupleId))
    : option TupleId :=
  snd <$> last (filter (fun row => row.1 = key) rows).

(* contains(key) *)
Definition contains (root : t) (key : string) : res bool :=
  res_bind (search root key) (fun found => inr (bool_decide (found ≠ None))).

(* rangeQuery(start, end): the result vector is returned as it was created *)
Definition rangeQuery (root : t) (range_start range_end : string) : list TupleId := [].

(* a root that is a full leaf: the keys "1" to "4" *)
Definition full_leaf : t :=
  Node ["1"; "2"; "3"; "4"] [1; 2; 3; 4] [] true.

End BTree.

(** ** The buffer pool (buffer_pool.h) *)

Module BufferPool.

Record BufferFrame := mkFrame {
  page_id : PageId;
  is_dirty : bool;
  is_pinned : bool;
  data : list byte
}.

(* BufferFrame() *)
Definition emptyFrame : BufferFrame := mkFrame 0 false false zero_page.

(* BufferFrame::clear *)
Definition clear (fr : BufferFrame) : BufferFrame :=
  mkFrame 0 false false (replicate (length (data fr)) x00).

Definition set_pinned (b : bool) (fr : BufferFrame) : BufferFrame :=
  mkFrame (page_id fr) (is_dirty fr) b (data fr).

Definition set_dirty (b : bool) (fr : BufferFrame) : BufferFrame :=
  mkFrame (page_id fr) b (is_pinned fr) (data fr).

Definition set_data (d : list byte) (fr : BufferFrame) : BufferFrame :=
  mkFrame (page_id fr) (is_dirty fr) (is_pinned fr) d.

(* The fstream db_file: the bytes of the file and the stream's failbit.
   A read that cannot deliver a whole page sets the failbit; the bit stays
   set, and makes every later read fail, until a write calls clear(). *)
Record File := mkFile {
  contents : list byte;
  failbit : bool
}.

Record t := mkPool {
  frames : list BufferFrame;
  page_table : gmap Z BufferFrameId;
  lru_list : list BufferFrameId;
  db_file : File;
  page_hits : Z;    (* size_t *)
  page_misses : Z   (* size_t *)
}.

Definition with_frames (fs : list BufferFrame) (bp : t) : t :=
  mkPool fs (page_table bp) (lru_list bp) (db_file bp) (page_hits bp) (page_misses bp).

Definition with_file (f : File) (bp : t) : t :=
  mkPool (frames bp) (page_table bp) (lru_list bp) f (page_hits bp) (page_misses bp).

Definition page_offset (p : PageId) : nat := (Z.to_nat p * PAGE_SIZE)%nat.

(* readPageFromDisk: seekg and read do nothing on a stream whose failbit is
   set; a short read sets it; in both cases the page is zero-filled. *)
Definition readPageFromDisk (f : File) (p : PageId) : list byte * File :=
  if failbit f then (zero_page, f)
  else match read_bytes (contents f) (page_offset p) PAGE_SIZE with
       | Some d => (d, f)
       | None => (zero_page, mkFile (contents f) true)
       end.

(* writePageToDisk: clear(), pad the file with zeros up to the end of the
   target page when the target starts at or past the end, then overwrite
   the page. *)
Definition writePageToDisk (f : File) (p : PageId) (d : list byte) : File :=
  let current_size := length (contents f) in
  let target_position := page_offset p in
  let padded :=
    if decide (current_size <= target_position)%nat
    then contents f ++ replicate (target_position + PAGE_SIZE - current_size) x00
    else contents f in
  mkFile (take target_position padded ++ take PAGE_SIZE d
            ++ drop (target_position + PAGE_SIZE) padded)
         false.

(* findVictim: the loop runs from lru_list.begin(); the result is the first
   unpinned frame met and the list with that entry erased. *)
Fixpoint findVictim_from (fs : list BufferFrame) (l : list BufferFrameId)
    : exn + (BufferFrameId * list BufferFrameId) :=
  match l with
  | [] => inl NoUnpinnedFrames
  | it :: rest =>
      match fs !! it with
      | None => inl Undefined
      | Some fr =>
          if is_pinned fr then
            match findVictim_from fs rest with
            | inr (victim, rest') => inr (victim, it :: rest')
            | inl e => inl e
            end
          else inr (it, rest)
      end
  end.

Definition findVictim (bp : t) : outcome t BufferFrameId :=
  match findVictim_from (frames bp) (lru_list bp) with
  | inl e => Throw e bp
  | inr (victim, rest) =>
      Ok victim (mkPool (frames bp) (page_table bp) rest (db_file bp)
                        (page_hits bp) (page_misses bp))
  end.

Definition evictFrame (frame_id : BufferFrameId) (bp : t) : t :=
  match frames bp !! frame_id with
  | None => bp
  | Some fr =>
      let file' := if is_dirty fr
                   then writePageToDisk (db_file bp) (page_id fr) (data fr)
                   else db_file bp in
      mkPool (<[frame_id := clear fr]> (frames bp))
             (delete (page_id fr) (page_table bp))
             (lru_list bp) file' (page_hits bp) (page_misses bp)
  end.

(* updateLRU: list::remove erases every occurrence, push_front re-adds *)
Definition updateLRU (frame_id : BufferFrameId) (l : list BufferFrameId)
    : list BufferFrameId :=
  frame_id :: filter (fun x => x ≠ frame_id) l.

Definition incr (c : Z) : Z := (c + 1) mod 2 ^ 64.

(* BufferPool(file_path), over the bytes the file holds when it is opened *)
Definition init (n : nat) (file : list byte) : t :=
  mkPool (replicate n emptyFrame) ∅ (seq 0 n) (mkFile file false) 0 0.

(* getPage returns the frame as its index in [frames] *)
Definition getPage (bp : t) (p : PageId) : outcome t BufferFrameId :=
  match page_table bp !! p with
  | Some frame_id =>
      match frames bp !! frame_id with
      | None => Throw Undefined bp
      | Some fr =>
          Ok frame_id
             (mkPool (<[frame_id := set_pinned true fr]> (frames bp))
                     (page_table bp)
                     (updateLRU frame_id (lru_list bp))
                     (db_file bp) (incr (page_hits bp)) (page_misses bp))
      end
  | None =>
      let bp1 := mkPool (frames bp) (page_table bp) (lru_list bp) (db_file bp)
                        (page_hits bp) (incr (page_misses bp)) in
      bind (findVictim bp1) (fun victim_frame bp2 =>
        match frames bp2 !! victim_frame with
        | None => Throw Undefined bp2
        | Some fr =>
            let bp3 := if decide (page_id fr ≠ 0)
                       then evictFrame victim_frame bp2 else bp2 in
            let '(d, file') := readPageFromDisk (db_file bp3) p in
            Ok victim_frame
               (mkPool (<[victim_frame := mkFrame p false true d]> (frames bp3))
                       (<[p := victim_frame]> (page_table bp3))
                       (victim_frame :: lru_list bp3)
                       file' (page_hits bp3) (page_misses bp3))
        end)
  end.

Definition releasePage (bp : t) (p : PageId) : t :=
  match page_table bp !! p with
  | Some frame_id =>
      match frames bp !! frame_id with
      | Some fr => with_frames (<[frame_id := set_pinned false fr]> (frames bp)) bp
      | None => bp
      end
  | None => bp
  end.

Definition markDirty (bp : t) (p : PageId) : t :=
  match page_table bp !! p with
  | Some frame_id =>
      match frames bp !! frame_id with
      | Some fr => with_frames (<[frame_id := set_dirty true fr]> (frames bp)) bp
      | None => bp
      end
  | None => bp
  end.

Definition flushPage (bp : t) (p : PageId) : t :=
  match page_table bp !! p with
  | Some frame_id =>
      match frames bp !! frame_id with
      | Some fr =>
          if is_dirty fr then
            mkPool (<[frame_id := set_dirty false fr]> (frames bp))
                   (page_table bp) (lru_list bp)
                   (writePageToDisk (db_file bp) p (data fr))
                   (page_hits bp) (page_misses bp)
          else bp
      | None => bp
      end
  | None => bp
  end.

Definition flushAllPages (bp : t) : t :=
  let file' :=
    fold_left (fun f fr => if is_dirty fr
                           then writePageToDisk f (page_id fr) (data fr) else f)
              (frames bp) (db_file bp) in
  mkPool (map (set_dirty false) (frames bp)) (page_table bp) (lru_list bp)
         file' (page_hits bp) (page_misses bp).

(* a store through the BufferFrame* that getPage returned *)
Definition storeData (bp : t) (frame_id : BufferFrameId) (d : list byte) : t :=
  match frames bp !! frame_id with
  | Some fr => with_frames (<[frame_id := set_data d fr]> (frames bp)) bp
  | None => bp
  end.

(* the pages the page table maps, in increasing order of page id *)
Definition resident (bp : t) : list PageId :=
  (map_to_list (page_table bp)).*1.

Definition frame_of (bp : t) (p : PageId) : option BufferFrame :=
  match page_table bp !! p with
  | Some frame_id => frames bp !! frame_id
  | None => None
  end.

Definition pinned_count (bp : t) : nat :=
  length (filter (fun fr => is_pinned fr = true) (frames bp)).

(* get_page immediately followed by release_page, for each page in turn *)
Fixpoint access_all (bp : t) (ps : list PageId) : outcome t unit :=
  match ps with
  | [] => Ok tt bp
  | p :: ps' =>
      bind (getPage bp p) (fun _ bp' => access_all (releasePage bp' p) ps')
  end.

(* The representation invariant of the pool: the LRU list holds every frame
   id exactly once, and the page table and the frames agree on every page
   other than the reserved page 0. *)
Record wf (bp : t) : Prop := mkWf {
  wf_lru_valid : ∀ f, f ∈ lru_list bp → (f < length (frames bp))%nat;
  wf_lru_complete : ∀ f, (f < length (frames bp))%nat → f ∈ lru_list bp;
  wf_lru_nodup : NoDup (lru_list bp);
  wf_table_valid : ∀ p f, page_table bp !! p = Some f → (f < length (frames bp))%nat;
  wf_table_page : ∀ p f fr, p ≠ 0 → page_table bp !! p = Some f →
                    frames bp !! f = Some fr → page_id fr = p;
  wf_frame_table : ∀ f fr, frames bp !! f = Some fr → page_id fr ≠ 0 →
                    page_table bp !! page_id fr = Some f
}.

(* the invariant, as a test that can be run on a given pool *)
Definition wf_check (bp : t) : bool :=
  bool_decide (Forall (λ f, f < length (frames bp))%nat (lru_list bp)) &&
  bool_decide (Forall (λ f, f ∈ lru_list bp) (seq 0 (length (frames bp)))) &&
  bool_decide (NoDup (lru_list bp)) &&
  bool_decide (map_Forall (λ p f, (f < length (frames bp))%nat ∧
                                  (p ≠ 0 → page_id <$> frames bp !! f = Some p))
                          (page_table bp)) &&
  bool_decide (Forall (λ ffr, page_id ffr.2 ≠ 0 →
                              page_table bp !! page_id ffr.2 = Some ffr.1)
                      (imap pair (frames bp))).

(* The pool states a client can produce from a pool of n frames through the
   public interface and stores through the frames it was handed. *)
Inductive reachable (n : nat) : t → Prop :=
| reach_init file : reachable n (init n file)
| reach_getPage bp p : reachable n bp → reachable n (final_state (getPage bp p))
| reach_releasePage bp p : reachable n bp → reachable n (releasePage bp p)
| reach_markDirty bp p : reachable n bp → reachable n (markDirty bp p)
| reach_flushPage bp p : reachable n bp → reachable n (flushPage bp p)
| reach_flushAllPages bp : reachable n bp → reachable n (flushAllPages bp)
| reach_storeData bp f d : reachable n bp → reachable n (storeData bp f d).

(* "two callers obtained page p and one of them released it": the frame is
   still pinned *)
Definition pinned_after_one_release (bp : t) (p : PageId) : Prop :=
  ∀ f1 bp1 f2 bp2,
    getPage bp p = Ok f1 bp1 → getPage bp1 p = Ok f2 bp2 →
    is_pinned <$> frame_of (releasePage bp2 p) p = Some true.

(* the bytes and the pin flag of the frame with a given index *)
Definition data_at (bp : t) (g : BufferFrameId) : option (list byte) :=
  data <$> frames bp !! g.

Definition pinned_at (bp : t) (g : BufferFrameId) : option bool :=
  is_pinned <$> frames bp !! g.

(* a pool of two frames, one of them held for page 8 *)
Definition one_held : t := final_state (getPage (init 2 []) 8).

(* a pool of two frames whose two frames are both held *)
Definition both_pinned : t :=
  final_state (getPage (final_state (getPage (init 2 []) 1)) 2).

(* the scenario of the LRU test: capacity 4, pages 1,2,3,4,1,5, each page
   released right after its access *)
Definition lru_scenario : outcome t unit :=
  access_all (init 4 []) [1; 2; 3; 4; 1; 5].

(* a pool of one frame over an empty file: page 7 was requested, marked
   dirty and released *)
Definition dirty_page_7 : t :=
  releasePage (markDirty (final_state (getPage (init 1 []) 7)) 7) 7.

(* a pool of one frame over a file that holds the pages 0 and 1, every byte
   of them 1: page 5, which lies past the end of the file, was requested
   and released *)
Definition after_failed_read : t :=
  releasePage (final_state (getPage (init 1 (replicate (2 * PAGE_SIZE) x01)) 5)) 5.

(* the dirty flag of the frame with a given index *)
Definition dirty_at (bp : t) (g : BufferFrameId) : option bool :=
  is_dirty <$> frames bp !! g.

(* every frame carries a whole page: PAGE_SIZE bytes, as the constructor
   and readPageFromDisk leave them, under a page id that is not negative *)
Definition whole_pages (bp : t) : Prop :=
  Forall (λ fr, 0 <= page_id fr ∧ length (data fr) = PAGE_SIZE) (frames bp).

(* the pool of BUFFER_POOL_SIZE frames over a file that holds the pages 0
   and 1, every byte of them 1: page 5, which lies past the end of the
   file, was requested and released *)
Definition failed_read_pool : t :=
  releasePage
    (final_state (getPage (init BUFFER_POOL_SIZE (replicate (2 * PAGE_SIZE) x01)) 5)) 5.

(* a pool of two frames over an empty file: page 1 was requested, filled
   and marked dirty, then page 2 was requested and marked dirty, then both
   were released *)
Definition two_dirty_pages : t :=
  let bp1 := final_state (getPage (init 2 []) 1) in
  let bp2 := markDirty (storeData bp1 0 (replicate PAGE_SIZE x01)) 1 in
  let bp3 := final_state (getPage bp2 2) in
  releasePage (releasePage (markDirty bp3 2) 2) 1.

End BufferPool.

(** ** Stateful member functions *)

(* a member function of an object of type S *)
Definition M (S A : Type) : Type := S → outcome S A.

#[global] Instance M_ret {S} : MRet (M S) := λ A a s, Ok a s.
#[global] Instance M_bind {S} : MBind (M S) := λ A B k m s, bind (m s) k.

(* a pure step that may raise *)
Definition try {S A} (r : res A) : M S A :=
  λ s, match r with inl e => Throw e s | inr a => Ok a s end.

Definition get_state {S} : M S S := λ s, Ok s s.
Definition modify {S} (f : S → S) : M S unit := λ s, Ok tt (f s).

(** ** Tables (storage_engine.cpp) *)

Module Table.
Import Codec.

Record PageHeader := mkPageHeader {
  page_id : Z;     (* PageId *)
  free_space : Z;  (* uint32_t *)
  tuple_count : Z; (* uint32_t *)
  next_page : Z    (* uint32_t *)
}.

Definition encode_page_header (h : PageHeader) : list byte :=
  le_bytes 4 (page_id h) ++ le_bytes 4 (free_space h)
    ++ le_bytes 4 (tuple_count h) ++ le_bytes 4 (next_page h).

(* memcpy(&header, frame->data.data(), sizeof(PageHeader)) *)
Definition read_page_header (d : list byte) : res PageHeader :=
  res_bind (of_option (read_bytes d 0 PAGE_HEADER_SIZE)) (fun bs =>
    inr (mkPageHeader (le_value (take 4 bs))
                      (le_value (take 4 (drop 4 bs)))
                      (le_value (take 4 (drop 8 bs)))
                      (le_value (drop 12 bs)))).

(* memcpy(frame->data.data(), &header, sizeof(PageHeader)) *)
Definition write_page_header (d : list byte) (h : PageHeader) : res (list byte) :=
  of_option (write_bytes d 0 (encode_page_header h)).

(* for (i = 0; i < tuple_count; i++) offset += existing_tuple_header.tuple_size *)
Fixpoint skip_tuples (d : list byte) (count offset : nat) : res nat :=
  match count with
  | O => inr offset
  | S count' =>
      res_bind (read_tuple_header d offset) (fun h =>
        skip_tuples d count' (offset + Z.to_nat (tuple_size h))%nat)
  end.

(* the loop of readTuplesFromPage *)
Fixpoint read_tuples (schema : Schema) (d : list byte) (count offset : nat)
    : res (list Tuple) :=
  match count with
  | O => inr []
  | S count' =>
      res_bind (deserializeTuple schema d offset) (fun tuple =>
      res_bind (read_tuple_header d offset) (fun h =>
      res_bind (read_tuples schema d count' (offset + Z.to_nat (tuple_size h))%nat)
        (fun tuples => inr (tuple :: tuples))))
  end.

Record t := mkTable {
  name : string;
  schema : Schema;
  first_page_id : Z;  (* PageId *)
  next_page_id : Z;   (* PageId *)
  next_tuple_id : Z;  (* TupleId *)
  buffer_pool : BufferPool.t;
  (* unordered_map<string, unique_ptr<BTree>>, in the order of creation *)
  indexes : list (string * BTree.t)
}.

Definition with_pool (bp : BufferPool.t) (tb : t) : t :=
  mkTable (name tb) (schema tb) (first_page_id tb) (next_page_id tb)
          (next_tuple_id tb) bp (indexes tb).

Definition with_indexes (ix : list (string * BTree.t)) (tb : t) : t :=
  mkTable (name tb) (schema tb) (first_page_id tb) (next_page_id tb)
          (next_tuple_id tb) (buffer_pool tb) ix.

Definition with_first_page_id (p : Z) (tb : t) : t :=
  mkTable (name tb) (schema tb) p (next_page_id tb)
          (next_tuple_id tb) (buffer_pool tb) (indexes tb).

Definition with_next_ids (next_page next_tuple : Z) (tb : t) : t :=
  mkTable (name tb) (schema tb) (first_page_id tb) next_page next_tuple
          (buffer_pool tb) (indexes tb).

(* buffer_pool->getPage, releasePage, markDirty *)
Definition getPage (p : Z) : M t BufferFrameId :=
  λ tb, match BufferPool.getPage (buffer_pool tb) p with
        | Ok f bp => Ok f (with_pool bp tb)
        | Throw e bp => Throw e (with_pool bp tb)
        end.

Definition releasePage (p : Z) : M t unit :=
  modify (λ tb, with_pool (BufferPool.releasePage (buffer_pool tb) p) tb).

Definition markDirty (p : Z) : M t unit :=
  modify (λ tb, with_pool (BufferPool.markDirty (buffer_pool tb) p) tb).

(* frame->data, read and written through the pointer getPage returned *)
Definition load (frame : BufferFrameId) : M t (list byte) :=
  λ tb, match BufferPool.frames (buffer_pool tb) !! frame with
        | Some fr => Ok (BufferPool.data fr) tb
        | None => Throw Undefined tb
        end.

Definition store (frame : BufferFrameId) (d : list byte) : M t unit :=
  modify (λ tb, with_pool (BufferPool.storeData (buffer_pool tb) frame d) tb).

Definition allocateNewPage : M t Z :=
  tb ← get_state;
  let new_page_id := next_page_id tb in
  modify (with_next_ids ((new_page_id + 1) mod 2 ^ 32) (next_tuple_id tb));;
  frame ← getPage new_page_id;
  let header := mkPageHeader new_page_id
                  (Z.of_nat (PAGE_SIZE - PAGE_HEADER_SIZE)) 0 0 in
  d ← load frame;
  d' ← try (write_page_header d header);
  store frame d';;
  markDirty new_page_id;;
  releasePage new_page_id;;
  mret new_page_id.

Definition insertTupleIntoPage (p : Z) (tuple : Tuple) : M t bool :=
  frame ← getPage p;
  d ← load frame;
  header ← try (read_page_header d);
  tb ← get_state;
  tuple_size ← try (getTupleSize (schema tb) tuple);
  if decide (Z.of_nat tuple_size > free_space header) then
    releasePage p;;
    mret false
  else
    offset ← try (skip_tuples d (Z.to_nat (tuple_count header)) PAGE_HEADER_SIZE);
    '(d1, written_size) ← try (serializeTuple (schema tb) tuple d offset);
    let header' :=
      mkPageHeader (page_id header)
                   ((free_space header - Z.of_nat written_size) mod 2 ^ 32)
                   ((tuple_count header + 1) mod 2 ^ 32)
                   (next_page header) in
    d2 ← try (write_page_header d1 header');
    store frame d2;;
    markDirty p;;
    releasePage p;;
    mret true.

Definition readTuplesFromPage (p : Z) : M t (list Tuple) :=
  frame ← getPage p;
  d ← load frame;
  header ← try (read_page_header d);
  tb ← get_state;
  tuples ← try (read_tuples (schema tb) d (Z.to_nat (tuple_count header))
                            PAGE_HEADER_SIZE);
  releasePage p;;
  mret tuples.

(* to_string(int) and, through integral promotion, to_string(bool) *)
Definition to_string_int (z : Z) : string :=
  DecimalString.NilZero.string_of_int (Z.to_int z).

Section WithDoubleFormat.

(* std::to_string(double) on the object representation of the double *)
Variable to_string_double : Z → string.

(* the visitor that turns a value into an index key *)
Definition stringify (v : Value) : string :=
  match v with
  | VString str => str
  | VInt z => to_string_int z
  | VBool b => to_string_int (if b then 1 else 0)
  | VDouble bits => to_string_double bits
  end.

(* the loop that looks a column name up: the first match, else 0 *)
Fixpoint column_index_from (cols : list Column) (column_name : string) (i : nat)
    : option nat :=
  match cols with
  | [] => None
  | col :: cols' =>
      if decide (Types.name col = column_name) then Some i
      else column_index_from cols' column_name (S i)
  end.

Definition column_index (schema : Schema) (column_name : string) : nat :=
  default O (column_index_from (columns schema) column_name O).

(* "Update indexes": every index gets the key of its column *)
Fixpoint update_indexes (schema : Schema) (tuple : Tuple)
    (ix : list (string * BTree.t)) : res (list (string * BTree.t)) :=
  match ix with
  | [] => inr []
  | (column_name, index) :: ix' =>
      let col_idx := column_index schema column_name in
      res_bind
        (match values tuple !! col_idx with
         | Some v => BTree.insert index (stringify v) (id tuple)
         | None => inr index
         end)
        (fun index' =>
           res_bind (update_indexes schema tuple ix') (fun ix'' =>
             inr ((column_name, index') :: ix'')))
  end.

Definition updateIndexes (tuple : Tuple) : M t unit :=
  tb ← get_state;
  ix ← try (update_indexes (schema tb) tuple (indexes tb));
  modify (with_indexes ix).

(* the while loop of insertTuple; [None] when the chain ends without a
   page that takes the tuple *)
Fixpoint insert_walk (fuel : nat) (current_page : Z) (new_tuple : Tuple)
    : M t (option bool) :=
  match fuel with
  | O => try (inl OutOfFuel)
  | S fuel' =>
      if decide (current_page = 0) then mret None
      else
        ok ← insertTupleIntoPage current_page new_tuple;
        if ok : bool then
          updateIndexes new_tuple;;
          mret (Some true)
        else
          frame ← getPage current_page;
          d ← load frame;
          header ← try (read_page_header d);
          let current_page := next_page header in
          releasePage current_page;;
          insert_walk fuel' current_page new_tuple
  end.

(* insertTuple from "Try to insert into existing pages" on, for the tuple
   with its id assigned *)
Definition insert_new_tuple (fuel : nat) (new_tuple : Tuple) : M t bool :=
  tb ← get_state;
  found ← insert_walk fuel (first_page_id tb) new_tuple;
  match found with
  | Some b => mret b
  | None =>
      new_page ← allocateNewPage;
      ok ← insertTupleIntoPage new_page new_tuple;
      if ok : bool then
        frame ← getPage (first_page_id tb);
        d ← load frame;
        header ← try (read_page_header d);
        let header' := mkPageHeader (page_id header) (free_space header)
                                    (tuple_count header) new_page in
        d' ← try (write_page_header d header');
        store frame d';;
        markDirty (first_page_id tb);;
        releasePage (first_page_id tb);;
        updateIndexes new_tuple;;
        mret true
      else mret false
  end.

Definition insertTuple (fuel : nat) (tuple : Tuple) : M t bool :=
  tb ← get_state;
  new_tuple ←
    (if decide (id tuple = 0) then
       modify (with_next_ids (next_page_id tb) ((next_tuple_id tb + 1) mod 2 ^ 64));;
       mret (mkTuple (next_tuple_id tb) (values tuple))
     else mret tuple);
  insert_new_tuple fuel new_tuple.

Fixpoint select_walk (fuel : nat) (current_page : Z) (all_tuples : list Tuple)
    : M t (list Tuple) :=
  match fuel with
  | O => try (inl OutOfFuel)
  | S fuel' =>
      if decide (current_page = 0) then mret all_tuples
      else
        page_tuples ← readTuplesFromPage current_page;
        frame ← getPage current_page;
        d ← load frame;
        header ← try (read_page_header d);
        releasePage current_page;;
        select_walk fuel' (next_page header) (all_tuples ++ page_tuples)
  end.

Definition selectAll (fuel : nat) : M t (list Tuple) :=
  tb ← get_state;
  select_walk fuel (first_page_id tb) [].

Fixpoint count_walk (fuel : nat) (current_page : Z) (count : Z) : M t Z :=
  match fuel with
  | O => try (inl OutOfFuel)
  | S fuel' =>
      if decide (current_page = 0) then mret count
      else
        frame ← getPage current_page;
        d ← load frame;
        header ← try (read_page_header d);
        let count := (count + tuple_count header) mod 2 ^ 64 in
        let current_page := next_page header in
        releasePage current_page;;
        count_walk fuel' current_page count
  end.

Definition getTupleCount (fuel : nat) : M t Z :=
  tb ← get_state;
  count_walk fuel (first_page_id tb) 0.

(* the scan of createIndex over the rows of the table *)
Fixpoint index_rows (col_idx : nat) (tuples : list Tuple) (index : BTree.t)
    : res BTree.t :=
  match tuples with
  | [] => inr index
  | tuple :: tuples' =>
      res_bind
        (match values tuple !! col_idx with
         | Some v => BTree.insert index (stringify v) (id tuple)
         | None => inr index
         end)
        (fun index' => index_rows col_idx tuples' index')
  end.

Definition createIndex (fuel : nat) (column_name : string) : M t unit :=
  tb ← get_state;
  if decide (column_name ∈ (indexes tb).*1) then mret tt
  else
    all_tuples ← selectAll fuel;
    index ← try (index_rows (column_index (schema tb) column_name) all_tuples
                            BTree.empty);
    tb' ← get_state;
    modify (with_indexes (indexes tb' ++ [(column_name, index)])).

(* the while loop of loadExistingTableData *)
Fixpoint load_walk (fuel : nat) (current_page : Z) (max_tuple_id max_page_id : Z)
    : M t (Z * Z) :=
  match fuel with
  | O => try (inl OutOfFuel)
  | S fuel' =>
      if decide (current_page = 0) then mret (max_tuple_id, max_page_id)
      else
        page_frame ← getPage current_page;
        d ← load page_frame;
        page_header ← try (read_page_header d);
        let max_page_id := Z.max max_page_id current_page in
        tuples ← readTuplesFromPage current_page;
        let max_tuple_id := fold_left (fun m tuple => Z.max m (id tuple)) tuples
                                      max_tuple_id in
        let current_page := next_page page_header in
        releasePage current_page;;
        load_walk fuel' current_page max_tuple_id max_page_id
  end.

Definition loadExistingTableData (fuel : nat) : M t unit :=
  frame ← getPage 1;
  d ← load frame;
  header ← try (read_page_header d);
  (if decide (page_id header = 1 ∧ tuple_count header > 0) then
     modify (with_first_page_id 1);;
     '(max_tuple_id, max_page_id) ← load_walk fuel 1 0 1;
     modify (with_next_ids ((max_page_id + 1) mod 2 ^ 32)
                           ((max_tuple_id + 1) mod 2 ^ 64))
   else mret tt);;
  releasePage 1.

(* Table(name, schema, db_file_path), over a pool of n frames and the bytes
   that the table's file holds *)
Definition create (fuel n : nat) (name : string) (schema : Schema)
    (file : list byte) : outcome t unit :=
  (loadExistingTableData fuel;;
   tb ← get_state;
   if decide (first_page_id tb = 0) then
     p ← allocateNewPage;
     modify (with_first_page_id p)
   else mret tt)
  (mkTable name schema 0 1 1 (BufferPool.init n file) []).

End WithDoubleFormat.

(* the header of a page, as a reader that has the page in the pool sees it *)
Definition resident_header (bp : BufferPool.t) (p : Z) : option PageHeader :=
  match BufferPool.frame_of bp p with
  | Some fr =>
      match read_page_header (BufferPool.data fr) with
      | inr h => Some h
      | inl _ => None
      end
  | None => None
  end.

(* the pages reached from page p by following next_page through resident
   pages, for at most [fuel] links *)
Fixpoint chain_from (fuel : nat) (bp : BufferPool.t) (p : Z) : list Z :=
  match fuel with
  | O => []
  | S fuel' =>
      if decide (p = 0) then []
      else p :: match resident_header bp p with
                | Some h => chain_from fuel' bp (next_page h)
                | None => []
                end
  end.

Definition is_pinned_page (bp : BufferPool.t) (p : Z) : bool :=
  match BufferPool.frame_of bp p with
  | Some fr => BufferPool.is_pinned fr
  | None => false
  end.

(* the bytes of a resident page *)
Definition page_data (bp : BufferPool.t) (p : Z) : option (list byte) :=
  match BufferPool.page_table bp !! p with
  | Some f => BufferPool.data_at bp f
  | None => None
  end.

(* [chain bp p l]: following next_page from page p through resident pages
   ends at 0, and l lists the pages met with their bytes *)
Inductive chain (bp : BufferPool.t) : Z → list (Z * list byte) → Prop :=
| chain_end : chain bp 0 []
| chain_link p d h l :
    p ≠ 0 → page_data bp p = Some d → read_page_header d = inr h →
    chain bp (next_page h) l → chain bp p ((p, d) :: l).

(* the chain with its bytes, computed for at most [fuel] links *)
Fixpoint chain_of (fuel : nat) (bp : BufferPool.t) (p : Z)
    : option (list (Z * list byte)) :=
  match fuel with
  | O => None
  | S fuel' =>
      if decide (p = 0) then Some []
      else
        match page_data bp p with
        | Some d =>
            match read_page_header d with
            | inr h =>
                match chain_of fuel' bp (next_page h) with
                | Some l => Some ((p, d) :: l)
                | None => None
                end
            | inl _ => None
            end
        | None => None
        end
  end.

(* the state of a table between two calls: the pool is well formed, the
   reserved page 0 was never requested, and the page chain is resident,
   finite and ends at 0 *)
Record table_ok (tb : t) (l : list (Z * list byte)) : Prop := mkTableOk {
  ok_wf : BufferPool.wf (buffer_pool tb);
  ok_page0 : BufferPool.page_table (buffer_pool tb) !! 0 = None;
  ok_chain : chain (buffer_pool tb) (first_page_id tb) l
}.

(* what an insert relies on besides: no page of the chain claims more free
   space than a page has, and the next page id is unused *)
Record insert_ready (tb : t) (l : list (Z * list byte)) : Prop := mkInsertReady {
  ready_free : ∀ p d h, (p, d) ∈ l → read_page_header d = inr h →
                 free_space h <= Z.of_nat (PAGE_SIZE - PAGE_HEADER_SIZE);
  ready_fresh : BufferPool.page_table (buffer_pool tb) !! next_page_id tb = None;
  ready_next : next_page_id tb ≠ 0
}.

(* [table_ok] and [insert_ready] as tests on a given table *)
Definition checked_chain (fuel : nat) (tb : t) : option (list (Z * list byte)) :=
  if BufferPool.wf_check (buffer_pool tb) &&
     bool_decide (BufferPool.page_table (buffer_pool tb) !! 0 = None)
  then chain_of fuel (buffer_pool tb) (first_page_id tb)
  else None.

Definition ready_check (tb : t) (l : list (Z * list byte)) : bool :=
  forallb (fun pd => match read_page_header pd.2 with
                     | inr h => bool_decide
                                  (free_space h <= Z.of_nat (PAGE_SIZE - PAGE_HEADER_SIZE))
                     | inl _ => true
                     end) l &&
  bool_decide (BufferPool.page_table (buffer_pool tb) !! next_page_id tb = None) &&
  bool_decide (next_page_id tb ≠ 0).

(* the tuples stored in a page, and in a list of pages *)
Definition page_tuples (schema : Schema) (d : list byte) : res (list Tuple) :=
  res_bind (read_page_header d) (fun h =>
    read_tuples schema d (Z.to_nat (tuple_count h)) PAGE_HEADER_SIZE).

Fixpoint scan_pages (schema : Schema) (ds : list (list byte)) : res (list Tuple) :=
  match ds with
  | [] => inr []
  | d :: ds' =>
      res_bind (page_tuples schema d) (fun tuples =>
      res_bind (scan_pages schema ds') (fun rest => inr (tuples ++ rest)))
  end.

(* the sum of header.tuple_count over a list of pages *)
Fixpoint count_pages (ds : list (list byte)) (count : Z) : res Z :=
  match ds with
  | [] => inr count
  | d :: ds' =>
      res_bind (read_page_header d) (fun h =>
        count_pages ds' ((count + tuple_count h) mod 2 ^ 64))
  end.

Definition to_option {A} (r : res A) : option A :=
  match r with inr a => Some a | inl _ => None end.

(* the pool after steps that keep every page in its frame with its bytes *)
Definition same_view (bp bp' : BufferPool.t) : Prop :=
  BufferPool.wf bp' ∧
  BufferPool.page_table bp' = BufferPool.page_table bp ∧
  ∀ g, BufferPool.data_at bp' g = BufferPool.data_at bp g.

(* frame g holds none of the listed pages *)
Definition off_chain (bp : BufferPool.t) (l : list (Z * list byte))
    (g : BufferFrameId) : Prop :=
  ∀ q, q ∈ l.*1 → BufferPool.page_table bp !! q ≠ Some g.

(* the pages at the head of a chain that have no room for sz bytes: the
   pages that the walk of insertTuple visits and advances past *)
Fixpoint walked_past (sz : Z) (l : list (Z * list byte)) : list Z :=
  match l with
  | [] => []
  | (p, d) :: l' =>
      match read_page_header d with
      | inr h => if decide (sz > free_space h) then p :: walked_past sz l' else []
      | inl _ => []
      end
  end.

(** *** Queries with a condition (selectWhere, selectUsingIndex) *)

(* operator== of double, on the 64 bits of the two operands: a NaN equals
   nothing, the two zeros equal each other, and otherwise equal values have
   equal bits *)
Definition is_nan (bits : Z) : bool :=
  bool_decide ((bits / 2 ^ 52) mod 2 ^ 11 = 2047) && negb (bool_decide (bits mod 2 ^ 52 = 0)).

Definition double_eq (a b : Z) : bool :=
  negb (is_nan a) && negb (is_nan b) &&
  (bool_decide (a = b) || (bool_decide (a mod 2 ^ 63 = 0) && bool_decide (b mod 2 ^ 63 = 0))).

(* operator== of the variant: the same alternative, holding equal values *)
Definition value_eq (a b : Value) : bool :=
  match a, b with
  | VInt x, VInt y => bool_decide (x = y)
  | VString x, VString y => bool_decide (x = y)
  | VBool x, VBool y => bool_decide (x = y)
  | VDouble x, VDouble y => double_eq x y
  | _, _ => false
  end.

(* indexes.find(column) *)
Fixpoint find_index (column : string) (ix : list (string * BTree.t)) : option BTree.t :=
  match ix with
  | [] => None
  | (column_name, index) :: ix' =>
      if decide (column_name = column) then Some index else find_index column ix'
  end.

(* the loop that returns the first tuple with the id *)
Fixpoint first_with_id (tuple_id : TupleId) (tuples : list Tuple) : list Tuple :=
  match tuples with
  | [] => []
  | tuple :: tuples' =>
      if decide (id tuple = tuple_id) then [tuple] else first_with_id tuple_id tuples'
  end.

(* tuple.values[col_idx] == value, for the tuples that have the column *)
Definition matches (col_idx : nat) (value : Value) (tuple : Tuple) : bool :=
  match values tuple !! col_idx with
  | Some v => value_eq v value
  | None => false
  end.

Section Queries.
Variable to_string_double : Z → string.

Definition selectUsingIndex (fuel : nat) (column : string) (value : Value)
    : M t (list Tuple) :=
  tb ← get_state;
  match find_index column (indexes tb) with
  | None => mret []
  | Some index =>
      tuple_id_ptr ← try (BTree.search index (stringify to_string_double value));
      match tuple_id_ptr with
      | None => mret []
      | Some tuple_id =>
          all_tuples ← selectAll fuel;
          mret (first_with_id tuple_id all_tuples)
      end
  end.

Definition selectWhere (fuel : nat) (column : string) (value : Value)
    : M t (list Tuple) :=
  tb ← get_state;
  match find_index column (indexes tb) with
  | Some _ => selectUsingIndex fuel column value
  | None =>
      all_tuples ← selectAll fuel;
      let col_idx := column_index (schema tb) column in
      mret (filter (λ tuple, matches col_idx value tuple = true) all_tuples)
  end.

(* insertTuple for each value list in turn, the tuple id left at 0; the
   answers of the calls *)
Fixpoint insert_each (fuel : nat) (rows : list (list Value)) : M t (list bool) :=
  match rows with
  | [] => mret []
  | values :: rows' =>
      ok ← insertTuple to_string_double fuel (mkTuple 0 values);
      oks ← insert_each fuel rows';
      mret (ok :: oks)
  end.

End Queries.

(** *** The layout of a page *)

(* the bytes of a stored tuple: the header, which carries the size of the
   record, then the fields *)
Definition encode_tuple (tuple : Tuple) : list byte :=
  encode_tuple_header
    (mkTupleHeader
       (Z.of_nat (TUPLE_HEADER_SIZE + length (encode_values (values tuple))) mod 2 ^ 32)
       0 (id tuple))
    ++ encode_values (values tuple).

Definition stored (tuples : list Tuple) : list byte :=
  concat (encode_tuple <$> tuples).

(* page d, with header h, holds exactly the tuples: they lie back to back
   behind the header, and free_space is what is left of the page *)
Record page_holds (schema : Schema) (d : list byte) (h : PageHeader)
    (tuples : list Tuple) : Prop := mkPageHolds {
  holds_length : length d = PAGE_SIZE;
  holds_header : read_page_header d = inr h;
  holds_count : tuple_count h = Z.of_nat (length tuples);
  holds_fits : (PAGE_HEADER_SIZE + length (stored tuples) <= PAGE_SIZE)%nat;
  holds_free : free_space h
               = Z.of_nat (PAGE_SIZE - PAGE_HEADER_SIZE - length (stored tuples));
  holds_bytes : take (length (stored tuples)) (drop PAGE_HEADER_SIZE d) = stored tuples;
  holds_tuples : Forall (λ tuple, conforms schema tuple ∧ tuple_in_range tuple) tuples
}.

(* a table all of whose rows are in its first page, which is page 1 and
   the only page; no index *)
Record one_page_table (tb : t) (tuples : list Tuple) : Prop := mkOnePageTable {
  one_wf : BufferPool.wf (buffer_pool tb);
  one_page0 : BufferPool.page_table (buffer_pool tb) !! 0 = None;
  one_first : first_page_id tb = 1;
  one_holds : ∃ d h, page_data (buffer_pool tb) 1 = Some d ∧
                     page_holds (schema tb) d h tuples ∧ next_page h = 0 ∧ page_id h = 1;
  one_indexes : indexes tb = []
}.

(* the row that insertTuple stores for the k-th value list of a new table *)
Definition numbered (rows : list (list Value)) : list Tuple :=
  imap (λ k values, mkTuple (Z.of_nat k + 1) values) rows.

(* page 1 is dirty, in a pool of whole pages: a flush writes it *)
Record page1_unsaved (tb : t) : Prop := mkPage1Unsaved {
  unsaved_whole : BufferPool.whole_pages (buffer_pool tb);
  unsaved_dirty : ∃ f, BufferPool.page_table (buffer_pool tb) !! 1 = Some f ∧
                       BufferPool.dirty_at (buffer_pool tb) f = Some true
}.

(* the pool is flushed (StorageEngine::flushAllPages, or the destructor of
   the pool, which writes the same frames), and the table is constructed
   again under its name and schema, over a pool of n frames and the bytes
   that the file holds then *)
Definition reopen (fuel n : nat) (tb : t) : outcome t unit :=
  create fuel n (name tb) (schema tb)
    (BufferPool.contents
       (BufferPool.db_file (BufferPool.flushAllPages (buffer_pool tb)))).

End Table.

(** ** The storage engine and the engine facade (storage_engine.cpp,
       database_engine.cpp) *)

Module StorageEngine.

(* unordered_map<string, unique_ptr<Table>> *)
Record t := mkStorageEngine {
  tables : gmap string Table.t
}.

(* run a member function of the named table; [absent] is the answer when
   getTable returns nullptr *)
Definition on_table {A} (table_name : string) (absent : A) (m : M Table.t A)
    : M t A :=
  λ se, match tables se !! table_name with
        | None => Ok absent se
        | Some tb =>
            match m tb with
            | Ok a tb' => Ok a (mkStorageEngine (<[table_name := tb']> (tables se)))
            | Throw e tb' => Throw e (mkStorageEngine (<[table_name := tb']> (tables se)))
            end
        end.

(* createTable, over the bytes that the file of the new table holds *)
Definition createTable (fuel n : nat) (name : string) (schema : Schema)
    (file : list byte) : M t bool :=
  λ se, match tables se !! name with
        | Some _ => Ok false se
        | None =>
            match Table.create fuel n name schema file with
            | Ok _ tb => Ok true (mkStorageEngine (<[name := tb]> (tables se)))
            | Throw e _ => Throw e se
            end
        end.

(* dropTable: the entry is erased; the file of the table stays *)
Definition dropTable (name : string) : M t bool :=
  λ se, match tables se !! name with
        | None => Ok false se
        | Some _ => Ok true (mkStorageEngine (delete name (tables se)))
        end.

Section WithDoubleFormat.
Variable to_string_double : Z → string.

Definition insertTuple (fuel : nat) (table_name : string) (tuple : Tuple) : M t bool :=
  on_table table_name false (Table.insertTuple to_string_double fuel tuple).

Definition selectAll (fuel : nat) (table_name : string) : M t (list Tuple) :=
  on_table table_name [] (Table.selectAll fuel).

End WithDoubleFormat.

End StorageEngine.

(** ** The transaction manager (transaction_manager.cpp) *)

Module TransactionManager.

Inductive TransactionState := ACTIVE | COMMITTED | ABORTED.

#[global] Instance TransactionState_eq_dec : EqDecision TransactionState.
Proof. solve_decision. Defined.

(* Transaction(id): ACTIVE, with an empty set of locked pages and an empty
   undo log; no member function of the manager writes to either *)
Record Transaction := mkTransaction {
  id : TransactionId;
  state : TransactionState;
  locked_pages : list PageId;
  undo_log : list (PageId * list byte)
}.

Definition newTransaction (id : TransactionId) : Transaction :=
  mkTransaction id ACTIVE [] [].

Definition set_state (st : TransactionState) (tx : Transaction) : Transaction :=
  mkTransaction (id tx) st (locked_pages tx) (undo_log tx).

(* log_file is opened for appending by the constructor; [log_is_open] says
   whether that worked, [log_file] holds the lines written since, oldest
   first *)
Record t := mkTransactionManager {
  transactions : gmap Z Transaction;
  next_transaction_id : TransactionId;
  lock_manager : LockManager.lock_table_t;
  log_is_open : bool;
  log_file : list string
}.

(* TransactionManager(log_file_path) *)
Definition init (log_is_open : bool) : t :=
  mkTransactionManager ∅ 1 ∅ log_is_open [].

Definition writeLogEntry (entry : string) (tm : t) : t :=
  if log_is_open tm
  then mkTransactionManager (transactions tm) (next_transaction_id tm)
                            (lock_manager tm) (log_is_open tm)
                            (log_file tm ++ [entry])
  else tm.

Definition beginTransaction : M t TransactionId :=
  λ tm,
    let transaction_id := next_transaction_id tm in
    let tm1 :=
      mkTransactionManager
        (<[transaction_id := newTransaction transaction_id]> (transactions tm))
        ((transaction_id + 1) mod 2 ^ 32)
        (lock_manager tm) (log_is_open tm) (log_file tm) in
    Ok transaction_id
       (writeLogEntry ("BEGIN " +:+ Table.to_string_int transaction_id) tm1).

Definition commitTransaction (transaction_id : TransactionId) : M t bool :=
  λ tm,
    match transactions tm !! transaction_id with
    | None => Ok false tm
    | Some transaction =>
        if decide (state transaction ≠ ACTIVE) then Ok false tm
        else
          match LockManager.releaseAllLocks (lock_manager tm) transaction_id with
          | inl e => Throw e tm
          | inr lt =>
              let tm1 :=
                mkTransactionManager
                  (<[transaction_id := set_state COMMITTED transaction]>
                     (transactions tm))
                  (next_transaction_id tm) lt (log_is_open tm) (log_file tm) in
              Ok true
                 (writeLogEntry
                    ("COMMIT " +:+ Table.to_string_int transaction_id) tm1)
          end
    end.

Definition abortTransaction (transaction_id : TransactionId) : M t bool :=
  λ tm,
    match transactions tm !! transaction_id with
    | None => Ok false tm
    | Some transaction =>
        if decide (state transaction ≠ ACTIVE) then Ok false tm
        else
          match LockManager.releaseAllLocks (lock_manager tm) transaction_id with
          | inl e => Throw e tm
          | inr lt =>
              let tm1 :=
                mkTransactionManager
                  (<[transaction_id := set_state ABORTED transaction]>
                     (transactions tm))
                  (next_transaction_id tm) lt (log_is_open tm) (log_file tm) in
              Ok true
                 (writeLogEntry
                    ("ABORT " +:+ Table.to_string_int transaction_id) tm1)
          end
    end.

Definition acquireLock (p : PageId) (lock_type : LockType)
    (transaction_id : TransactionId) : M t bool :=
  λ tm,
    let '(ok, lt) :=
      LockManager.acquireLock (lock_manager tm) p lock_type transaction_id in
    Ok ok (mkTransactionManager (transactions tm) (next_transaction_id tm) lt
                                (log_is_open tm) (log_file tm)).

Definition releaseLock (p : PageId) (transaction_id : TransactionId) : M t unit :=
  modify (λ tm,
    mkTransactionManager (transactions tm) (next_transaction_id tm)
      (LockManager.releaseLock (lock_manager tm) p transaction_id)
      (log_is_open tm) (log_file tm)).

(* checkpoint: writeCheckpoint, then a line on the console *)
Definition checkpoint : M t unit := modify (writeLogEntry "CHECKPOINT").

Definition isTransactionActive (tm : t) (transaction_id : TransactionId) : bool :=
  match transactions tm !! transaction_id with
  | Some transaction => bool_decide (state transaction = ACTIVE)
  | None => false
  end.

Definition getTransactionState (tm : t) (transaction_id : TransactionId)
    : TransactionState :=
  match transactions tm !! transaction_id with
  | Some transaction => state transaction
  | None => ABORTED
  end.

Definition getTransactionLocks (tm : t) (transaction_id : TransactionId)
    : list PageId :=
  LockManager.getLockedPages (lock_manager tm) transaction_id.

Definition getActiveTransactionCount (tm : t) : nat :=
  length (filter (λ entry, state entry.2 = ACTIVE) (map_to_list (transactions tm))).

(* every transaction is stored under its id, and the ids handed out so far
   lie below the counter: how the manager looks until the 32-bit counter
   wraps around *)
Definition ids_below_counter (tm : t) : Prop :=
  0 < next_transaction_id tm < 2 ^ 32 ∧
  ∀ i tx, transactions tm !! i = Some tx →
          id tx = i ∧ 0 < i < next_transaction_id tm.

End TransactionManager.

Module DatabaseEngine.

Section WithDoubleFormat.
Variable to_string_double : Z → string.

(* insertTuple(table_name, values). [Tuple tuple;] leaves tuple.id without
   an initial value; [indeterminate_id] is the value it happens to have. *)
Definition insertTuple (fuel : nat) (indeterminate_id : Z) (table_name : string)
    (values : list Value) : M StorageEngine.t bool :=
  StorageEngine.insertTuple to_string_double fuel table_name
    (mkTuple indeterminate_id values).

Definition selectAll (fuel : nat) (table_name : string)
    : M StorageEngine.t (list Tuple) :=
  StorageEngine.selectAll fuel table_name.

End WithDoubleFormat.

Record t := mkDatabaseEngine {
  storage_engine : StorageEngine.t;
  transaction_manager : TransactionManager.t;
  current_transaction_id : TransactionId;
  in_transaction : bool
}.

Definition beginTransaction : M t bool :=
  λ e,
    if in_transaction e then Ok false e
    else
      match TransactionManager.beginTransaction (transaction_manager e) with
      | Ok transaction_id tm => Ok true (mkDatabaseEngine (storage_engine e) tm transaction_id true)
      | Throw x tm =>
          Throw x (mkDatabaseEngine (storage_engine e) tm
                                    (current_transaction_id e) (in_transaction e))
      end.

Definition commitTransaction : M t bool :=
  λ e,
    if negb (in_transaction e) then Ok false e
    else
      match TransactionManager.commitTransaction (current_transaction_id e)
                                                 (transaction_manager e) with
      | Ok success tm =>
          if success
          then Ok true (mkDatabaseEngine (storage_engine e) tm 0 false)
          else Ok false (mkDatabaseEngine (storage_engine e) tm
                                          (current_transaction_id e) (in_transaction e))
      | Throw x tm =>
          Throw x (mkDatabaseEngine (storage_engine e) tm
                                    (current_transaction_id e) (in_transaction e))
      end.

Definition rollbackTransaction : M t bool :=
  λ e,
    if negb (in_transaction e) then Ok false e
    else
      match TransactionManager.abortTransaction (current_transaction_id e)
                                                (transaction_manager e) with
      | Ok success tm =>
          if success
          then Ok true (mkDatabaseEngine (storage_engine e) tm 0 false)
          else Ok false (mkDatabaseEngine (storage_engine e) tm
                                          (current_transaction_id e) (in_transaction e))
      | Throw x tm =>
          Throw x (mkDatabaseEngine (storage_engine e) tm
                                    (current_transaction_id e) (in_transaction e))
      end.

(** *** The metadata file (saveTableMetadata, loadTableMetadata) *)

(* static_cast<int>(DataType): the enumerators in their order *)
Definition DataType_tag (ty : DataType) : Z :=
  match ty with INTEGER => 0 | VARCHAR => 1 | BOOLEAN => 2 | DOUBLE => 3 end.

(* a uint32_t length followed by that many bytes of the string *)
Definition write_string (str : string) : list byte :=
  let length := Z.of_nat (String.length str) mod 2 ^ 32 in
  le_bytes 4 length ++ take (Z.to_nat length) (String.list_byte_of_string str).

(* name, type and the low four bytes of the size_t size *)
Definition write_column (column : Column) : list byte :=
  write_string (Types.name column) ++ le_bytes 4 (DataType_tag (type column))
    ++ le_bytes 4 (size column).

Definition write_table (table_name : string) (schema : Schema) : list byte :=
  write_string table_name
    ++ le_bytes 4 (Z.of_nat (length (columns schema)) mod 2 ^ 32)
    ++ concat (map write_column (columns schema)).

(* the bytes that saveTableMetadata writes for the tables in the order in
   which getTableNames lists them *)
Definition write_metadata (tables : list (string * Schema)) : list byte :=
  le_bytes 4 (Z.of_nat (length tables) mod 2 ^ 32)
    ++ concat (map (λ entry, write_table entry.1 entry.2) tables).

(* getTableNames walks the unordered_map; the walk of the gmap stands for
   its order *)
Definition table_schemas (se : StorageEngine.t) : list (string * Schema) :=
  (λ entry, (entry.1, Table.schema entry.2)) <$> map_to_list (StorageEngine.tables se).

Definition saveTableMetadata (se : StorageEngine.t) : list byte :=
  write_metadata (table_schemas se).

(* metadata_file.read(dst, n) on what is left of the file: the bytes read
   and the rest, or nothing when fewer than n bytes are left (the stream
   fails, and every later read fails with it) *)
Definition stream_read (s : list byte) (n : nat) : option (list byte * list byte) :=
  if decide (n <= length s)%nat then Some (take n s, drop n s) else None.

Definition read_uint32 (s : list byte) : option (Z * list byte) :=
  match stream_read s 4 with
  | Some (bs, rest) => Some (le_value bs, rest)
  | None => None
  end.

Definition read_string (s : list byte) : option (string * list byte) :=
  match read_uint32 s with
  | Some (length, s1) =>
      match stream_read s1 (Z.to_nat length) with
      | Some (bs, rest) => Some (String.string_of_list_byte bs, rest)
      | None => None
      end
  | None => None
  end.

(* a column as it is read: its name, the int read into DataType, and the
   uint32_t size *)
Definition RawColumn : Type := string * Z * Z.

Definition read_column (s : list byte) : option (RawColumn * list byte) :=
  match read_string s with
  | Some (col_name, s1) =>
      match read_uint32 s1 with
      | Some (col_type, s2) =>
          match read_uint32 s2 with
          | Some (col_size, rest) => Some ((col_name, col_type, col_size), rest)
          | None => None
          end
      | None => None
      end
  | None => None
  end.

(* the inner loop: the columns read before the count is reached or a read
   fails, and the rest of the stream unless a read failed *)
Fixpoint read_columns (column_count : nat) (s : list byte)
    : list RawColumn * option (list byte) :=
  match column_count with
  | O => ([], Some s)
  | S column_count' =>
      match read_column s with
      | Some (column, s') =>
          let '(columns, rest) := read_columns column_count' s' in
          (column :: columns, rest)
      | None => ([], None)
      end
  end.

(* the outer loop: the createTable calls made. A failure in the header of a
   table ends the loop; a failure inside the column loop still creates the
   table with the columns read so far, and the next round ends the loop. *)
Fixpoint read_tables (table_count : nat) (s : list byte)
    : list (string * list RawColumn) :=
  match table_count with
  | O => []
  | S table_count' =>
      match read_string s with
      | Some (table_name, s1) =>
          match read_uint32 s1 with
          | Some (column_count, s2) =>
              let '(columns, rest) := read_columns (Z.to_nat column_count) s2 in
              (table_name, columns) ::
                match rest with
                | Some s3 => read_tables table_count' s3
                | None => []
                end
          | None => []
          end
      | None => []
      end
  end.

(* loadTableMetadata, over the bytes of the metadata file ([None]: the file
   cannot be opened): the tables it creates, in order *)
Definition loadTableMetadata (metadata_file : option (list byte))
    : list (string * list RawColumn) :=
  match metadata_file with
  | None => []
  | Some s =>
      match read_uint32 s with
      | Some (table_count, s1) => read_tables (Z.to_nat table_count) s1
      | None => []
      end
  end.

Definition raw_column (column : Column) : RawColumn :=
  (Types.name column, DataType_tag (type column), size column).

Definition raw_schema (schema : Schema) : list RawColumn :=
  raw_column <$> columns schema.

(* names and column counts fit the uint32_t length fields, sizes the
   uint32_t they are stored in *)
Definition column_fits (column : Column) : Prop :=
  Z.of_nat (String.length (Types.name column)) < 2 ^ 32 ∧ 0 <= size column < 2 ^ 32.

Definition table_fits (entry : string * Schema) : Prop :=
  Z.of_nat (String.length entry.1) < 2 ^ 32 ∧
  Z.of_nat (length (columns entry.2)) < 2 ^ 32 ∧
  Forall column_fits (columns entry.2).

(* DatabaseEngine(db_file_path), before loadTableMetadata: no table, no
   transaction *)
Definition new_engine : t :=
  mkDatabaseEngine (StorageEngine.mkStorageEngine ∅) (TransactionManager.init true)
                   0 false.

(* a storage engine with the one table pairs(a INTEGER, b INTEGER) *)
Definition pairs_engine : StorageEngine.t :=
  StorageEngine.mkStorageEngine
    {[ "pairs" := final_state
         (Table.create 100 4 "pairs"
            (mkSchema [mkColumn "a" INTEGER 0; mkColumn "b" INTEGER 0]) []) ]}.

End DatabaseEngine.

(** ** Scenarios *)

Module Scenarios.

Fixpoint string_of_length (n : nat) : string :=
  match n with
  | O => EmptyString
  | S n' => String (Ascii.ascii_of_nat 120) (string_of_length n')
  end.

(* a table with one VARCHAR column and rows that carry 1000 bytes each *)
Definition blob_schema : Schema := mkSchema [mkColumn "payload" VARCHAR 1000].
Definition blob_row : Tuple := mkTuple 0 [VString (string_of_length 1000)].
Definition oversize_row : Tuple := mkTuple 0 [VString (string_of_length 5000)].

Section WithDoubleFormat.
Variable to_string_double : Z → string.

(* insert the same row n times; the answers of the calls *)
Fixpoint insert_rows (n : nat) (row : Tuple) : M Table.t (list bool) :=
  match n with
  | O => mret []
  | S n' =>
      ok ← Table.insertTuple to_string_double 100 row;
      oks ← insert_rows n' row;
      mret (ok :: oks)
  end.

(* a new table in a pool of [frames] frames, then n rows of 1000 bytes *)
Definition blob_table (frames n : nat) : outcome Table.t (list bool) :=
  bind (Table.create 100 frames "blobs" blob_schema [])
       (fun _ => insert_rows n blob_row).

(* what the table looks like after the inserts *)
Record report := mkReport {
  answers : list bool;           (* what the insertTuple calls returned *)
  tuple_ids_issued : Z;          (* next_tuple_id - 1 *)
  pages_allocated : Z;           (* next_page_id - 1 *)
  chain : list Z;                (* the pages linked from first_page_id *)
  scanned_ids : option (list Z); (* the tuple ids that selectAll returns *)
  scanned_sizes : option (list nat); (* the length of the payload of each *)
  counted : option Z;            (* what getTupleCount returns *)
  pinned : list Z                (* the chain pages whose frame is pinned *)
}.

Definition payload_length (tuple : Tuple) : nat :=
  match values tuple with
  | [VString str] => String.length str
  | _ => O
  end.

Definition report_of (tb : Table.t) (oks : list bool) : report :=
  let bp := Table.buffer_pool tb in
  let pages := Table.chain_from 100 bp (Table.first_page_id tb) in
  let rows := returned (Table.selectAll 100 tb) in
  mkReport oks (Table.next_tuple_id tb - 1) (Table.next_page_id tb - 1) pages
           (option_map (map id) rows) (option_map (map payload_length) rows)
           (returned (Table.getTupleCount 100 tb))
           (filter (fun p => Table.is_pinned_page bp p = true) pages).

Definition blob_report (frames n : nat) : option report :=
  match blob_table frames n with
  | Ok oks tb => Some (report_of tb oks)
  | Throw _ _ => None
  end.

(* after n rows: the number of pinned frames, then what one more insert
   raises and the number of pinned frames after it *)
Definition one_more_insert (frames n : nat) : option (nat * option exn * nat) :=
  match blob_table frames n with
  | Ok _ tb =>
      let r := Table.insertTuple to_string_double 100 blob_row tb in
      Some (BufferPool.pinned_count (Table.buffer_pool tb), raised r,
            BufferPool.pinned_count (Table.buffer_pool (final_state r)))
  | Throw _ _ => None
  end.

(* the pages at the head of the chain that have no room for [sz] bytes:
   the pages that the walk of insertTuple visits and advances past *)
Fixpoint advanced_past (bp : BufferPool.t) (pages : list Z) (sz : Z) : list Z :=
  match pages with
  | [] => []
  | p :: pages' =>
      match Table.resident_header bp p with
      | Some h => if decide (sz > Table.free_space h)
                  then p :: advanced_past bp pages' sz else []
      | None => []
      end
  end.

(* one more insert after n rows: the pages its walk advances past, its
   answer, and the pin flags of those pages when it has returned *)
Definition walk_of_next_insert (frames n : nat)
    : option (list Z * bool * list bool) :=
  match blob_table frames n with
  | Ok _ tb =>
      let bp := Table.buffer_pool tb in
      let visited :=
        advanced_past bp (Table.chain_from 100 bp (Table.first_page_id tb)) 1020 in
      match Table.insertTuple to_string_double 100 blob_row tb with
      | Ok ok tb' =>
          Some (visited, ok, Table.is_pinned_page (Table.buffer_pool tb') <$> visited)
      | Throw _ _ => None
      end
  | Throw _ _ => None
  end.

(* "every visited page's frame remains pinned after the operation returns" *)
Definition visited_pages_stay_pinned (frames n : nat) : Prop :=
  ∀ visited ok pins,
    walk_of_next_insert frames n = Some (visited, ok, pins) →
    Forall (λ b : bool, b = true) pins.

(* a new database with the table pairs(a INTEGER, b INTEGER) *)
Definition pairs_schema : Schema :=
  mkSchema [mkColumn "a" INTEGER 0; mkColumn "b" INTEGER 0].

Definition pairs_db : outcome StorageEngine.t bool :=
  StorageEngine.createTable 100 BUFFER_POOL_SIZE "pairs" pairs_schema []
    (StorageEngine.mkStorageEngine ∅).

(* one value, a string of 5000 bytes: 5004 bytes as a field, 5020 as a
   tuple *)
Definition oversize_values : list Value := [VString (string_of_length 5000)].

(* insertTuple("pairs", oversize_values) on the new database *)
Definition oversize_into_pairs : outcome StorageEngine.t bool :=
  bind pairs_db (fun _ =>
    DatabaseEngine.insertTuple to_string_double 100 0 "pairs" oversize_values).

(* scan, insert the value list, scan again *)
Definition scan_insert_scan (values : list Value)
    : option (list Tuple * bool * list Tuple) :=
  returned
    (bind pairs_db (fun _ =>
       before ← DatabaseEngine.selectAll 100 "pairs";
       ok ← DatabaseEngine.insertTuple to_string_double 100 0 "pairs" values;
       after ← DatabaseEngine.selectAll 100 "pairs";
       mret (before, ok, after))).

End WithDoubleFormat.

(* a stand-in for std::to_string(double); no scenario has a DOUBLE key *)
Definition plain_format : Z → string := λ _, "0.000000".

(* nine rows of 1000 bytes in a pool of 8 frames: the chain is page 1 and
   page 3, both full *)
Definition two_page_table : Table.t := final_state (blob_table plain_format 8 9).

Definition two_page_chain : list (Z * list byte) :=
  default [] (Table.checked_chain 100 two_page_table).

(* two users of the same name, then an index on the name *)
Definition indexed_users : Table.t :=
  final_state
    (bind (Table.create 100 4 "users" Codec.users_schema [])
       (fun _ =>
          Table.insert_each plain_format 100 [values Codec.alice; values Codec.alice];;
          Table.createIndex plain_format 100 "name")).

End Scenarios.

(** * Properties *)

Module CodecFacts.
Import Codec.

Lemma Z_of_byte_of_Z z : Z_of_byte (byte_of_Z z) = z mod 256.
Proof.
  unfold Z_of_byte, byte_of_Z.
  pose proof (Z.mod_pos_bound z 256 ltac:(lia)) as Hb.
  destruct (Byte.of_N (Z.to_N (z mod 256))) as [b|] eqn:Hof; simpl.
  - apply Byte.to_of_N in Hof. rewrite Hof. lia.
  - apply Byte.of_N_None_iff in Hof. lia.
Qed.

Lemma Z_of_byte_range b : 0 <= Z_of_byte b < 256.
Proof. unfold Z_of_byte. pose proof (Byte.to_N_bounded b). lia. Qed.

Lemma length_le_bytes n v : length (le_bytes n v) = n.
Proof. revert v. induction n as [|n IH]; intros v; simpl; [done|]. by rewrite IH. Qed.

Lemma le_value_le_bytes n v : le_value (le_bytes n v) = v mod 256 ^ Z.of_nat n.
Proof.
  revert v. induction n as [|n IH]; intros v.
  - simpl. by rewrite Z.mod_1_r.
  - cbn [le_bytes le_value]. rewrite Z_of_byte_of_Z, IH.
    rewrite Nat2Z.inj_succ, Z.pow_succ_r by lia.
    rewrite (Z.rem_mul_r v 256 (256 ^ Z.of_nat n)) by lia. done.
Qed.

Lemma le_value_range bs : 0 <= le_value bs < 256 ^ Z.of_nat (length bs).
Proof.
  induction bs as [|b bs IH].
  - simpl. lia.
  - cbn [le_value length]. rewrite Nat2Z.inj_succ, Z.pow_succ_r by lia.
    pose proof (Z_of_byte_range b). lia.
Qed.

#[local] Opaque le_bytes le_value.

Lemma read_bytes_app (pre bs post : list byte) :
  read_bytes (pre ++ bs ++ post) (length pre) (length bs) = Some bs.
Proof.
  unfold read_bytes. rewrite decide_True by (rewrite !length_app; lia).
  rewrite drop_app_length. by rewrite take_app_length.
Qed.

Lemma write_bytes_app (pre old post bs : list byte) :
  length old = length bs →
  write_bytes (pre ++ old ++ post) (length pre) bs = Some (pre ++ bs ++ post).
Proof.
  intros Hlen. unfold write_bytes.
  rewrite decide_True by (rewrite !length_app; lia).
  rewrite take_app_length. rewrite <-Hlen, <-length_app, (app_assoc pre old post).
  by rewrite drop_app_length.
Qed.

(* a buffer split at an offset and a length that fit *)
Lemma split_buffer (buf : list byte) (off n : nat) :
  (off + n <= length buf)%nat →
  ∃ pre old post, buf = pre ++ old ++ post ∧ length pre = off ∧ length old = n.
Proof.
  intros Hfit. exists (take off buf), (take n (drop off buf)), (drop n (drop off buf)).
  rewrite !take_drop. rewrite length_take, length_take, length_drop. split; [done|]. lia.
Qed.

Lemma length_encode_values_cons v vs :
  length (encode_values (v :: vs)) = (length (encode_value v) + length (encode_values vs))%nat.
Proof. unfold encode_values. simpl. by rewrite length_app. Qed.

Lemma write_values_app vs (pre old post : list byte) :
  length old = length (encode_values vs) →
  write_values vs (pre ++ old ++ post) (length pre)
    = inr (pre ++ encode_values vs ++ post,
           (length pre + length (encode_values vs))%nat).
Proof.
  revert pre old. induction vs as [|v vs IH]; intros pre old Hlen.
  - simpl in *. apply nil_length_inv in Hlen as ->. simpl. by rewrite Nat.add_0_r.
  - rewrite length_encode_values_cons in Hlen. cbn [write_values].
    rewrite <-(take_drop (length (encode_value v)) old), <-(app_assoc (take _ old)).
    rewrite write_bytes_app by (rewrite length_take; lia). simpl.
    replace (length pre + length (encode_value v))%nat
      with (length (pre ++ encode_value v)) by (by rewrite length_app).
    rewrite (app_assoc pre (encode_value v)).
    rewrite IH by (rewrite length_drop; lia).
    rewrite length_encode_values_cons, !length_app.
    unfold encode_values. simpl. rewrite <-!app_assoc. f_equal. f_equal. lia.
Qed.

Lemma read_value_encode v (pre post : list byte) :
  value_in_range v →
  read_value (type_of v) (pre ++ encode_value v ++ post) (length pre)
    = inr (v, (length pre + length (encode_value v))%nat).
Proof.
  intros Hr. destruct v as [z|str|b|bits]; simpl in *.
  - pose proof (read_bytes_app pre (le_bytes 4 z) post) as Hrd.
    rewrite length_le_bytes in Hrd. rewrite Hrd. simpl.
    rewrite le_value_le_bytes, length_le_bytes. do 3 f_equal.
    unfold to_int32. change (256 ^ Z.of_nat 4) with (2 ^ 32).
    destruct (decide (0 <= z)) as [Hz|Hz].
    + rewrite Z.mod_small by lia. rewrite decide_True by lia. done.
    + replace (z mod 2 ^ 32) with (z + 2 ^ 32).
      * rewrite decide_False by lia. lia.
      * apply (Z.mod_unique _ _ (-1)); lia.
  - rewrite Z.mod_small by lia. rewrite Nat2Z.id.
    assert (length (String.list_byte_of_string str) = String.length str) as Hlen.
    { clear. unfold String.list_byte_of_string. rewrite length_map.
      induction str as [|a str IH]; simpl; [done|]. by rewrite IH. }
    rewrite firstn_all2 by lia.
    rewrite <-app_assoc.
    pose proof (read_bytes_app pre (le_bytes 4 (Z.of_nat (String.length str)))
                  (String.list_byte_of_string str ++ post)) as Hrd.
    rewrite length_le_bytes in Hrd. rewrite Hrd. simpl.
    rewrite le_value_le_bytes. change (256 ^ Z.of_nat 4) with (2 ^ 32).
    rewrite Z.mod_small by lia. rewrite Nat2Z.id.
    pose proof (read_bytes_app (pre ++ le_bytes 4 (Z.of_nat (String.length str)))
                  (String.list_byte_of_string str) post) as Hrd2.
    rewrite length_app, length_le_bytes, Hlen, <-app_assoc in Hrd2. rewrite Hrd2. simpl.
    rewrite String.string_of_list_byte_of_string.
    rewrite length_app, length_le_bytes, Hlen. do 2 f_equal. lia.
  - pose proof (read_bytes_app pre [if b then x01 else x00] post) as Hrd.
    simpl in Hrd. rewrite Hrd. simpl. by destruct b.
  - pose proof (read_bytes_app pre (le_bytes 8 bits) post) as Hrd.
    rewrite length_le_bytes in Hrd. rewrite Hrd. simpl.
    rewrite le_value_le_bytes, length_le_bytes.
    change (256 ^ Z.of_nat 8) with (2 ^ 64). by rewrite Z.mod_small by lia.
Qed.

Lemma read_values_encode cols vs (pre post : list byte) :
  Forall2 (fun col v => type col = type_of v) cols vs →
  Forall value_in_range vs →
  read_values cols (pre ++ encode_values vs ++ post) (length pre) = inr vs.
Proof.
  intros Hconf. revert pre. induction Hconf as [|col v cols vs Hty _ IH]; intros pre Hr.
  - done.
  - apply Forall_cons in Hr as [Hv Hr]. cbn [read_values].
    unfold encode_values. simpl. rewrite <-app_assoc, Hty.
    rewrite read_value_encode by done. simpl.
    replace (length pre + length (encode_value v))%nat
      with (length (pre ++ encode_value v)) by (by rewrite length_app).
    rewrite (app_assoc pre). fold (encode_values vs). by rewrite IH.
Qed.

Lemma fields_size_conforming cols vs :
  Forall2 (fun col v => type col = type_of v) cols vs →
  Forall value_in_range vs →
  fields_size cols vs = inr (length (encode_values vs)).
Proof.
  intros Hconf. induction Hconf as [|col v cols vs Hty _ IH]; intros Hr; [done|].
  apply Forall_cons in Hr as [Hv Hr]. cbn [fields_size].
  rewrite Hty, (IH Hr), length_encode_values_cons.
  destruct v as [z|str|b|bits]; simpl in *; rewrite ?length_le_bytes; try done.
  rewrite Z.mod_small by lia. rewrite Nat2Z.id, length_app, length_le_bytes.
  rewrite firstn_all2; [|unfold String.list_byte_of_string; rewrite length_map].
  - do 2 f_equal. unfold String.list_byte_of_string. rewrite length_map.
    clear. induction str as [|a str IH]; simpl; [done|]. by rewrite IH.
  - clear. induction str as [|a str IH]; simpl; [done|]. lia.
Qed.

(** C5. For a tuple whose value list has the schema's length and types
    (every scalar a value of its C++ type), the size that [getTupleSize]
    computes is defined, and in any buffer that has that many bytes from
    the offset on, [serializeTuple] writes exactly that many bytes and
    [deserializeTuple] at the same offset reads the tuple back, tuple id
    included. *)
Theorem serialize_deserialize_roundtrip schema tuple buf offset :
  conforms schema tuple → tuple_in_range tuple →
  ∃ sz, getTupleSize schema tuple = inr sz ∧
        ((offset + sz <= length buf)%nat →
         ∃ buf', serializeTuple schema tuple buf offset = inr (buf', sz) ∧
                 length buf' = length buf ∧
                 deserializeTuple schema buf' offset = inr tuple).
Proof.
  intros Hconf [Hid Hr]. unfold serializeTuple, getTupleSize.
  rewrite (fields_size_conforming _ _ Hconf Hr). cbn [res_bind].
  eexists. split; [done|]. intros Hfit.
  destruct (split_buffer buf offset _ Hfit) as (pre & old & post & -> & Hpre & Hold).
  set (n := length (encode_values (values tuple))) in *.
  set (h := mkTupleHeader _ _ _).
  assert (length (encode_tuple_header h) = 16%nat) as Hh.
  { unfold encode_tuple_header. by rewrite !length_app, !length_le_bytes. }
  change TUPLE_HEADER_SIZE with 16%nat in *.
  rewrite <-(take_drop 16 old), <-(app_assoc (take 16 old)), <-Hpre.
  rewrite write_bytes_app by (rewrite length_take; lia). cbn [of_option res_bind].
  replace (length pre + 16)%nat
    with (length (pre ++ encode_tuple_header h)) by (by rewrite length_app, Hh).
  rewrite (app_assoc pre (encode_tuple_header h)).
  rewrite write_values_app by (rewrite length_drop; fold n; lia).
  cbn [of_option res_bind].
  eexists. split; [|split].
  - do 2 f_equal. rewrite length_app, Hh. fold n. lia.
  - rewrite !length_app, Hh, length_take, length_drop. fold n. lia.
  - unfold deserializeTuple, read_tuple_header.
    rewrite <-(app_assoc pre).
    pose proof (read_bytes_app pre (encode_tuple_header h)
                  (encode_values (values tuple) ++ post)) as Hrd.
    rewrite Hh in Hrd. change TUPLE_HEADER_SIZE with 16%nat. rewrite Hrd.
    cbn [of_option res_bind].
    replace (length pre + 16)%nat
      with (length (pre ++ encode_tuple_header h)) by (by rewrite length_app, Hh).
    rewrite (app_assoc pre (encode_tuple_header h)).
    rewrite (read_values_encode _ _ _ _ Hconf Hr). cbn [res_bind].
    unfold encode_tuple_header. cbn [tuple_id].
    rewrite app_assoc.
    rewrite drop_app_length' by (by rewrite length_app, !length_le_bytes).
    rewrite le_value_le_bytes. change (256 ^ Z.of_nat 8) with (2 ^ 64).
    rewrite Z.mod_small by done. by destruct tuple.
Qed.

Lemma serialize_deserialize_roundtrip_witness :
  ∃ buf', serializeTuple users_schema alice zero_page 16 = inr (buf', 42%nat) ∧
          length buf' = length zero_page ∧
          deserializeTuple users_schema buf' 16 = inr alice.
Proof.
  destruct (serialize_deserialize_roundtrip users_schema alice zero_page 16)
    as (sz & Hsz & Hrt).
  - repeat constructor.
  - split; [simpl; lia|]. repeat constructor; simpl; lia.
  - vm_compute in Hsz. inversion Hsz; subst sz. apply Hrt.
    unfold zero_page. rewrite length_replicate. unfold PAGE_SIZE. lia.
Defined.

End CodecFacts.

Module BTreeFacts.
Import BTree.

Lemma key_lt_irrefl a : key_lt a a = false.
Proof.
  unfold key_lt, String.ltb.
  pose proof (String.compare_antisym a a) as H.
  destruct (String.compare a a); done.
Qed.

Lemma key_lt_trans a b c : key_lt a b = true → key_lt b c = true → key_lt a c = true.
Proof.
  unfold key_lt, String.ltb. intros Hab Hbc.
  assert (String.compare a b = Lt) as Hab' by (by destruct (String.compare a b)).
  assert (String.compare b c = Lt) as Hbc' by (by destruct (String.compare b c)).
  apply OrderedTypeEx.String_as_OT.cmp_lt in Hab', Hbc'.
  pose proof (OrderedTypeEx.String_as_OT.lt_trans _ _ _ Hab' Hbc') as Hac.
  apply OrderedTypeEx.String_as_OT.cmp_lt in Hac.
  unfold OrderedTypeEx.String_as_OT.cmp in Hac. by rewrite Hac.
Qed.

Lemma key_lt_total a b : key_lt a b = false → key_lt b a = false → a = b.
Proof.
  unfold key_lt, String.ltb. rewrite (String.compare_antisym b a).
  destruct (String.compare a b) eqn:Hc; simpl; try done.
  intros _ _. by apply String.compare_eq_iff.
Qed.

Lemma key_le_trans a b c : key_le a b → key_le b c → key_le a c.
Proof.
  unfold key_le. intros Hab Hbc.
  destruct (key_lt c a) eqn:Hca; [|done].
  destruct (key_lt a b) eqn:Hab'.
  - by rewrite (key_lt_trans c a b) in Hbc.
  - rewrite (key_lt_total a b) in Hca by done. congruence.
Qed.

Lemma key_eq_spec a b : key_eq a b = true ↔ a = b.
Proof. apply String.eqb_eq. Qed.

(* Where the loop of insertNonFull stops: every key to the right of the
   position is greater than the new key; in a sorted vector every key to
   its left is less than or equal to it. *)
Lemma insert_index_le key ks : (insert_index key ks <= length ks)%nat.
Proof.
  unfold insert_index. rewrite <-(length_reverse ks).
  induction (reverse ks) as [|k r IH]; simpl; [done|].
  destruct (key_lt key k); lia.
Qed.

Lemma insert_index_right key ks k :
  k ∈ drop (insert_index key ks) ks → key_lt key k = true.
Proof.
  unfold insert_index. induction ks as [|k0 ks IH] using rev_ind.
  - simpl. by intros ?%elem_of_nil.
  - rewrite reverse_snoc. simpl. destruct (key_lt key k0) eqn:Hlt.
    + pose proof (insert_index_le key ks) as Hle. unfold insert_index in Hle.
      rewrite drop_app_le by done.
      intros [Hin| ->%list_elem_of_singleton]%elem_of_app; [by apply IH|done].
    + rewrite length_reverse.
      replace (S (length ks)) with (length (ks ++ [k0])) by (rewrite length_app; simpl; lia).
      rewrite drop_all. by intros ?%elem_of_nil.
Qed.

Lemma insert_index_left key ks k :
  StronglySorted key_le ks →
  k ∈ take (insert_index key ks) ks → key_le k key.
Proof.
  unfold insert_index. induction ks as [|k0 ks IH] using rev_ind; intros Hs.
  - simpl. by intros ?%elem_of_nil.
  - apply StronglySorted_app in Hs as (Hord & Hs1 & _).
    rewrite reverse_snoc. simpl. destruct (key_lt key k0) eqn:Hlt.
    + pose proof (insert_index_le key ks) as Hle. unfold insert_index in Hle.
      rewrite take_app_le by done. by apply IH.
    + rewrite length_reverse.
      replace (S (length ks)) with (length (ks ++ [k0])) by (rewrite length_app; simpl; lia).
      rewrite firstn_all.
      intros [Hin| ->%list_elem_of_singleton]%elem_of_app; [|done].
      apply (key_le_trans _ k0); [|done]. apply Hord; [done|]. by left.
Qed.

Lemma filter_none {A} (P : A → Prop) `{!∀ x, Decision (P x)} (l : list A) :
  (∀ x, x ∈ l → ¬ P x) → filter P l = [].
Proof.
  induction l as [|x l IH]; intros Hno; [done|].
  rewrite filter_cons_False by (apply Hno; by left).
  apply IH. intros y Hy. apply Hno. by right.
Qed.

(* The search loop on a sorted leaf finds the leftmost entry of the key. *)
Lemma search_leaf entries key :
  StronglySorted key_le entries.*1 →
  searchRecursive (Node entries.*1 entries.*2 [] true) key
    = inr (snd <$> head (filter (fun row => row.1 = key) entries)).
Proof.
  intros Hs. cbn [searchRecursive].
  induction entries as [|[k v] entries IH]; [done|].
  simpl in Hs. apply StronglySorted_cons in Hs as [Hall Hs].
  cbn [fmap list_fmap fst snd search_index].
  destruct (key_gt key k) eqn:Hgt.
  - rewrite filter_cons_False.
    2:{ simpl. intros ->. unfold key_gt in Hgt. by rewrite key_lt_irrefl in Hgt. }
    exact (IH Hs).
  - cbn [lookup list_lookup at_index].
    destruct (key_eq key k) eqn:Heq.
    + apply key_eq_spec in Heq as ->. by rewrite filter_cons_True.
    + rewrite filter_cons_False.
      2:{ simpl. intros ->. assert (key_eq key key = true) by (by apply key_eq_spec).
          congruence. }
      assert (key_lt key k = true) as Hlt.
      { destruct (key_lt key k) eqn:Hlt; [done|].
        rewrite (key_lt_total key k) in Heq by done.
        assert (key_eq k k = true) by (by apply key_eq_spec). congruence. }
      rewrite filter_none; [done|].
      intros [k' v'] Hin Hk. simpl in Hk. subst k'.
      rewrite Forall_forall in Hall.
      assert (key_le k key) as Hle.
      { apply Hall. apply list_elem_of_fmap. by exists (key, v'). }
      unfold key_le in Hle. congruence.
Qed.

Lemma key_lt_le a b : key_lt a b = true → key_le a b.
Proof.
  intros Hab. unfold key_le. destruct (key_lt b a) eqn:Hba; [|done].
  pose proof (key_lt_trans _ _ _ Hab Hba) as Haa. by rewrite key_lt_irrefl in Haa.
Qed.

(* One insertion into a root that is a leaf with room: the entry goes in
   after every entry whose key is not greater. *)
Lemma insert_leaf node entries key value :
  leaf_root node entries → (length entries < MAX_KEYS)%nat →
  ∃ node' entries',
    insert node key value = inr node' ∧ leaf_root node' entries' ∧
    length entries' = S (length entries) ∧
    ∀ k, filter (fun row => row.1 = k) entries'
         = filter (fun row => row.1 = k) entries
           ++ filter (fun row => row.1 = k) [(key, value)].
Proof.
  intros [-> Hs] Hlen.
  set (i := insert_index key entries.*1).
  assert (i <= length entries)%nat as Hi.
  { pose proof (insert_index_le key entries.*1) as Hle. by rewrite length_fmap in Hle. }
  exists (Node (take i entries.*1 ++ key :: drop i entries.*1)
               (take i entries.*2 ++ value :: drop i entries.*2) [] true),
         (take i entries ++ (key, value) :: drop i entries).
  split_and!.
  - unfold insert, isFull. cbn [keys]. rewrite length_fmap.
    rewrite bool_decide_eq_false_2 by lia. cbn [res_bind insertNonFull is_leaf keys].
    fold i. unfold vector_insert. cbn [values children].
    rewrite !decide_True by (rewrite length_fmap; lia). done.
  - split.
    + by rewrite !fmap_app, !fmap_cons, !fmap_take, !fmap_drop.
    + rewrite fmap_app, fmap_cons, fmap_take, fmap_drop. cbn [fst].
      rewrite <-(take_drop i entries.*1) in Hs.
      apply StronglySorted_app in Hs as (Hcross & Hs1 & Hs2).
      apply StronglySorted_app. split_and!; [|done|].
      * intros x1 x2 Hx1 [->|Hx2]%elem_of_cons; [|by apply Hcross].
        apply (insert_index_left key entries.*1); [|done].
        rewrite <-(take_drop i entries.*1). by apply StronglySorted_app.
      * apply StronglySorted_cons. split; [|done].
        apply Forall_forall. intros k Hk. apply key_lt_le.
        by apply (insert_index_right key entries.*1).
  - rewrite length_app. simpl. rewrite length_take, length_drop. lia.
  - intros k. rewrite filter_app, !filter_cons, filter_nil.
    assert (filter (fun row => row.1 = k) entries
            = filter (fun row => row.1 = k) (take i entries)
              ++ filter (fun row => row.1 = k) (drop i entries)) as ->.
    { by rewrite <-filter_app, take_drop. }
    destruct (decide ((key, value).1 = k)) as [Hk|Hk].
    + simpl in Hk. subst k.
      rewrite (filter_none _ (drop i entries)); [by rewrite !app_nil_r|].
      intros [k' v'] Hin Heq. simpl in Heq. subst k'.
      assert (key_lt key key = true) as Hlt.
      { apply (insert_index_right key entries.*1). fold i. rewrite <-fmap_drop.
        apply list_elem_of_fmap. by exists (key, v'). }
      by rewrite key_lt_irrefl in Hlt.
    + by rewrite app_nil_r.
Qed.

Lemma insert_all_leaf rows : ∀ node entries done,
  leaf_root node entries →
  (∀ k, filter (fun row => row.1 = k) entries = filter (fun row => row.1 = k) done) →
  (length entries + length rows <= MAX_KEYS)%nat →
  ∃ node' entries',
    insert_all node rows = inr node' ∧ leaf_root node' entries' ∧
    ∀ k, filter (fun row => row.1 = k) entries'
         = filter (fun row => row.1 = k) (done ++ rows).
Proof.
  induction rows as [|[key value] rows IH]; intros node entries done Hleaf Hf Hlen.
  - exists node, entries. split_and!; [done..|]. intros k. by rewrite app_nil_r.
  - simpl in Hlen.
    destruct (insert_leaf node entries key value Hleaf ltac:(lia))
      as (node1 & entries1 & Hins & Hleaf1 & Hlen1 & Hf1).
    destruct (IH node1 entries1 (done ++ [(key, value)]) Hleaf1) as (node' & entries' & Hall & Hleaf' & Hf').
    + intros k. by rewrite Hf1, filter_app, Hf.
    + lia.
    + exists node', entries'. split_and!; [|done|].
      * cbn [insert_all]. by rewrite Hins.
      * intros k. by rewrite Hf', <-app_assoc.
Qed.

(** C3 (as amended). While the root has not been split, that is for up to
    MAX_KEYS insertions into a new index, [search] finds every inserted key
    and returns the tuple id of the first row that was inserted with it. *)
Theorem search_returns_first_inserted rows key :
  (length rows <= MAX_KEYS)%nat →
  ∃ index, insert_all empty rows = inr index ∧
           search index key = inr (first_with_key key rows).
Proof.
  intros Hlen.
  destruct (insert_all_leaf rows empty [] []) as (index & entries & Hall & [-> Hs] & Hf).
  - split; [done|]. constructor.
  - done.
  - simpl. lia.
  - exists (Node entries.*1 entries.*2 [] true). split; [done|].
    unfold search, first_with_key. rewrite search_leaf by done. by rewrite Hf.
Qed.

Lemma search_returns_first_inserted_witness :
  ∃ index, insert_all empty [("25", 1); ("30", 3); ("25", 2)] = inr index ∧
           search index "25" = inr (Some 1).
Proof.
  apply (search_returns_first_inserted [("25", 1); ("30", 3); ("25", 2)] "25").
  unfold MAX_KEYS. simpl. lia.
Defined.

(** C3 (as stated) fails: two rows with the key "25" are inserted with the
    tuple ids 1 and 2, and [search] returns 1, not the last-inserted 2. *)
Lemma search_last_inserted_counterexample :
  let rows := [("25", 1); ("25", 2)] in
  ∃ index, insert_all empty rows = inr index ∧
           search index "25" ≠ inr (last_with_key "25" rows).
Proof. eexists. split; [vm_compute; reflexivity|]. vm_compute. discriminate. Qed.

(* The first split leaves the slot of the split child null and destroys the
   node it was moved into: the keys of its left half are gone, and an
   insertion that has to descend into the slot dereferences null. *)
Lemma split_drops_left_half :
  ∃ index,
    insert_all empty [("1", 1); ("2", 2); ("3", 3); ("4", 4); ("5", 5)] = inr index ∧
    index = Node ["3"] [3] [None; Some (Node ["4"; "5"] [4; 5] [] true)] false ∧
    search index "1" = inr None ∧
    insert index "0" 6 = inl Undefined.
Proof. eexists. split; [vm_compute; reflexivity|]. by vm_compute. Qed.

End BTreeFacts.

Module LockManagerFacts.
Import LockManager.

Lemma canGrantLock_exclusive_false lt p t r :
  r ∈ requests_of lt p → granted r = true →
  canGrantLock lt (newRequest p EXCLUSIVE t) = false.
Proof.
  intros Hin Hg. unfold canGrantLock. simpl.
  apply not_true_is_false. intros Hall.
  rewrite forallb_forall in Hall.
  specialize (Hall r). rewrite <-list_elem_of_In in Hall. specialize (Hall Hin).
  unfold conflicts in Hall. simpl in Hall. by rewrite Hg in Hall.
Qed.

Lemma acquire_existing_own lt p t r requests :
  head (filter (fun r => transaction_id r = t) requests) = Some r →
  lock_type r = SHARED →
  canGrantLock lt (newRequest p EXCLUSIVE t) = false →
  acquire_existing lt p EXCLUSIVE t requests = Some (granted r, requests).
Proof.
  intros Hhead Hs Hcg. induction requests as [|r0 rest IH]; [done|].
  simpl. rewrite filter_cons in Hhead. case_bool_decide as Ht.
  - rewrite decide_True in Hhead by done. simpl in Hhead. inversion Hhead; subst r0.
    rewrite Hcg. by rewrite andb_false_r.
  - rewrite decide_False in Hhead by done. by rewrite (IH Hhead).
Qed.

(** C8. The upgrade path asks [canGrantLock] about the same vector that
    holds the transaction's own granted SHARED request, so the check fails
    against that request: [acquireLock] answers true and the lock table is
    left as it was, the lock still SHARED. *)
Theorem upgrade_leaves_lock_shared lt p t r :
  own_request lt p t = Some r → lock_type r = SHARED → granted r = true →
  acquireLock lt p EXCLUSIVE t = (true, lt) ∧
  own_request (acquireLock lt p EXCLUSIVE t).2 p t = Some r.
Proof.
  intros Hown Hs Hg.
  assert (acquireLock lt p EXCLUSIVE t = (true, lt)) as Heq.
  { unfold own_request in Hown.
    assert (r ∈ requests_of lt p) as Hin.
    { apply head_Some_elem_of in Hown. by apply list_elem_of_filter in Hown as [_ ?]. }
    unfold acquireLock.
    assert (lt !! p = Some (requests_of lt p)) as Hl.
    { unfold requests_of in *. destruct (lt !! p); [done|]. by apply elem_of_nil in Hin. }
    rewrite (insert_id lt p _ Hl).
    rewrite (acquire_existing_own lt p t r); [|done..|by eapply canGrantLock_exclusive_false].
    by rewrite Hg, (insert_id lt p _ Hl). }
  by rewrite Heq.
Qed.

Lemma upgrade_leaves_lock_shared_witness :
  acquireLock shared_holder 1 EXCLUSIVE 7 = (true, shared_holder) ∧
  own_request (acquireLock shared_holder 1 EXCLUSIVE 7).2 1 7
    = Some (mkLockRequest 1 SHARED 7 true).
Proof.
  apply (upgrade_leaves_lock_shared shared_holder 1 7 (mkLockRequest 1 SHARED 7 true));
    reflexivity.
Defined.

End LockManagerFacts.

Module BufferPoolFacts.
Import BufferPool.

Lemma findVictim_from_inr fs l v rest :
  findVictim_from fs l = inr (v, rest) →
  ∃ l1 l2 fr, l = l1 ++ v :: l2 ∧ rest = l1 ++ l2 ∧ fs !! v = Some fr ∧
    is_pinned fr = false ∧
    ∀ f, f ∈ l1 → ∃ fr', fs !! f = Some fr' ∧ is_pinned fr' = true.
Proof.
  revert v rest. induction l as [|it l IH]; intros v rest H; simpl in H; [done|].
  destruct (fs !! it) as [fr|] eqn:Hit; [|done].
  destruct (is_pinned fr) eqn:Hp.
  - destruct (findVictim_from fs l) as [e|[v' rest']] eqn:Hrec; [done|].
    inversion H; subst. destruct (IH _ _ eq_refl) as (l1 & l2 & fr' & -> & -> & ? & ? & Hall).
    exists (it :: l1), l2, fr'. split_and!; try done.
    intros f [->|Hf]%elem_of_cons; eauto.
  - inversion H; subst. exists [], rest, fr. split_and!; try done.
    intros f Hf. by apply elem_of_nil in Hf.
Qed.

Lemma findVictim_from_all_pinned fs l :
  findVictim_from fs l = inl NoUnpinnedFrames ↔
  ∀ f, f ∈ l → ∃ fr, fs !! f = Some fr ∧ is_pinned fr = true.
Proof.
  induction l as [|it l IH]; simpl.
  - split; [|done]. intros _ f Hf. by apply elem_of_nil in Hf.
  - destruct (fs !! it) as [fr|] eqn:Hit.
    + destruct (is_pinned fr) eqn:Hp.
      * destruct (findVictim_from fs l) as [e|[v rest]] eqn:Hrec.
        -- split.
           ++ intros [= ->]. intros f [->|Hf]%elem_of_cons; [eauto|].
              by apply IH.
           ++ intros Hall. apply IH. intros f Hf. apply Hall. by right.
        -- split; [done|]. intros Hall.
           assert (@inr exn _ (v, rest) = inl NoUnpinnedFrames) as Habs; [|done].
           apply IH. intros f Hf. apply Hall. by right.
      * split; [done|]. intros Hall.
        destruct (Hall it) as (fr' & Hfr' & Hp'); [by left|]. congruence.
    + split; [done|]. intros Hall.
      destruct (Hall it) as (fr' & Hfr' & Hp'); [by left|]. congruence.
Qed.

Lemma findVictim_from_undefined fs l :
  (∀ f, f ∈ l → (f < length fs)%nat) → findVictim_from fs l ≠ inl Undefined.
Proof.
  induction l as [|it l IH]; intros Hv; simpl; [done|].
  destruct (fs !! it) as [fr|] eqn:Hit.
  - destruct (is_pinned fr); [|done].
    destruct (findVictim_from fs l) as [e|[v rest]] eqn:Hrec; [|done].
    intros [= ->]. apply IH; [|done]. intros f Hf. apply Hv. by right.
  - apply lookup_ge_None in Hit. specialize (Hv it ltac:(by left)). lia.
Qed.

Lemma wf_init n file : wf (init n file).
Proof.
  split; simpl.
  - intros f Hf. apply elem_of_seq in Hf. rewrite length_replicate. lia.
  - intros f Hf. rewrite length_replicate in Hf. apply elem_of_seq. lia.
  - apply NoDup_seq.
  - intros p f Hf. by rewrite lookup_empty in Hf.
  - intros p f fr _ Hf. by rewrite lookup_empty in Hf.
  - intros f fr Hf Hne. apply lookup_replicate in Hf as [-> _]. done.
Qed.

Lemma page_ids_length (fs fs' : list BufferFrame) :
  page_id <$> fs' = page_id <$> fs → length fs' = length fs.
Proof. intros H. by rewrite <-(length_fmap page_id fs'), H, length_fmap. Qed.

Lemma page_ids_lookup (fs fs' : list BufferFrame) f fr' :
  page_id <$> fs' = page_id <$> fs → fs' !! f = Some fr' →
  ∃ fr, fs !! f = Some fr ∧ page_id fr = page_id fr'.
Proof.
  intros H Hf.
  assert ((page_id <$> fs) !! f = Some (page_id fr')) as Hl.
  { rewrite <-H, list_lookup_fmap, Hf. done. }
  rewrite list_lookup_fmap in Hl.
  destruct (fs !! f) as [fr|]; [|done]. exists fr. split; [done|]. by inversion Hl.
Qed.

Lemma page_ids_insert (fs : list BufferFrame) f fr fr' :
  fs !! f = Some fr → page_id fr' = page_id fr →
  page_id <$> <[f := fr']> fs = page_id <$> fs.
Proof.
  intros Hf Hid. rewrite list_fmap_insert, Hid.
  apply list_insert_id. by rewrite list_lookup_fmap, Hf.
Qed.

(* Changing flags, data, the file, the counters or the order of the LRU
   list keeps the invariant. *)
Lemma wf_update bp bp' :
  wf bp →
  page_id <$> frames bp' = page_id <$> frames bp →
  page_table bp' = page_table bp →
  (∀ f, f ∈ lru_list bp' ↔ f ∈ lru_list bp) →
  NoDup (lru_list bp') →
  wf bp'.
Proof.
  intros [H1 H2 H3 H4 H5 H6] Hids Htab Hlru Hnd.
  pose proof (page_ids_length _ _ Hids) as Hlen.
  split.
  - intros f Hf. rewrite Hlen. apply H1. by apply Hlru.
  - intros f Hf. apply Hlru, H2. by rewrite <-Hlen.
  - done.
  - intros p f Hf. rewrite Hlen. rewrite Htab in Hf. eauto.
  - intros p f fr' Hne Hf Hfr. rewrite Htab in Hf.
    destruct (page_ids_lookup _ _ _ _ Hids Hfr) as (fr & Hfr0 & <-). eauto.
  - intros f fr' Hfr Hne. rewrite Htab.
    destruct (page_ids_lookup _ _ _ _ Hids Hfr) as (fr & Hfr0 & Hid).
    rewrite <-Hid in *. eauto.
Qed.

Lemma updateLRU_elem f l x : f ∈ l → x ∈ updateLRU f l ↔ x ∈ l.
Proof.
  intros Hf. unfold updateLRU. rewrite elem_of_cons, list_elem_of_filter.
  destruct (decide (x = f)) as [->|]; naive_solver.
Qed.

Lemma updateLRU_NoDup f l : NoDup l → NoDup (updateLRU f l).
Proof.
  intros Hnd. unfold updateLRU. apply NoDup_cons. split.
  - rewrite list_elem_of_filter. naive_solver.
  - by apply NoDup_filter.
Qed.

Lemma wf_releasePage bp p : wf bp → wf (releasePage bp p).
Proof.
  intros Hwf. unfold releasePage.
  destruct (page_table bp !! p) as [f|]; [|done].
  destruct (frames bp !! f) as [fr|] eqn:Hf; [|done].
  apply (wf_update bp); simpl; try done; [|apply Hwf].
  by eapply page_ids_insert.
Qed.

Lemma wf_markDirty bp p : wf bp → wf (markDirty bp p).
Proof.
  intros Hwf. unfold markDirty.
  destruct (page_table bp !! p) as [f|]; [|done].
  destruct (frames bp !! f) as [fr|] eqn:Hf; [|done].
  apply (wf_update bp); simpl; try done; [|apply Hwf].
  by eapply page_ids_insert.
Qed.

Lemma wf_storeData bp f d : wf bp → wf (storeData bp f d).
Proof.
  intros Hwf. unfold storeData.
  destruct (frames bp !! f) as [fr|] eqn:Hf; [|done].
  apply (wf_update bp); simpl; try done; [|apply Hwf].
  by eapply page_ids_insert.
Qed.

Lemma wf_flushPage bp p : wf bp → wf (flushPage bp p).
Proof.
  intros Hwf. unfold flushPage.
  destruct (page_table bp !! p) as [f|]; [|done].
  destruct (frames bp !! f) as [fr|] eqn:Hf; [|done].
  destruct (is_dirty fr); [|done].
  apply (wf_update bp); simpl; try done; [|apply Hwf].
  by eapply page_ids_insert.
Qed.

Lemma wf_flushAllPages bp : wf bp → wf (flushAllPages bp).
Proof.
  intros Hwf. apply (wf_update bp); simpl; try done; [|apply Hwf].
  rewrite <-list_fmap_compose. by apply list_fmap_ext.
Qed.

(* What a hit does: the frame is pinned and moved to the front. *)
Lemma getPage_hit bp p f fr :
  page_table bp !! p = Some f → frames bp !! f = Some fr →
  getPage bp p =
    Ok f (mkPool (<[f := set_pinned true fr]> (frames bp)) (page_table bp)
                 (updateLRU f (lru_list bp)) (db_file bp)
                 (incr (page_hits bp)) (page_misses bp)).
Proof. intros Hp Hf. unfold getPage. by rewrite Hp, Hf. Qed.

(* What a miss does, in terms of the victim that the walk selects. *)
Lemma getPage_miss bp p v rest fr :
  page_table bp !! p = None →
  findVictim_from (frames bp) (lru_list bp) = inr (v, rest) →
  frames bp !! v = Some fr →
  getPage bp p =
    let file1 := if decide (page_id fr ≠ 0) then
                   if is_dirty fr
                   then writePageToDisk (db_file bp) (page_id fr) (data fr)
                   else db_file bp
                 else db_file bp in
    let table1 := if decide (page_id fr ≠ 0)
                  then delete (page_id fr) (page_table bp) else page_table bp in
    Ok v (mkPool (<[v := mkFrame p false true (readPageFromDisk file1 p).1]> (frames bp))
                 (<[p := v]> table1) (v :: rest)
                 (readPageFromDisk file1 p).2 (page_hits bp) (incr (page_misses bp))).
Proof.
  intros Hp Hv Hf. unfold getPage, findVictim. rewrite Hp. simpl. rewrite Hv. simpl.
  rewrite Hf. unfold evictFrame. simpl. rewrite Hf.
  destruct (decide (page_id fr ≠ 0)); simpl.
  - destruct (readPageFromDisk _ p) as [d file'] eqn:Hrd. simpl.
    by rewrite list_insert_insert_eq.
  - by destruct (readPageFromDisk _ p) as [d file'] eqn:Hrd.
Qed.

Lemma wf_getPage bp p : wf bp → wf (final_state (getPage bp p)).
Proof.
  intros Hwf. destruct (page_table bp !! p) as [f|] eqn:Hp.
  - destruct (frames bp !! f) as [fr|] eqn:Hf.
    + rewrite (getPage_hit _ _ _ _ Hp Hf). simpl.
      assert (f ∈ lru_list bp) as Hin.
      { apply Hwf. by eapply lookup_lt_Some. }
      apply (wf_update bp); simpl; try done.
      * by eapply page_ids_insert.
      * intros x. by apply updateLRU_elem.
      * apply updateLRU_NoDup, Hwf.
    + unfold getPage. rewrite Hp, Hf. simpl.
      by apply (wf_update bp); try apply Hwf.
  - unfold getPage, findVictim. rewrite Hp. simpl.
    destruct (findVictim_from (frames bp) (lru_list bp)) as [e|[v rest]] eqn:Hv; simpl.
    { by apply (wf_update bp); try apply Hwf. }
    destruct (findVictim_from_inr _ _ _ _ Hv) as (l1 & l2 & fr & Hl & -> & Hf & Hunp & _).
    pose proof (getPage_miss bp p v _ fr Hp Hv Hf) as Hg.
    unfold getPage, findVictim in Hg. rewrite Hp in Hg. simpl in Hg.
    rewrite Hv in Hg. simpl in Hg. rewrite Hg. simpl. clear Hg.
    destruct Hwf as [H1 H2 H3 H4 H5 H6]. rewrite Hl in *.
    assert (v ∉ l1 ++ l2) as Hvn.
    { apply NoDup_app in H3 as (Hn1 & Hn2 & Hn3).
      apply NoDup_cons in Hn3 as [Hn3 _].
      rewrite elem_of_app. intros [Hin|Hin]; [|done].
      apply (Hn2 v Hin). by left. }
    split; simpl.
    + intros f Hin. rewrite length_insert. apply H1.
      rewrite elem_of_cons, elem_of_app in Hin. rewrite elem_of_app, elem_of_cons.
      naive_solver.
    + intros f Hlt. rewrite length_insert in Hlt. specialize (H2 f Hlt).
      rewrite elem_of_app, elem_of_cons in H2. rewrite elem_of_cons, elem_of_app.
      naive_solver.
    + apply NoDup_cons. split; [done|].
      apply NoDup_app in H3 as (Hn1 & Hn2 & Hn3).
      apply NoDup_cons in Hn3 as [Hn3 Hn4].
      apply NoDup_app. split_and!; try done.
      intros x Hx1 Hx2. apply (Hn2 x Hx1). by right.
    + intros q f Hq. rewrite length_insert.
      destruct (decide (p = q)) as [->|Hne].
      * rewrite lookup_insert_eq in Hq. inversion Hq; subst. by eapply lookup_lt_Some.
      * rewrite lookup_insert_ne in Hq by done.
        destruct (decide (page_id fr ≠ 0)); [|by eauto].
        apply lookup_delete_Some in Hq as [_ Hq]. eauto.
    + intros q f fr' Hq0 Hq Hfr'.
      destruct (decide (p = q)) as [->|Hne].
      * rewrite lookup_insert_eq in Hq. inversion Hq; subst.
        rewrite list_lookup_insert_eq in Hfr' by (by eapply lookup_lt_Some).
        by inversion Hfr'.
      * rewrite lookup_insert_ne in Hq by done.
        assert (page_table bp !! q = Some f) as Hq'.
        { destruct (decide (page_id fr ≠ 0)); [|done].
          by apply lookup_delete_Some in Hq as [_ Hq]. }
        destruct (decide (f = v)) as [->|Hfv].
        -- pose proof (H5 q v fr Hq0 Hq' Hf) as Hid.
           destruct (decide (page_id fr ≠ 0)) as [Hnz|Hz]; [|destruct Hz; congruence].
           apply lookup_delete_Some in Hq as [Hq _]. congruence.
        -- rewrite list_lookup_insert_ne in Hfr' by done. eauto.
    + intros f fr' Hfr' Hnz.
      destruct (decide (f = v)) as [->|Hfv].
      * rewrite list_lookup_insert_eq in Hfr' by (by eapply lookup_lt_Some).
        inversion Hfr'; subst. simpl. by rewrite lookup_insert_eq.
      * rewrite list_lookup_insert_ne in Hfr' by done.
        pose proof (H6 f fr' Hfr' Hnz) as Hq.
        destruct (decide (p = page_id fr')) as [Heq|Hne].
        { rewrite <-Heq in Hq. congruence. }
        rewrite lookup_insert_ne by done.
        destruct (decide (page_id fr ≠ 0)) as [Hnz'|]; [|done].
        rewrite lookup_delete_ne; [done|].
        intros Heq. rewrite <-Heq in Hq.
        pose proof (H6 v fr Hf Hnz') as Hq2. congruence.
Qed.

Lemma wf_check_sound bp : wf_check bp = true → wf bp.
Proof.
  unfold wf_check. rewrite !andb_true_iff.
  intros ((((H1 & H2) & H3) & H4) & H5).
  apply bool_decide_eq_true in H1, H2, H3, H4, H5.
  rewrite Forall_forall in H1. rewrite Forall_forall in H2.
  rewrite Forall_forall in H5. split.
  - done.
  - intros f Hf. apply H2. apply elem_of_seq. lia.
  - done.
  - intros p f Hp. by destruct (H4 p f Hp).
  - intros p f fr Hp0 Hp Hf. destruct (H4 p f Hp) as [_ Hid].
    specialize (Hid Hp0). rewrite Hf in Hid. simpl in Hid. congruence.
  - intros f fr Hf Hnz. apply (H5 (f, fr)); [|done].
    apply elem_of_lookup_imap. eauto.
Qed.

Lemma reachable_wf n bp : reachable n bp → wf bp ∧ length (frames bp) = n.
Proof.
  assert (∀ bp p, length (frames (final_state (getPage bp p))) = length (frames bp)) as Hlen.
  { intros b p. unfold getPage, findVictim.
    destruct (page_table b !! p) as [f|].
    - destruct (frames b !! f); simpl; [|done]. by rewrite length_insert.
    - simpl. destruct (findVictim_from _ _) as [e|[v rest]]; simpl; [done|].
      destruct (frames b !! v) as [fr|] eqn:Hf; simpl; [|done].
      unfold evictFrame. simpl. rewrite Hf.
      destruct (decide (page_id fr ≠ 0)); simpl;
        destruct (readPageFromDisk _ p); simpl; by rewrite !length_insert. }
  induction 1 as [file|b p _ [IH1 IH2]|b p _ [IH1 IH2]|b p _ [IH1 IH2]
                  |b p _ [IH1 IH2]|b _ [IH1 IH2]|b f d _ [IH1 IH2]].
  - split; [apply wf_init|]. simpl. by rewrite length_replicate.
  - split; [by apply wf_getPage|]. by rewrite Hlen.
  - split; [by apply wf_releasePage|]. unfold releasePage.
    destruct (page_table b !! p) as [f|]; [|done].
    destruct (frames b !! f); simpl; [|done]. by rewrite length_insert.
  - split; [by apply wf_markDirty|]. unfold markDirty.
    destruct (page_table b !! p) as [f|]; [|done].
    destruct (frames b !! f); simpl; [|done]. by rewrite length_insert.
  - split; [by apply wf_flushPage|]. unfold flushPage.
    destruct (page_table b !! p) as [f|]; [|done].
    destruct (frames b !! f) as [fr|]; simpl; [|done].
    destruct (is_dirty fr); simpl; [|done]. by rewrite length_insert.
  - split; [by apply wf_flushAllPages|]. simpl. by rewrite length_map.
  - split; [by apply wf_storeData|]. unfold storeData.
    destruct (frames b !! f); simpl; [|done]. by rewrite length_insert.
Qed.

Lemma findVictim_from_inl fs l e :
  findVictim_from fs l = inl e → e = NoUnpinnedFrames ∨ e = Undefined.
Proof.
  induction l as [|it l IH]; simpl; [intros [= <-]; by left|].
  destruct (fs !! it) as [fr|]; [|intros [= <-]; by right].
  destruct (is_pinned fr); [|done].
  destruct (findVictim_from fs l) as [e'|[v rest]]; [|done].
  intros [= <-]. by apply IH.
Qed.

(* When [getPage] raises: if and only if the request misses while every
   frame of the pool is pinned, and the exception is then the "no unpinned
   frames" error; a miss with at least one unpinned frame returns a pinned
   frame that is mapped to the requested page. What the frame holds then is
   another matter, see [miss_after_failed_read_loads_zeros]. *)
Lemma getPage_raises_iff_all_pinned n bp p :
  reachable n bp →
  (raises (getPage bp p) ↔
     page_table bp !! p = None ∧ ∀ fr, fr ∈ frames bp → is_pinned fr = true) ∧
  (∀ e bp', getPage bp p = Throw e bp' → e = NoUnpinnedFrames) ∧
  (page_table bp !! p = None →
   (∃ fr, fr ∈ frames bp ∧ is_pinned fr = false) →
   ∃ f bp' fr, getPage bp p = Ok f bp' ∧ page_table bp' !! p = Some f ∧
               frames bp' !! f = Some fr ∧ page_id fr = p ∧ is_pinned fr = true).
Proof.
  intros Hreach. destruct (reachable_wf _ _ Hreach) as [Hwf _].
  destruct (page_table bp !! p) as [f|] eqn:Hp.
  - destruct (frames bp !! f) as [fr|] eqn:Hf.
    2:{ apply lookup_ge_None in Hf. pose proof (wf_table_valid _ Hwf _ _ Hp). lia. }
    rewrite (getPage_hit _ _ _ _ Hp Hf). simpl. split_and!; [|done..].
    split; [done|]. by intros [? _].
  - destruct (findVictim_from (frames bp) (lru_list bp)) as [e|[v rest]] eqn:Hv.
    + assert (e = NoUnpinnedFrames) as ->.
      { destruct (findVictim_from_inl _ _ _ Hv) as [->| ->]; [done|].
        exfalso. eapply findVictim_from_undefined; [|exact Hv]. apply Hwf. }
      assert (∀ fr, fr ∈ frames bp → is_pinned fr = true) as Hall.
      { intros fr Hfr. apply list_elem_of_lookup in Hfr as [f Hf].
        apply findVictim_from_all_pinned with (f := f) in Hv as (fr' & Hf' & Hp').
        - congruence.
        - apply Hwf. by eapply lookup_lt_Some. }
      unfold getPage, findVictim. rewrite Hp. simpl. rewrite Hv. simpl.
      split_and!.
      * done.
      * by intros e bp' [= <- _].
      * intros _ (fr & Hfr & Hunp). rewrite (Hall fr Hfr) in Hunp. done.
    + destruct (findVictim_from_inr _ _ _ _ Hv) as (l1 & l2 & fr & Hl & -> & Hf & Hunp & _).
      rewrite (getPage_miss bp p v _ fr Hp Hv Hf). simpl. split_and!.
      * split; [done|]. intros [_ Hall].
        rewrite (Hall fr) in Hunp; [done|]. by eapply list_elem_of_lookup_2.
      * done.
      * intros _ _. eexists _, _, _. split; [done|]. simpl. split_and!.
        -- by rewrite lookup_insert_eq.
        -- apply list_lookup_insert_eq. by eapply lookup_lt_Some.
        -- done.
        -- done.
Qed.

Lemma getPage_raises_when_both_pinned : raises (getPage both_pinned 3).
Proof.
  apply (getPage_raises_iff_all_pinned 2 both_pinned 3).
  - unfold both_pinned. apply reach_getPage, reach_getPage, reach_init.
  - split; [reflexivity|]. intros fr Hfr.
    apply list_elem_of_In in Hfr. vm_compute in Hfr.
    destruct Hfr as [<-|[<-|[]]]; reflexivity.
Qed.

(** C7. A miss with unpinned frames does not always load the page. The file
    holds page 1, every byte of it 1; page 5, past the end of the file, has
    been requested and released, which left the stream in the failed state.
    No frame is pinned, and [getPage 1] misses and returns frame 0, but the
    frame holds zeros: [readPageFromDisk] reads nothing from a failed
    stream and never clears that state, as [writePageToDisk] does. *)
Theorem miss_after_failed_read_loads_zeros :
  page_table failed_read_pool !! 1 = None ∧
  pinned_count failed_read_pool = 0%nat ∧
  read_bytes (contents (db_file failed_read_pool)) (page_offset 1) PAGE_SIZE
    = Some (replicate PAGE_SIZE x01) ∧
  returned (getPage failed_read_pool 1) = Some 0%nat ∧
  data_at (final_state (getPage failed_read_pool 1)) 0 = Some zero_page.
Proof. split_and!; vm_compute; reflexivity. Qed.

(* What a successful [getPage] establishes. *)
Lemma getPage_ok_post bp p f bp' :
  wf bp → getPage bp p = Ok f bp' →
  page_table bp' !! p = Some f ∧
  ∃ fr rest, frames bp' !! f = Some fr ∧ is_pinned fr = true ∧
             (p ≠ 0 → page_id fr = p) ∧ lru_list bp' = f :: rest.
Proof.
  intros Hwf Hg. destruct (page_table bp !! p) as [f0|] eqn:Hp.
  - destruct (frames bp !! f0) as [fr|] eqn:Hf.
    2:{ unfold getPage in Hg. by rewrite Hp, Hf in Hg. }
    rewrite (getPage_hit _ _ _ _ Hp Hf) in Hg. inversion Hg; subst; simpl.
    split; [done|]. eexists _, _. split_and!.
    + apply list_lookup_insert_eq. by eapply lookup_lt_Some.
    + done.
    + intros Hne. simpl. by eapply (wf_table_page _ Hwf).
    + done.
  - destruct (findVictim_from (frames bp) (lru_list bp)) as [e|[v rest]] eqn:Hv.
    { unfold getPage, findVictim in Hg. rewrite Hp in Hg. simpl in Hg.
      by rewrite Hv in Hg. }
    destruct (findVictim_from_inr _ _ _ _ Hv) as (l1 & l2 & fr & Hl & -> & Hf & Hunp & _).
    rewrite (getPage_miss bp p v _ fr Hp Hv Hf) in Hg.
    inversion Hg; subst; simpl. split; [by rewrite lookup_insert_eq|].
    eexists _, _. split_and!.
    + apply list_lookup_insert_eq. by eapply lookup_lt_Some.
    + done.
    + done.
    + done.
Qed.

(** C9 (as amended). The pin is a flag, not a count: when two callers have
    obtained the same page and one of them releases it, the frame is no
    longer pinned, although the second caller still holds the page, and it
    can be taken as an eviction victim: when every other frame is pinned,
    a request for a page that is not resident does not fail but takes this
    frame and evicts the page. *)
Theorem one_release_unpins n bp p f1 bp1 f2 bp2 :
  reachable n bp → p ≠ 0 →
  getPage bp p = Ok f1 bp1 → getPage bp1 p = Ok f2 bp2 →
  f2 = f1 ∧
  is_pinned <$> frame_of (releasePage bp2 p) p = Some false ∧
  ∀ q, page_table (releasePage bp2 p) !! q = None →
       (∀ g fr, g ≠ f1 → frames (releasePage bp2 p) !! g = Some fr →
                is_pinned fr = true) →
       ∃ bp4, getPage (releasePage bp2 p) q = Ok f1 bp4 ∧
              page_table bp4 !! p = None.
Proof.
  intros Hreach Hp0 Hg1 Hg2.
  destruct (reachable_wf _ _ Hreach) as [Hwf _].
  pose proof (wf_getPage bp p Hwf) as Hwf1. rewrite Hg1 in Hwf1. simpl in Hwf1.
  destruct (getPage_ok_post _ _ _ _ Hwf Hg1) as (Ht1 & fr1 & rest1 & Hf1 & Hpin1 & Hid1 & Hl1).
  rewrite (getPage_hit _ _ _ _ Ht1 Hf1) in Hg2. inversion Hg2; subst f2 bp2. clear Hg2.
  assert (f1 < length (frames bp1))%nat as Hlt by (by eapply lookup_lt_Some).
  unfold releasePage, frame_of. simpl. rewrite Ht1.
  rewrite list_lookup_insert_eq by done. simpl. rewrite Ht1.
  rewrite list_insert_insert_eq.
  rewrite list_lookup_insert_eq by done. simpl.
  split_and!; [done..|].
  intros q Hq _.
  set (bp3 := with_frames _ _).
  assert (findVictim_from (frames bp3) (lru_list bp3) =
          inr (f1, filter (λ x, x ≠ f1) (lru_list bp1))) as Hv.
  { simpl. rewrite list_lookup_insert_eq by done. done. }
  assert (frames bp3 !! f1 = Some (set_pinned false (set_pinned true fr1))) as Hf3.
  { simpl. by rewrite list_lookup_insert_eq. }
  rewrite (getPage_miss bp3 q f1 _ _ Hq Hv Hf3).
  eexists. split; [done|].
  - simpl. specialize (Hid1 Hp0). rewrite Hid1.
    destruct (decide (p ≠ 0)); [|done].
    rewrite lookup_insert_ne; [by rewrite lookup_delete_eq|].
    intros ->. simpl in Hq. congruence.
Qed.

Lemma one_release_unpins_witness :
  ∃ bp2 bp4,
    is_pinned <$> frame_of (releasePage bp2 7) 7 = Some false ∧
    getPage (releasePage bp2 7) 9 = Ok 1%nat bp4 ∧ page_table bp4 !! 7 = None.
Proof.
  destruct (getPage one_held 7) as [f1 bp1|] eqn:Hg1; [|discriminate Hg1].
  assert (f1 = 1%nat) as -> by (vm_compute in Hg1; congruence).
  destruct (getPage bp1 7) as [f2 bp2|] eqn:Hg2;
    [|vm_compute in Hg1; inversion Hg1; subst; discriminate Hg2].
  destruct (one_release_unpins 2 one_held 7 1 bp1 f2 bp2
              (reach_getPage 2 _ 8 (reach_init 2 [])) ltac:(lia) Hg1 Hg2)
    as (_ & Hunpinned & Hvictim).
  destruct (Hvictim 9) as (bp4 & Hg4 & Hgone).
  - vm_compute in Hg1. inversion Hg1; subst. vm_compute in Hg2. inversion Hg2; subst.
    reflexivity.
  - intros g fr Hg Hfr.
    vm_compute in Hg1. inversion Hg1; subst. vm_compute in Hg2. inversion Hg2; subst.
    destruct g as [|[|g]]; [|done|done].
    vm_compute in Hfr. by inversion Hfr.
  - by exists bp2, bp4.
Defined.

(** C9 (as stated) fails: in a pool of four frames, after two [getPage 1]
    and a single [releasePage 1] the frame of page 1 is not pinned. *)
Lemma pinned_after_one_release_counterexample :
  ¬ pinned_after_one_release (init 4 []) 1.
Proof.
  intros H.
  specialize (H _ _ _ _ eq_refl eq_refl). vm_compute in H. discriminate H.
Qed.

(* The view of the pool that the table code depends on: which frame holds
   which page, the bytes of each frame and its pin flag. A hit changes the
   pin flag of one frame and nothing else of the view. *)
Lemma getPage_hit_view bp p f :
  wf bp → page_table bp !! p = Some f →
  ∃ bp', getPage bp p = Ok f bp' ∧ wf bp' ∧
         page_table bp' = page_table bp ∧
         (∀ g, data_at bp' g = data_at bp g) ∧
         pinned_at bp' f = Some true ∧
         (∀ g, g ≠ f → pinned_at bp' g = pinned_at bp g).
Proof.
  intros Hwf Hp.
  destruct (frames bp !! f) as [fr|] eqn:Hf.
  2:{ apply lookup_ge_None in Hf. pose proof (wf_table_valid _ Hwf _ _ Hp). lia. }
  pose proof (wf_getPage bp p Hwf) as Hwf'.
  rewrite (getPage_hit _ _ _ _ Hp Hf) in *. simpl in Hwf'.
  assert (f < length (frames bp))%nat as Hlt by (by eapply lookup_lt_Some).
  eexists. split; [done|]. split_and!; try done; unfold data_at, pinned_at; simpl.
  - intros g. destruct (decide (g = f)) as [->|Hne].
    + by rewrite list_lookup_insert_eq, Hf by done.
    + by rewrite list_lookup_insert_ne by done.
  - by rewrite list_lookup_insert_eq by done.
  - intros g Hne. by rewrite list_lookup_insert_ne by done.
Qed.

Lemma releasePage_view bp p :
  wf bp →
  wf (releasePage bp p) ∧
  page_table (releasePage bp p) = page_table bp ∧
  (∀ g, data_at (releasePage bp p) g = data_at bp g) ∧
  (∀ f, page_table bp !! p = Some f → pinned_at (releasePage bp p) f = Some false) ∧
  (∀ g, page_table bp !! p ≠ Some g →
        pinned_at (releasePage bp p) g = pinned_at bp g).
Proof.
  intros Hwf. split; [by apply wf_releasePage|].
  unfold releasePage, data_at, pinned_at.
  destruct (page_table bp !! p) as [f|] eqn:Hp; [|done].
  destruct (frames bp !! f) as [fr|] eqn:Hf.
  2:{ apply lookup_ge_None in Hf. pose proof (wf_table_valid _ Hwf _ _ Hp). lia. }
  assert (f < length (frames bp))%nat as Hlt by (by eapply lookup_lt_Some).
  simpl. split_and!; try done.
  - intros g. destruct (decide (g = f)) as [->|Hne].
    + by rewrite list_lookup_insert_eq, Hf by done.
    + by rewrite list_lookup_insert_ne by done.
  - intros g [= <-]. by rewrite list_lookup_insert_eq by done.
  - intros g Hne. rewrite list_lookup_insert_ne; [done|]. congruence.
Qed.

Lemma markDirty_view bp p :
  wf bp →
  wf (markDirty bp p) ∧
  page_table (markDirty bp p) = page_table bp ∧
  (∀ g, data_at (markDirty bp p) g = data_at bp g) ∧
  (∀ g, pinned_at (markDirty bp p) g = pinned_at bp g).
Proof.
  intros Hwf. split; [by apply wf_markDirty|].
  unfold markDirty, data_at, pinned_at.
  destruct (page_table bp !! p) as [f|] eqn:Hp; [|done].
  destruct (frames bp !! f) as [fr|] eqn:Hf; [|done].
  assert (f < length (frames bp))%nat as Hlt by (by eapply lookup_lt_Some).
  simpl. split_and!; try done; intros g; destruct (decide (g = f)) as [->|Hne];
    by rewrite ?list_lookup_insert_eq, ?Hf, ?list_lookup_insert_ne by done.
Qed.

Lemma storeData_view bp f d :
  wf bp → is_Some (frames bp !! f) →
  wf (storeData bp f d) ∧
  page_table (storeData bp f d) = page_table bp ∧
  data_at (storeData bp f d) f = Some d ∧
  (∀ g, g ≠ f → data_at (storeData bp f d) g = data_at bp g) ∧
  (∀ g, pinned_at (storeData bp f d) g = pinned_at bp g).
Proof.
  intros Hwf [fr Hf]. split; [by apply wf_storeData|].
  unfold storeData, data_at, pinned_at. rewrite Hf.
  assert (f < length (frames bp))%nat as Hlt by (by eapply lookup_lt_Some).
  simpl. split_and!; try done.
  - by rewrite list_lookup_insert_eq by done.
  - intros g Hne. by rewrite list_lookup_insert_ne by done.
  - intros g. destruct (decide (g = f)) as [->|Hne].
    + by rewrite list_lookup_insert_eq, Hf by done.
    + by rewrite list_lookup_insert_ne by done.
Qed.

Lemma readPageFromDisk_length file p :
  length (readPageFromDisk file p).1 = PAGE_SIZE.
Proof.
  unfold readPageFromDisk. destruct (failbit file); cbn [fst].
  - unfold zero_page. by rewrite length_replicate.
  - unfold read_bytes. case_decide; cbn [fst].
    + rewrite length_take, length_drop. lia.
    + unfold zero_page. by rewrite length_replicate.
Qed.

(* A miss either raises, leaving the view as it was, or takes an unpinned
   frame: every other frame keeps its bytes and its pin flag, and every
   other page that was not in the victim frame keeps its frame. *)
Lemma getPage_miss_view bp p :
  wf bp → page_table bp !! p = None →
  (∃ bp', getPage bp p = Throw NoUnpinnedFrames bp' ∧ wf bp' ∧
          page_table bp' = page_table bp ∧
          (∀ g, data_at bp' g = data_at bp g) ∧
          (∀ g, pinned_at bp' g = pinned_at bp g) ∧
          (∀ g, is_Some (frames bp !! g) → pinned_at bp g = Some true)) ∨
  (∃ v bp' d, getPage bp p = Ok v bp' ∧ wf bp' ∧
          pinned_at bp v = Some false ∧
          page_table bp' !! p = Some v ∧
          data_at bp' v = Some d ∧ length d = PAGE_SIZE ∧
          pinned_at bp' v = Some true ∧
          (∀ g, g ≠ v → data_at bp' g = data_at bp g) ∧
          (∀ g, g ≠ v → pinned_at bp' g = pinned_at bp g) ∧
          (∀ q g, q ≠ 0 → q ≠ p → g ≠ v → page_table bp !! q = Some g →
                  page_table bp' !! q = Some g) ∧
          (∀ q, q ≠ p → page_table bp !! q = None → page_table bp' !! q = None)).
Proof.
  intros Hwf Hp. pose proof (wf_getPage bp p Hwf) as Hwf'.
  destruct (findVictim_from (frames bp) (lru_list bp)) as [e|[v rest]] eqn:Hv.
  - left. assert (e = NoUnpinnedFrames) as ->.
    { destruct (findVictim_from_inl _ _ _ Hv) as [->| ->]; [done|].
      exfalso. eapply findVictim_from_undefined; [|exact Hv]. apply Hwf. }
    unfold getPage, findVictim in *. rewrite Hp in *. simpl in *. rewrite Hv in *.
    simpl in *. eexists. split; [done|]. split_and!; try done.
    intros g [fr Hg]. unfold pinned_at. rewrite Hg. simpl.
    destruct (proj1 (findVictim_from_all_pinned _ _) Hv g) as (fr' & Hf' & Hp').
    + apply Hwf. by eapply lookup_lt_Some.
    + congruence.
  - right.
    destruct (findVictim_from_inr _ _ _ _ Hv) as (l1 & l2 & fr & Hl & -> & Hf & Hunp & _).
    rewrite (getPage_miss bp p v _ fr Hp Hv Hf) in *. simpl in Hwf'.
    assert (v < length (frames bp))%nat as Hlt by (by eapply lookup_lt_Some).
    eexists _, _, _. split; [done|].
    unfold data_at, pinned_at. simpl. rewrite Hf. simpl.
    split_and!; try done.
    + by rewrite Hunp.
    + by rewrite lookup_insert_eq.
    + by rewrite list_lookup_insert_eq by done.
    + apply readPageFromDisk_length.
    + by rewrite list_lookup_insert_eq by done.
    + intros g Hne. by rewrite list_lookup_insert_ne by done.
    + intros g Hne. by rewrite list_lookup_insert_ne by done.
    + intros q g Hq0 Hqp Hgv Hq. rewrite lookup_insert_ne by done.
      destruct (decide (page_id fr ≠ 0)) as [Hnz|]; [|done].
      rewrite lookup_delete_ne; [done|]. intros Heq.
      pose proof (wf_frame_table _ Hwf _ _ Hf Hnz) as Hq2. congruence.
    + intros q Hqp Hq. rewrite lookup_insert_ne by done.
      destruct (decide (page_id fr ≠ 0)); [|done].
      by apply lookup_delete_None; right.
Qed.

(** C2. The victim walk starts at the front of the list, which is the
    most recently used end: in the scenario (capacity 4; pages 1,2,3,4,1,5)
    every access is a miss served by frame 0, so there is no hit, and the
    only page left resident is page 5. *)
Theorem lru_scenario_evicts_most_recent :
  ∃ bp, lru_scenario = Ok tt bp ∧
        page_hits bp = 0 ∧ page_misses bp = 6 ∧
        resident bp = [5] ∧
        page_id <$> frames bp = [5; 0; 0; 0].
Proof. eexists. split; [vm_compute; reflexivity|]. by vm_compute. Qed.

End BufferPoolFacts.

Module TableFacts.
Import Codec Table.

Lemma bind_run {S A B} (m : M S A) (k : A → M S B) (s : S) :
  (m ≫= k) s = bind (m s) k.
Proof. reflexivity. Qed.

Lemma same_view_refl bp : BufferPool.wf bp → same_view bp bp.
Proof. by intros Hwf. Qed.

Lemma same_view_trans bp1 bp2 bp3 :
  same_view bp1 bp2 → same_view bp2 bp3 → same_view bp1 bp3.
Proof.
  intros (_ & Ht1 & Hd1) (Hwf & Ht2 & Hd2). split_and!; [done|congruence|].
  intros g. by rewrite Hd2, Hd1.
Qed.

Lemma page_data_same_view bp bp' p :
  same_view bp bp' → page_data bp' p = page_data bp p.
Proof.
  intros (_ & Ht & Hd). unfold page_data. rewrite Ht.
  destruct (BufferPool.page_table bp !! p); [apply Hd|done].
Qed.

Lemma chain_ext bp bp' p l :
  (∀ q, q ∈ l.*1 → page_data bp' q = page_data bp q) →
  chain bp p l → chain bp' p l.
Proof.
  intros Hext Hc. induction Hc as [|p d h l Hp Hd Hh Hc IH]; [constructor|].
  econstructor; try done.
  - rewrite Hext; [done|]. simpl. by left.
  - apply IH. intros q Hq. apply Hext. simpl. by right.
Qed.

Lemma chain_same_view bp bp' p l :
  same_view bp bp' → chain bp p l → chain bp' p l.
Proof. intros Hv. apply chain_ext. intros q _. by apply page_data_same_view. Qed.

Lemma chain_functional bp p l1 l2 : chain bp p l1 → chain bp p l2 → l1 = l2.
Proof.
  intros Hc. revert l2. induction Hc as [|p d h l Hp Hd Hh Hc IH]; intros l2 Hc2.
  - by inversion Hc2.
  - inversion Hc2 as [|p' d' h' l' Hp' Hd' Hh' Hc']; subst; [done|].
    assert (d' = d) as -> by congruence.
    assert (h' = h) as -> by congruence.
    f_equal. by apply IH.
Qed.

Lemma chain_suffix bp p l q :
  chain bp p l → q ∈ l.*1 → ∃ l', chain bp q l' ∧ (length l' <= length l)%nat.
Proof.
  intros Hc. induction Hc as [|p d h l Hp Hd Hh Hc IH]; simpl.
  - by intros ?%elem_of_nil.
  - intros [->|Hq]%elem_of_cons.
    + exists ((p, d) :: l). split; [by econstructor|done].
    + destruct (IH Hq) as (l' & Hc' & Hlen). exists l'. split; [done|]. simpl. lia.
Qed.

Lemma chain_NoDup bp p l : chain bp p l → NoDup l.*1.
Proof.
  intros Hc. induction Hc as [|p d h l Hp Hd Hh Hc IH]; simpl; [constructor|].
  constructor; [|done]. intros Hin.
  destruct (chain_suffix _ _ _ _ Hc Hin) as (l' & Hc' & Hlen).
  assert (chain bp p ((p, d) :: l)) as Hfull by (by econstructor).
  rewrite (chain_functional _ _ _ _ Hc' Hfull) in Hlen. simpl in Hlen. lia.
Qed.

Lemma chain_head bp p l : chain bp p l → p ≠ 0 → ∃ d l', l = (p, d) :: l'.
Proof. intros Hc Hp. inversion Hc; subst; [done|]. eauto. Qed.

Lemma frame_injective bp p q f :
  BufferPool.wf bp → p ≠ 0 → q ≠ 0 →
  BufferPool.page_table bp !! p = Some f → BufferPool.page_table bp !! q = Some f →
  p = q.
Proof.
  intros Hwf Hp Hq Hpf Hqf.
  pose proof (BufferPool.wf_table_valid _ Hwf _ _ Hpf) as Hlt.
  destruct (lookup_lt_is_Some_2 _ _ Hlt) as [fr Hfr].
  rewrite <-(BufferPool.wf_table_page _ Hwf p f fr Hp Hpf Hfr).
  by rewrite <-(BufferPool.wf_table_page _ Hwf q f fr Hq Hqf Hfr).
Qed.

Lemma page_data_Some bp p d :
  page_data bp p = Some d →
  ∃ f, BufferPool.page_table bp !! p = Some f ∧ BufferPool.data_at bp f = Some d.
Proof.
  unfold page_data. destruct (BufferPool.page_table bp !! p) as [f|]; [|done]. eauto.
Qed.

Lemma is_pinned_page_true bp p f :
  BufferPool.page_table bp !! p = Some f → BufferPool.pinned_at bp f = Some true →
  is_pinned_page bp p = true.
Proof.
  intros Hp Hf. unfold is_pinned_page, BufferPool.frame_of, BufferPool.pinned_at in *.
  rewrite Hp. destruct (BufferPool.frames bp !! f); simpl in *; congruence.
Qed.

(* the steps of the table code on a resident page *)
Lemma getPage_resident tb p f :
  BufferPool.wf (buffer_pool tb) →
  BufferPool.page_table (buffer_pool tb) !! p = Some f →
  ∃ bp', getPage p tb = Ok f (with_pool bp' tb) ∧
         same_view (buffer_pool tb) bp' ∧
         BufferPool.pinned_at bp' f = Some true ∧
         (∀ g, g ≠ f → BufferPool.pinned_at bp' g = BufferPool.pinned_at (buffer_pool tb) g).
Proof.
  intros Hwf Hp.
  destruct (BufferPoolFacts.getPage_hit_view _ _ _ Hwf Hp)
    as (bp' & Hg & Hwf' & Ht & Hd & Hpin & Hother).
  exists bp'. unfold getPage. rewrite Hg. by split_and!.
Qed.

Lemma load_resident tb f d :
  BufferPool.data_at (buffer_pool tb) f = Some d → load f tb = Ok d tb.
Proof.
  unfold load, BufferPool.data_at.
  destruct (BufferPool.frames (buffer_pool tb) !! f); [|done]. by intros [= ->].
Qed.

Lemma releasePage_resident bp p :
  BufferPool.wf bp →
  same_view bp (BufferPool.releasePage bp p) ∧
  (∀ f, BufferPool.page_table bp !! p = Some f →
        BufferPool.pinned_at (BufferPool.releasePage bp p) f = Some false) ∧
  (∀ g, BufferPool.page_table bp !! p ≠ Some g →
        BufferPool.pinned_at (BufferPool.releasePage bp p) g = BufferPool.pinned_at bp g).
Proof.
  intros Hwf.
  destruct (BufferPoolFacts.releasePage_view bp p Hwf) as (? & ? & ? & ? & ?).
  by split_and!.
Qed.

Lemma off_chain_cons bp p d l g :
  off_chain bp ((p, d) :: l) g ↔
  BufferPool.page_table bp !! p ≠ Some g ∧ off_chain bp l g.
Proof.
  unfold off_chain. simpl. split.
  - intros H. split; [apply H; by left|]. intros q Hq. apply H. by right.
  - intros [H1 H2] q [->|Hq]%elem_of_cons; [done|by apply H2].
Qed.

#[local] Ltac tsimpl :=
  unfold with_pool, with_next_ids, with_first_page_id, with_indexes;
  cbn [name schema first_page_id next_page_id next_tuple_id buffer_pool indexes].

#[local] Ltac tsimpl_all :=
  unfold with_pool, with_next_ids, with_first_page_id, with_indexes in *;
  cbn [name schema first_page_id next_page_id next_tuple_id buffer_pool indexes] in *.

#[local] Ltac mrun :=
  repeat first
    [ rewrite bind_run
    | progress cbn [bind get_state modify mret M_ret try]
    | progress tsimpl ].

#[local] Ltac mstep H := rewrite bind_run, H; cbn [bind].

(* The walk of getTupleCount: it returns the sum of the tuple counts, every
   page keeps its frame and its bytes, every page of the chain is left
   pinned, and the frames off the chain keep their pin flag. *)
Lemma count_walk_spec bp0 p l :
  chain bp0 p l → ∀ fuel tb count,
  (length l < fuel)%nat →
  BufferPool.page_table (buffer_pool tb) !! 0 = None →
  same_view bp0 (buffer_pool tb) →
  ∃ n bp', count_walk fuel p count tb = Ok n (with_pool bp' tb) ∧
           count_pages l.*2 count = inr n ∧
           same_view bp0 bp' ∧
           (∀ q, q ∈ l.*1 → is_pinned_page bp' q = true) ∧
           (∀ g, off_chain bp0 l g →
                 BufferPool.pinned_at bp' g = BufferPool.pinned_at (buffer_pool tb) g).
Proof.
  intros Hc. pose proof (chain_NoDup _ _ _ Hc) as Hnd.
  induction Hc as [|p d h l Hp Hd Hh Hc IH]; intros fuel tb count Hfuel H0 Hv.
  - destruct fuel as [|fuel]; [simpl in Hfuel; lia|].
    exists count, (buffer_pool tb). split_and!; try done.
    + cbn [count_walk]. rewrite decide_True by done. by destruct tb.
    + by intros q ?%elem_of_nil.
  - destruct fuel as [|fuel]; [simpl in Hfuel; lia|]. simpl in Hfuel.
    simpl in Hnd. apply NoDup_cons in Hnd as [Hnotin Hnd].
    cbn [count_walk]. rewrite decide_False by done.
    rewrite <-(page_data_same_view _ _ _ Hv) in Hd.
    apply page_data_Some in Hd as (f & Hpf & Hdf).
    destruct Hv as (Hwf & Ht & Hdat).
    destruct (getPage_resident tb p f Hwf Hpf) as (bp1 & Hg & Hv1 & Hpin1 & Hoth1).
    mstep Hg.
    assert (BufferPool.data_at bp1 f = Some d) as Hdf1.
    { destruct Hv1 as (_ & _ & Hd1). by rewrite Hd1. }
    rewrite bind_run, (load_resident (with_pool bp1 tb) f d Hdf1). cbn [bind].
    rewrite bind_run, Hh. cbn [try bind].
    rewrite bind_run. cbn [releasePage modify bind buffer_pool with_pool].
    set (bp2 := BufferPool.releasePage bp1 (next_page h)).
    destruct (releasePage_resident bp1 (next_page h) (proj1 Hv1)) as (Hv2 & Hrel & Hoth2).
    fold bp2 in Hv2, Hrel, Hoth2.
    assert (same_view bp0 bp2) as Hv02.
    { eapply same_view_trans; [|exact Hv2].
      eapply same_view_trans; [|exact Hv1]. by split_and!. }
    assert (with_pool bp2 (with_pool bp1 tb) = with_pool bp2 tb) as -> by done.
    destruct (IH Hnd fuel (with_pool bp2 tb) ((count + tuple_count h) mod 2 ^ 64))
      as (n & bp' & Hrun & Hcount & Hv' & Hpins & Hoff).
    { lia. }
    { simpl. destruct Hv02 as (_ & -> & _). by rewrite <-Ht. }
    { done. }
    exists n, bp'. split_and!.
    + rewrite Hrun. by destruct tb.
    + simpl. by rewrite Hh.
    + done.
    + assert (BufferPool.pinned_at bp' f = Some true) as Hpinf.
      { rewrite Hoff; cbn [buffer_pool with_pool].
        - rewrite Hoth2; [done|].
          intros Hnext. destruct (decide (next_page h = 0)) as [Hz|Hnz].
          + rewrite Hz in Hnext. destruct Hv1 as (_ & Ht1 & _). congruence.
          + destruct (chain_head _ _ _ Hc Hnz) as (d' & l' & ->).
            apply Hnotin. simpl. apply elem_of_cons. left.
            destruct Hv1 as (Hwf1 & Ht1 & _).
            rewrite <-Ht1 in Hpf. by eapply (frame_injective bp1).
        - intros q Hq Hqf. apply Hnotin.
          assert (q ≠ 0) as Hq0.
          { intros ->. rewrite <-Ht in Hqf. congruence. }
          rewrite <-Ht in Hqf.
          by rewrite (frame_injective _ _ _ _ Hwf Hp Hq0 Hpf Hqf). }
      intros q [->|Hq]%elem_of_cons; [|by apply Hpins].
      eapply is_pinned_page_true; [|exact Hpinf].
      destruct Hv' as (_ & -> & _). by rewrite <-Ht.
    + intros g [Hgp Hgl]%off_chain_cons. rewrite (Hoff g Hgl).
      cbn [buffer_pool with_pool].
      rewrite Hoth2; [rewrite Hoth1; [done|]|].
      * intros ->. rewrite Ht in Hpf. congruence.
      * intros Hnext. destruct (decide (next_page h = 0)) as [Hz|Hnz].
        -- rewrite Hz in Hnext. destruct Hv1 as (_ & Ht1 & _). congruence.
        -- destruct (chain_head _ _ _ Hc Hnz) as (d' & l' & ->).
           apply (Hgl (next_page h)); [simpl; by left|].
           destruct Hv1 as (_ & Ht1 & _). congruence.
Qed.

(* The scan returns the tuples of the pages of the chain, in chain order. *)
Lemma select_walk_spec bp0 p l :
  chain bp0 p l → ∀ fuel tb acc,
  (length l < fuel)%nat →
  same_view bp0 (buffer_pool tb) →
  returned (select_walk fuel p acc tb)
    = (λ tuples, acc ++ tuples) <$> to_option (scan_pages (schema tb) l.*2).
Proof.
  intros Hc. induction Hc as [|p d h l Hp Hd Hh Hc IH]; intros fuel tb acc Hfuel Hv.
  - destruct fuel as [|fuel]; [simpl in Hfuel; lia|].
    cbn [select_walk]. rewrite decide_True by done. simpl. by rewrite app_nil_r.
  - destruct fuel as [|fuel]; [simpl in Hfuel; lia|]. simpl in Hfuel.
    cbn [select_walk]. rewrite decide_False by done.
    rewrite <-(page_data_same_view _ _ _ Hv) in Hd.
    apply page_data_Some in Hd as (f & Hpf & Hdf).
    pose proof Hv as (Hwf & Ht & Hdat).
    destruct (getPage_resident tb p f Hwf Hpf) as (bp1 & Hg & Hv1 & _ & _).
    assert (BufferPool.data_at bp1 f = Some d) as Hdf1.
    { destruct Hv1 as (_ & _ & Hd1). by rewrite Hd1. }
    rewrite bind_run. unfold readTuplesFromPage.
    mstep Hg.
    rewrite bind_run, (load_resident (with_pool bp1 tb) f d Hdf1). cbn [bind].
    rewrite bind_run, Hh. cbn [try bind].
    rewrite bind_run. cbn [get_state bind].
    rewrite bind_run. cbn [schema with_pool fmap list_fmap snd scan_pages].
    unfold page_tuples. rewrite Hh. cbn [res_bind].
    destruct (read_tuples (schema tb) d (Z.to_nat (tuple_count h)) PAGE_HEADER_SIZE)
      as [e|tuples] eqn:Hrd; cbn [try bind]; [done|].
    rewrite bind_run. cbn [releasePage modify bind mret M_ret buffer_pool with_pool].
    set (bp2 := BufferPool.releasePage bp1 p).
    destruct (releasePage_resident bp1 p (proj1 Hv1)) as (Hv2 & _ & _). fold bp2 in Hv2.
    assert (with_pool bp2 (with_pool bp1 tb) = with_pool bp2 tb) as -> by done.
    assert (BufferPool.page_table bp2 !! p = Some f) as Hpf2.
    { destruct Hv2 as (_ & -> & _). destruct Hv1 as (_ & -> & _). done. }
    destruct (getPage_resident (with_pool bp2 tb) p f (proj1 Hv2) Hpf2)
      as (bp3 & Hg3 & Hv3 & _ & _).
    cbn [buffer_pool with_pool] in Hv3.
    assert (with_pool bp3 (with_pool bp2 tb) = with_pool bp3 tb) as Hwp by done.
    rewrite Hwp in Hg3. mstep Hg3.
    assert (BufferPool.data_at bp3 f = Some d) as Hdf3.
    { destruct Hv3 as (_ & _ & Hd3). destruct Hv2 as (_ & _ & Hd2).
      by rewrite Hd3, Hd2. }
    rewrite bind_run, (load_resident (with_pool bp3 tb) f d Hdf3). cbn [bind].
    rewrite bind_run, Hh. cbn [try bind].
    rewrite bind_run. cbn [releasePage modify bind buffer_pool with_pool].
    set (bp4 := BufferPool.releasePage bp3 p).
    destruct (releasePage_resident bp3 p (proj1 Hv3)) as (Hv4 & _ & _). fold bp4 in Hv4.
    assert (with_pool bp4 (with_pool bp3 tb) = with_pool bp4 tb) as -> by done.
    rewrite (IH fuel (with_pool bp4 tb) (acc ++ tuples)); [..|lia|].
    + cbn [schema with_pool].
      destruct (scan_pages (schema tb) l.*2) as [e|rest]; cbn; [done|].
      by rewrite app_assoc.
    + cbn [buffer_pool with_pool].
      eapply same_view_trans; [|exact Hv4].
      eapply same_view_trans; [|exact Hv3].
      eapply same_view_trans; [|exact Hv2].
      eapply same_view_trans; [|exact Hv1]. exact Hv.
Qed.

Lemma selectAll_spec tb l fuel :
  table_ok tb l → (length l < fuel)%nat →
  returned (selectAll fuel tb) = to_option (scan_pages (schema tb) l.*2).
Proof.
  intros [Hwf H0 Hc] Hfuel. unfold selectAll. rewrite bind_run. cbn [get_state bind].
  rewrite (select_walk_spec _ _ _ Hc); [|done|by apply same_view_refl].
  by destruct (scan_pages (schema tb) l.*2).
Qed.

#[local] Opaque le_bytes le_value.

Lemma page_header_roundtrip d h :
  (PAGE_HEADER_SIZE <= length d)%nat →
  ∃ d', write_page_header d h = inr d' ∧ length d' = length d ∧
        read_page_header d' =
          inr (mkPageHeader (page_id h mod 2 ^ 32) (free_space h mod 2 ^ 32)
                            (tuple_count h mod 2 ^ 32) (next_page h mod 2 ^ 32)).
Proof.
  intros Hlen. unfold write_page_header, read_page_header.
  change PAGE_HEADER_SIZE with 16%nat in *.
  assert (length (encode_page_header h) = 16%nat) as Hh.
  { unfold encode_page_header. by rewrite !length_app, !CodecFacts.length_le_bytes. }
  destruct (CodecFacts.split_buffer d 0 16 ltac:(simpl; lia))
    as (pre & old & post & -> & Hpre & Hold).
  apply nil_length_inv in Hpre as ->. cbn [app].
  pose proof (CodecFacts.write_bytes_app [] old post (encode_page_header h)) as Hw.
  cbn [app length] in Hw. rewrite Hw by lia.
  cbn [of_option]. eexists. split; [done|]. split.
  - rewrite !length_app. lia.
  - pose proof (CodecFacts.read_bytes_app [] (encode_page_header h) post) as Hr.
    cbn [app length] in Hr. rewrite Hh in Hr. rewrite Hr. cbn [of_option res_bind].
    unfold encode_page_header.
    rewrite take_app_length' by (by rewrite CodecFacts.length_le_bytes).
    rewrite drop_app_length' by (by rewrite CodecFacts.length_le_bytes).
    rewrite take_app_length' by (by rewrite CodecFacts.length_le_bytes).
    rewrite (app_assoc (le_bytes 4 (page_id h))).
    rewrite drop_app_length' by (by rewrite length_app, !CodecFacts.length_le_bytes).
    rewrite take_app_length' by (by rewrite CodecFacts.length_le_bytes).
    rewrite (app_assoc (le_bytes 4 (page_id h) ++ le_bytes 4 (free_space h))).
    rewrite drop_app_length' by (by rewrite !length_app, !CodecFacts.length_le_bytes).
    by rewrite !CodecFacts.le_value_le_bytes.
Qed.

(* A page that has no room for the tuple: the call answers false and leaves
   the page unpinned. *)
Lemma insertTupleIntoPage_full tb p f d h tuple sz :
  BufferPool.wf (buffer_pool tb) →
  BufferPool.page_table (buffer_pool tb) !! p = Some f →
  BufferPool.data_at (buffer_pool tb) f = Some d →
  read_page_header d = inr h →
  getTupleSize (schema tb) tuple = inr sz →
  Z.of_nat sz > free_space h →
  ∃ bp', insertTupleIntoPage p tuple tb = Ok false (with_pool bp' tb) ∧
         same_view (buffer_pool tb) bp' ∧
         BufferPool.pinned_at bp' f = Some false ∧
         (∀ g, g ≠ f → BufferPool.pinned_at bp' g
                       = BufferPool.pinned_at (buffer_pool tb) g).
Proof.
  intros Hwf Hpf Hdf Hh Hsz Hbig.
  destruct (getPage_resident tb p f Hwf Hpf) as (bp1 & Hg & Hv1 & Hpin1 & Hoth1).
  assert (BufferPool.data_at bp1 f = Some d) as Hdf1.
  { destruct Hv1 as (_ & _ & Hd1). by rewrite Hd1. }
  unfold insertTupleIntoPage. mstep Hg.
  rewrite bind_run, (load_resident (with_pool bp1 tb) f d Hdf1). cbn [bind].
  rewrite bind_run, Hh. cbn [try bind].
  rewrite bind_run. cbn [get_state bind].
  rewrite bind_run. cbn [schema with_pool]. rewrite Hsz. cbn [try bind].
  rewrite decide_True by done.
  rewrite bind_run. cbn [releasePage modify bind mret M_ret buffer_pool with_pool].
  destruct (releasePage_resident bp1 p (proj1 Hv1)) as (Hv2 & Hrel & Hoth2).
  eexists. split; [done|]. split_and!.
  - by eapply same_view_trans.
  - apply Hrel. by destruct Hv1 as (_ & -> & _).
  - intros g Hne. rewrite Hoth2, Hoth1; [done..|].
    destruct Hv1 as (_ & -> & _). congruence.
Qed.

Section WithDoubleFormat.
Variable fmt : Z → string.

(* The walk of insertTuple when no page of the chain has room: it gets to
   the end of the chain, and every page of the chain is left pinned. *)
Lemma insert_walk_full bp0 p l tuple sz :
  chain bp0 p l →
  (∀ q d h, (q, d) ∈ l → read_page_header d = inr h → Z.of_nat sz > free_space h) →
  ∀ fuel tb,
  (length l < fuel)%nat →
  BufferPool.page_table (buffer_pool tb) !! 0 = None →
  same_view bp0 (buffer_pool tb) →
  getTupleSize (schema tb) tuple = inr sz →
  ∃ bp', insert_walk fmt fuel p tuple tb = Ok None (with_pool bp' tb) ∧
         same_view bp0 bp' ∧
         (∀ q, q ∈ l.*1 → is_pinned_page bp' q = true) ∧
         (∀ g, off_chain bp0 l g →
               BufferPool.pinned_at bp' g = BufferPool.pinned_at (buffer_pool tb) g).
Proof.
  intros Hc. pose proof (chain_NoDup _ _ _ Hc) as Hnd.
  induction Hc as [|p d h l Hp Hd Hh Hc IH]; intros Hfull fuel tb Hfuel H0 Hv Hsz.
  - destruct fuel as [|fuel]; [simpl in Hfuel; lia|].
    exists (buffer_pool tb). split_and!; try done.
    + cbn [insert_walk]. rewrite decide_True by done. by destruct tb.
    + by intros q ?%elem_of_nil.
  - destruct fuel as [|fuel]; [simpl in Hfuel; lia|]. simpl in Hfuel.
    simpl in Hnd. apply NoDup_cons in Hnd as [Hnotin Hnd].
    cbn [insert_walk]. rewrite decide_False by done.
    rewrite <-(page_data_same_view _ _ _ Hv) in Hd.
    apply page_data_Some in Hd as (f & Hpf & Hdf).
    pose proof Hv as (Hwf & Ht & Hdat).
    assert (Z.of_nat sz > free_space h) as Hbig.
    { apply (Hfull p d h); [by left|done]. }
    destruct (insertTupleIntoPage_full tb p f d h tuple sz Hwf Hpf Hdf Hh Hsz Hbig)
      as (bpa & Hins & Hva & _ & Hotha).
    mstep Hins.
    assert (BufferPool.page_table bpa !! p = Some f) as Hpfa.
    { by destruct Hva as (_ & -> & _). }
    destruct (getPage_resident (with_pool bpa tb) p f (proj1 Hva) Hpfa)
      as (bp1 & Hg & Hv1 & Hpin1 & Hoth1).
    cbn [buffer_pool with_pool] in Hv1, Hoth1.
    assert (with_pool bp1 (with_pool bpa tb) = with_pool bp1 tb) as Hwp by done.
    rewrite Hwp in Hg. mstep Hg.
    assert (BufferPool.data_at bp1 f = Some d) as Hdf1.
    { destruct Hv1 as (_ & _ & Hd1). destruct Hva as (_ & _ & Hda).
      by rewrite Hd1, Hda. }
    rewrite bind_run, (load_resident (with_pool bp1 tb) f d Hdf1). cbn [bind].
    rewrite bind_run, Hh. cbn [try bind].
    rewrite bind_run. cbn [releasePage modify bind buffer_pool with_pool].
    set (bp2 := BufferPool.releasePage bp1 (next_page h)).
    destruct (releasePage_resident bp1 (next_page h) (proj1 Hv1)) as (Hv2 & Hrel & Hoth2).
    fold bp2 in Hv2, Hrel, Hoth2.
    assert (same_view (buffer_pool tb) bp1) as Hvt1 by (by eapply same_view_trans).
    assert (same_view bp0 bp2) as Hv02.
    { eapply same_view_trans; [|exact Hv2]. by eapply same_view_trans. }
    assert (with_pool bp2 (with_pool bp1 tb) = with_pool bp2 tb) as -> by done.
    assert (BufferPool.page_table bp1 = BufferPool.page_table bp0) as Ht1.
    { destruct Hvt1 as (_ & -> & _). done. }
    assert (BufferPool.page_table bp1 !! next_page h ≠ Some f) as Hnextf.
    { intros Hnext. destruct (decide (next_page h = 0)) as [Hz|Hnz].
      - rewrite Hz, Ht1, <-Ht in Hnext. congruence.
      - destruct (chain_head _ _ _ Hc Hnz) as (d' & l' & ->).
        apply Hnotin. simpl. apply elem_of_cons. left.
        rewrite Ht1, <-Ht in Hnext.
        by eapply (frame_injective (buffer_pool tb)). }
    destruct (IH Hnd) with (fuel := fuel) (tb := with_pool bp2 tb)
      as (bp' & Hrun & Hv' & Hpins & Hoff).
    { intros q d' h' Hin. apply (Hfull q d' h'). by right. }
    { lia. }
    { cbn [buffer_pool with_pool]. destruct Hv02 as (_ & -> & _). by rewrite <-Ht. }
    { done. }
    { done. }
    exists bp'. split_and!.
    + rewrite Hrun. by destruct tb.
    + done.
    + assert (BufferPool.pinned_at bp' f = Some true) as Hpinf.
      { rewrite Hoff; cbn [buffer_pool with_pool].
        - by rewrite Hoth2.
        - intros q Hq Hqf. apply Hnotin.
          assert (q ≠ 0) as Hq0.
          { intros ->. rewrite <-Ht in Hqf. congruence. }
          rewrite <-Ht in Hqf.
          by rewrite (frame_injective _ _ _ _ Hwf Hp Hq0 Hpf Hqf). }
      intros q [->|Hq]%elem_of_cons; [|by apply Hpins].
      eapply is_pinned_page_true; [|exact Hpinf].
      destruct Hv' as (_ & -> & _). by rewrite <-Ht.
    + intros g [Hgp Hgl]%off_chain_cons. rewrite (Hoff g Hgl).
      cbn [buffer_pool with_pool].
      assert (g ≠ f) as Hgf.
      { intros ->. rewrite Ht in Hpf. congruence. }
      rewrite Hoth2; [by rewrite Hoth1, Hotha|].
      intros Hnext. destruct (decide (next_page h = 0)) as [Hz|Hnz].
      * rewrite Hz, Ht1, <-Ht in Hnext. congruence.
      * destruct (chain_head _ _ _ Hc Hnz) as (d' & l' & ->).
        apply (Hgl (next_page h)); [simpl; by left|]. by rewrite <-Ht1.
Qed.

Lemma is_pinned_page_iff bp q :
  is_pinned_page bp q = true ↔
  ∃ f, BufferPool.page_table bp !! q = Some f ∧ BufferPool.pinned_at bp f = Some true.
Proof.
  unfold is_pinned_page, BufferPool.frame_of, BufferPool.pinned_at.
  destruct (BufferPool.page_table bp !! q) as [f|]; [|split; [done|by intros (? & ? & ?)]].
  split.
  - intros H. exists f. split; [done|].
    destruct (BufferPool.frames bp !! f); simpl in *; congruence.
  - intros (f' & [= <-] & H).
    destruct (BufferPool.frames bp !! f); simpl in *; congruence.
Qed.

Lemma chain_nonzero bp p l q : chain bp p l → q ∈ l.*1 → q ≠ 0.
Proof.
  intros Hc. induction Hc as [|p d h l Hp Hd Hh Hc IH]; simpl.
  - by intros ?%elem_of_nil.
  - intros [->|Hq]%elem_of_cons; [done|by apply IH].
Qed.

Lemma chain_page_data bp p l q :
  chain bp p l → q ∈ l.*1 → is_Some (page_data bp q).
Proof.
  intros Hc. induction Hc as [|p d h l Hp Hd Hh Hc IH]; simpl.
  - by intros ?%elem_of_nil.
  - intros [->|Hq]%elem_of_cons; [by eexists|by apply IH].
Qed.

(* An insert of a tuple that is larger than a page, from the point where
   the tuple has its id: the walk pins every page of the chain, a page is
   allocated in a frame off the chain, and the new page rejects the tuple
   too. The chain is left as it was, with all its pages pinned. *)
Lemma oversize_insert_new_tuple tb l tuple sz fuel :
  table_ok tb l → insert_ready tb l →
  getTupleSize (schema tb) tuple = inr sz →
  (PAGE_SIZE - PAGE_HEADER_SIZE < sz)%nat →
  (length l < fuel)%nat →
  ∃ tb' (returns : bool),
    insert_new_tuple fmt fuel tuple tb
      = (if returns then Ok false tb' else Throw NoUnpinnedFrames tb') ∧
    table_ok tb' l ∧ schema tb' = schema tb ∧
    (∀ q, q ∈ l.*1 → is_pinned_page (buffer_pool tb') q = true) ∧
    ((∃ g, BufferPool.pinned_at (buffer_pool tb) g = Some false ∧
           off_chain (buffer_pool tb) l g) →
     returns = true).
Proof.
  intros [Hwf H0 Hc] [Hfree Hfresh Hnext] Hsz Hbig Hfuel.
  destruct tb as [nm sch first nextp nextt bp ix].
  cbn [buffer_pool schema first_page_id next_page_id] in *.
  unfold insert_new_tuple. rewrite bind_run. cbn [get_state bind first_page_id].
  set (tb := mkTable nm sch first nextp nextt bp ix).
  assert (∀ q d h, (q, d) ∈ l → read_page_header d = inr h →
                   Z.of_nat sz > free_space h) as Hfull.
  { intros q d h Hin Hh. specialize (Hfree q d h Hin Hh). lia. }
  destruct (insert_walk_full bp first l tuple sz Hc Hfull fuel tb Hfuel H0
              (same_view_refl _ Hwf) Hsz)
    as (bp1 & Hwalk & Hv1 & Hpins1 & Hoff1).
  mstep Hwalk. cbn [with_pool buffer_pool] in *.
  subst tb. tsimpl_all. pose proof Hv1 as (Hwf1 & Ht1 & Hd1).
  (* allocateNewPage *)
  unfold allocateNewPage. mrun.
  unfold getPage at 1. mrun.
  assert (BufferPool.page_table bp1 !! nextp = None) as Hfresh1 by (by rewrite Ht1).
  destruct (BufferPoolFacts.getPage_miss_view bp1 nextp Hwf1 Hfresh1)
    as [(bp2 & Hg & Hwf2 & Ht2 & Hd2 & Hp2 & Hall)
       |(v & bp2 & d0 & Hg & Hwf2 & Hunp & Htv & Hdv & Hlen & Hpinv & Hd2 & Hp2 & Ht2 & Ht2n)].
  - (* every frame is pinned: the exception leaves the walk's state *)
    rewrite Hg. mrun.
    eexists _, false. split; [reflexivity|]. tsimpl.
    split_and!.
    + split; tsimpl; [done|by rewrite Ht2, Ht1|].
      apply (chain_same_view bp); [|done].
      eapply same_view_trans; [exact Hv1|]. by split_and!.
    + done.
    + intros q Hq. apply is_pinned_page_iff.
      destruct (proj1 (is_pinned_page_iff bp1 q) (Hpins1 q Hq)) as (f & Hqf & Hpf).
      exists f. by rewrite Ht2, Hp2.
    + intros (g & Hg0 & Hoff). exfalso.
      assert (BufferPool.pinned_at bp1 g = Some true) as Habs.
      { apply Hall. rewrite <-(Hoff1 g Hoff) in Hg0.
        unfold BufferPool.pinned_at in Hg0.
        destruct (BufferPool.frames bp1 !! g); [by eexists|done]. }
      rewrite (Hoff1 g Hoff) in Habs. congruence.
  - (* the new page goes to the unpinned frame v *)
    rewrite Hg. mrun.
    set (tb2 := mkTable nm sch first ((nextp + 1) mod 2 ^ 32) nextt bp2 ix).
    rewrite (load_resident tb2 v d0 Hdv). cbn [bind].
    destruct (page_header_roundtrip d0
                (mkPageHeader nextp (Z.of_nat (PAGE_SIZE - PAGE_HEADER_SIZE)) 0 0))
      as (d1 & Hw & Hlen1 & Hr).
    { rewrite Hlen. unfold PAGE_SIZE, PAGE_HEADER_SIZE. lia. }
    rewrite Hw. subst tb2. unfold store, markDirty, releasePage at 1. mrun.
    assert (is_Some (BufferPool.frames bp2 !! v)) as Hvs.
    { unfold BufferPool.data_at in Hdv.
      destruct (BufferPool.frames bp2 !! v); [by eexists|done]. }
    destruct (BufferPoolFacts.storeData_view bp2 v d1 Hwf2 Hvs)
      as (Hwf3 & Ht3 & Hdv3 & Hd3 & Hp3).
    set (bp3 := BufferPool.storeData bp2 v d1) in *.
    destruct (BufferPoolFacts.markDirty_view bp3 nextp Hwf3) as (Hwf4 & Ht4 & Hd4 & Hp4).
    set (bp4 := BufferPool.markDirty bp3 nextp) in *.
    destruct (BufferPoolFacts.releasePage_view bp4 nextp Hwf4)
      as (Hwf5 & Ht5 & Hd5 & Hrel5 & Hp5).
    set (bp5 := BufferPool.releasePage bp4 nextp) in *.
    set (tb5 := mkTable nm sch first ((nextp + 1) mod 2 ^ 32) nextt bp5 ix).
    assert (BufferPool.page_table bp5 !! nextp = Some v) as Htv5.
    { by rewrite Ht5, Ht4, Ht3. }
    assert (BufferPool.data_at bp5 v = Some d1) as Hdv5.
    { by rewrite Hd5, Hd4. }
    destruct (insertTupleIntoPage_full tb5 nextp v d1 _ tuple sz Hwf5 Htv5 Hdv5 Hr Hsz)
      as (bp6 & Hins & Hv6 & Hpin6 & Hoth6).
    { cbn [free_space]. rewrite Z.mod_small; unfold PAGE_SIZE, PAGE_HEADER_SIZE in *; lia. }
    rewrite Hins. mrun.
    subst tb5. cbn [with_pool name schema first_page_id next_page_id
      next_tuple_id indexes buffer_pool] in *.
    destruct Hv6 as (Hwf6 & Ht6 & Hd6).
    (* the frames of the chain are pinned, so none of them is v *)
    assert (∀ q, q ∈ l.*1 →
              ∃ f, BufferPool.page_table bp !! q = Some f ∧ f ≠ v ∧
                   BufferPool.pinned_at bp1 f = Some true ∧
                   BufferPool.page_table bp6 !! q = Some f) as Hframes.
    { intros q Hq.
      destruct (proj1 (is_pinned_page_iff bp1 q) (Hpins1 q Hq)) as (f & Hqf & Hpf).
      assert (f ≠ v) as Hfv by (intros ->; congruence).
      exists f. split_and!; [by rewrite <-Ht1|done|done|].
      rewrite Ht6, Ht5, Ht4, Ht3. apply Ht2; try done.
      - by eapply chain_nonzero.
      - intros ->. congruence. }
    eexists _, true. split; [reflexivity|]. tsimpl.
    split_and!.
    + split; tsimpl; [done| |].
      * rewrite Ht6, Ht5, Ht4, Ht3. apply Ht2n; [|by rewrite Ht1]. congruence.
      * apply (chain_ext bp); [|done]. intros q Hq.
        destruct (Hframes q Hq) as (f & Hqf & Hfv & _ & Hqf6).
        unfold page_data. rewrite Hqf, Hqf6.
        by rewrite Hd6, Hd5, Hd4, Hd3, Hd2, Hd1.
    + done.
    + intros q Hq. apply is_pinned_page_iff.
      destruct (Hframes q Hq) as (f & Hqf & Hfv & Hpf & Hqf6).
      exists f. split; [done|].
      rewrite Hoth6 by done. rewrite Hp5.
      * by rewrite Hp4, Hp3, Hp2.
      * rewrite Ht4, Ht3, Htv. congruence.
    + done.
Qed.

Lemma getTupleSize_values sch t1 t2 :
  values t1 = values t2 → getTupleSize sch t1 = getTupleSize sch t2.
Proof. unfold getTupleSize. by intros ->. Qed.

(* [insertTuple] is [insert_new_tuple] on a table that differs in the tuple
   id counter at most, for a tuple with the same values. *)
Lemma insertTuple_unfold tb tuple fuel :
  ∃ tb0 new_tuple,
    insertTuple fmt fuel tuple tb = insert_new_tuple fmt fuel new_tuple tb0 ∧
    values new_tuple = values tuple ∧
    buffer_pool tb0 = buffer_pool tb ∧ schema tb0 = schema tb ∧
    first_page_id tb0 = first_page_id tb ∧ next_page_id tb0 = next_page_id tb.
Proof.
  unfold insertTuple. rewrite bind_run. cbn [get_state bind]. rewrite bind_run.
  destruct (decide (id tuple = 0)).
  - rewrite bind_run. cbn [modify bind mret M_ret]. eexists _, _. split; [done|]. done.
  - cbn [bind mret M_ret]. eexists _, _. split; [done|]. done.
Qed.

(* Where oversize tuples are rejected. In a table whose chain is resident
   and well formed and whose pages claim no more free space than a page
   has, an insert of a tuple that [getTupleSize] sizes above the 4080
   bytes of an empty page does not succeed: it answers false, or it raises
   "no unpinned frames" when the walk has pinned the last free frame; it
   answers false whenever a frame off the chain is unpinned. In each case
   a full scan afterwards returns what a full scan before the attempt
   returns. *)
Lemma oversize_insert_fails tb l tuple sz fuel :
  table_ok tb l → insert_ready tb l →
  getTupleSize (schema tb) tuple = inr sz →
  (PAGE_SIZE - PAGE_HEADER_SIZE < sz)%nat →
  (length l < fuel)%nat →
  (returned (insertTuple fmt fuel tuple tb) = Some false ∨
   ∃ tb', insertTuple fmt fuel tuple tb = Throw NoUnpinnedFrames tb') ∧
  ((∃ g, BufferPool.pinned_at (buffer_pool tb) g = Some false ∧
         off_chain (buffer_pool tb) l g) →
   returned (insertTuple fmt fuel tuple tb) = Some false) ∧
  ∀ fuel', (length l < fuel')%nat →
    returned (selectAll fuel' (final_state (insertTuple fmt fuel tuple tb)))
      = returned (selectAll fuel' tb).
Proof.
  intros Hok Hready Hsz Hbig Hfuel.
  destruct (insertTuple_unfold tb tuple fuel)
    as (tb0 & nt & -> & Hvals & Hbp & Hsch & Hfirst & Hnextp).
  assert (table_ok tb0 l) as Hok0.
  { destruct Hok as [Hwf H0 Hc]. split; by rewrite ?Hbp, ?Hfirst. }
  assert (insert_ready tb0 l) as Hready0.
  { destruct Hready as [Hfree Hfresh Hnext]. split; by rewrite ?Hbp, ?Hnextp. }
  assert (getTupleSize (schema tb0) nt = inr sz) as Hsz0.
  { by rewrite Hsch, (getTupleSize_values _ nt tuple Hvals). }
  destruct (oversize_insert_new_tuple tb0 l nt sz fuel Hok0 Hready0 Hsz0 Hbig Hfuel)
    as (tb' & returns & -> & Hok' & Hsch' & _ & Hfree).
  rewrite Hbp in Hfree. split_and!.
  - destruct returns; [by left|right; by eexists].
  - intros Hg. by rewrite (Hfree Hg).
  - intros fuel' Hfuel'.
    assert (final_state (if returns then Ok false tb'
                         else @Throw t bool NoUnpinnedFrames tb') = tb') as ->.
    { by destruct returns. }
    rewrite (selectAll_spec tb' l fuel' Hok' Hfuel').
    rewrite (selectAll_spec tb l fuel' Hok Hfuel').
    by rewrite Hsch', Hsch.
Qed.

End WithDoubleFormat.

Lemma chain_of_sound fuel bp p l : chain_of fuel bp p = Some l → chain bp p l.
Proof.
  revert p l. induction fuel as [|fuel IH]; intros p l; simpl; [done|].
  destruct (decide (p = 0)) as [->|Hp]; [intros [= <-]; constructor|].
  destruct (page_data bp p) as [d|] eqn:Hd; [|done].
  destruct (read_page_header d) as [e|h] eqn:Hh; [done|].
  destruct (chain_of fuel bp (next_page h)) as [l'|] eqn:Hrec; [|done].
  intros [= <-]. econstructor; eauto.
Qed.

Lemma checked_chain_ok fuel tb l : checked_chain fuel tb = Some l → table_ok tb l.
Proof.
  unfold checked_chain.
  destruct (BufferPool.wf_check (buffer_pool tb)) eqn:Hwf; [|done].
  case_bool_decide as H0; [|done]. simpl. intros Hc. split.
  - by apply BufferPoolFacts.wf_check_sound.
  - done.
  - by eapply chain_of_sound.
Qed.

Lemma ready_check_ok tb l : ready_check tb l = true → insert_ready tb l.
Proof.
  unfold ready_check. rewrite !andb_true_iff.
  intros [[Hfree Hfresh] Hnext].
  apply bool_decide_eq_true in Hfresh, Hnext.
  rewrite forallb_forall in Hfree. split; [|done..].
  intros p d h Hin Hh. apply list_elem_of_In in Hin.
  specialize (Hfree (p, d) Hin). simpl in Hfree. rewrite Hh in Hfree.
  by apply bool_decide_eq_true in Hfree.
Qed.

(* [insertTupleIntoPage] on a page that has room for the tuple: when it
   returns, it has answered true, the page is in its frame, unpinned, and
   no other frame has changed *)
Lemma insertTupleIntoPage_room tb p f d h tuple sz ok tb' :
  BufferPool.wf (buffer_pool tb) →
  BufferPool.page_table (buffer_pool tb) !! p = Some f →
  BufferPool.data_at (buffer_pool tb) f = Some d →
  read_page_header d = inr h →
  getTupleSize (schema tb) tuple = inr sz →
  ¬ Z.of_nat sz > free_space h →
  insertTupleIntoPage p tuple tb = Ok ok tb' →
  ok = true ∧
  ∃ bp', tb' = with_pool bp' tb ∧ BufferPool.wf bp' ∧
         BufferPool.page_table bp' = BufferPool.page_table (buffer_pool tb) ∧
         BufferPool.pinned_at bp' f = Some false ∧
         (∀ g, g ≠ f → BufferPool.pinned_at bp' g
                       = BufferPool.pinned_at (buffer_pool tb) g) ∧
         (∀ g, g ≠ f → BufferPool.data_at bp' g
                       = BufferPool.data_at (buffer_pool tb) g).
Proof.
  intros Hwf Hpf Hdf Hh Hsz Hroom.
  destruct (getPage_resident tb p f Hwf Hpf) as (bp1 & Hg & Hv1 & Hpin1 & Hoth1).
  destruct Hv1 as (Hwf1 & Htab1 & Hdata1).
  assert (BufferPool.data_at bp1 f = Some d) as Hdf1 by (by rewrite Hdata1).
  unfold insertTupleIntoPage. mstep Hg.
  rewrite bind_run, (load_resident (with_pool bp1 tb) f d Hdf1). cbn [bind].
  rewrite bind_run, Hh. cbn [try bind].
  rewrite bind_run. cbn [get_state bind].
  rewrite bind_run. cbn [schema with_pool]. rewrite Hsz. cbn [try bind].
  rewrite decide_False by done.
  rewrite bind_run.
  destruct (skip_tuples d _ _) as [e|offset]; cbn [try bind]; [done|].
  rewrite bind_run.
  destruct (serializeTuple _ tuple d offset) as [e|[d1 written]]; cbn [try bind]; [done|].
  rewrite bind_run.
  destruct (write_page_header d1 _) as [e|d2]; cbn [try bind]; [done|].
  unfold store, markDirty, releasePage. mrun.
  assert (is_Some (BufferPool.frames bp1 !! f)) as Hf1.
  { unfold BufferPool.data_at in Hdf1. by destruct (BufferPool.frames bp1 !! f). }
  destruct (BufferPoolFacts.storeData_view bp1 f d2 Hwf1 Hf1)
    as (Hwf2 & Htab2 & Hd2 & Hdo2 & Hp2).
  destruct (BufferPoolFacts.markDirty_view _ p Hwf2) as (Hwf3 & Htab3 & Hd3 & Hp3).
  destruct (BufferPoolFacts.releasePage_view _ p Hwf3) as (Hwf4 & Htab4 & Hd4 & Hp4 & Hpo4).
  intros [= <- <-]. split; [done|].
  eexists. split; [reflexivity|]. split_and!.
  - done.
  - by rewrite Htab4, Htab3, Htab2, Htab1.
  - apply Hp4. by rewrite Htab3, Htab2, Htab1.
  - intros g Hg'. rewrite Hpo4, Hp3, Hp2, Hoth1; [done..|].
    rewrite Htab3, Htab2, Htab1. congruence.
  - intros g Hg'. by rewrite Hd4, Hd3, Hdo2, Hdata1.
Qed.

(* the walk advances past every page of the chain exactly when no page has
   room *)
Lemma walked_past_all bp p l sz :
  chain bp p l → walked_past sz l = l.*1 →
  ∀ q d h, (q, d) ∈ l → read_page_header d = inr h → sz > free_space h.
Proof.
  intros Hc. induction Hc as [|p d h l Hp Hd Hh Hc IH]; [by intros _ q d h ?%elem_of_nil|].
  cbn [walked_past fmap list_fmap fst]. rewrite Hh.
  destruct (decide (sz > free_space h)) as [Hbig|]; [|done].
  intros [= Hrest] q d' h' [[= -> ->]|Hin]%elem_of_cons Hh'.
  - congruence.
  - by apply (IH Hrest q d' h').
Qed.

Lemma walked_past_sub sz l q : q ∈ walked_past sz l → q ∈ l.*1.
Proof.
  induction l as [|[p d] l IH]; cbn [walked_past fmap list_fmap fst]; [done|].
  destruct (read_page_header d) as [e|h]; [by intros ?%elem_of_nil|].
  destruct (decide _); [|by intros ?%elem_of_nil].
  intros [->|Hq]%elem_of_cons; [by left|right; by apply IH].
Qed.

Section WithDoubleFormat2.
Variable fmt : Z → string.

(* The walk of insertTuple when some page of the chain has room: when it
   returns, that page has taken the tuple, every page before it is left
   pinned, and the frames off the chain keep their pin flag. *)
Lemma insert_walk_room bp0 p l tuple sz :
  chain bp0 p l →
  ∀ fuel tb r tb',
  (length l < fuel)%nat →
  BufferPool.page_table (buffer_pool tb) !! 0 = None →
  same_view bp0 (buffer_pool tb) →
  getTupleSize (schema tb) tuple = inr sz →
  walked_past (Z.of_nat sz) l ≠ l.*1 →
  insert_walk fmt fuel p tuple tb = Ok r tb' →
  r = Some true ∧
  BufferPool.wf (buffer_pool tb') ∧
  BufferPool.page_table (buffer_pool tb') = BufferPool.page_table bp0 ∧
  (∀ q, q ∈ walked_past (Z.of_nat sz) l →
        is_pinned_page (buffer_pool tb') q = true) ∧
  (∀ g, off_chain bp0 l g →
        BufferPool.pinned_at (buffer_pool tb') g
          = BufferPool.pinned_at (buffer_pool tb) g).
Proof.
  intros Hc. pose proof (chain_NoDup _ _ _ Hc) as Hnd.
  induction Hc as [|p d h l Hp Hd Hh Hc IH];
    intros fuel tb r tb' Hfuel H0 Hv Hsz Hsome Hrun; [done|].
  destruct fuel as [|fuel]; [simpl in Hfuel; lia|]. simpl in Hfuel.
  simpl in Hnd. apply NoDup_cons in Hnd as [Hnotin Hnd].
  cbn [insert_walk] in Hrun. rewrite decide_False in Hrun by done.
  rewrite <-(page_data_same_view _ _ _ Hv) in Hd.
  apply page_data_Some in Hd as (f & Hpf & Hdf).
  pose proof Hv as (Hwf & Ht & Hdat).
  cbn [walked_past fmap list_fmap fst] in Hsome |- *. rewrite Hh in Hsome |- *.
  destruct (decide (Z.of_nat sz > free_space h)) as [Hbig|Hroom].
  - (* the page is full: the walk goes on, and leaves it pinned *)
    destruct (insertTupleIntoPage_full tb p f d h tuple sz Hwf Hpf Hdf Hh Hsz Hbig)
      as (bpa & Hins & Hva & _ & Hotha).
    rewrite bind_run, Hins in Hrun. cbn [bind] in Hrun.
    assert (BufferPool.page_table bpa !! p = Some f) as Hpfa.
    { by destruct Hva as (_ & -> & _). }
    destruct (getPage_resident (with_pool bpa tb) p f (proj1 Hva) Hpfa)
      as (bp1 & Hg & Hv1 & Hpin1 & Hoth1).
    cbn [buffer_pool with_pool] in Hv1, Hoth1.
    assert (with_pool bp1 (with_pool bpa tb) = with_pool bp1 tb) as Hwp by done.
    rewrite Hwp in Hg. rewrite bind_run, Hg in Hrun. cbn [bind] in Hrun.
    assert (BufferPool.data_at bp1 f = Some d) as Hdf1.
    { destruct Hv1 as (_ & _ & Hd1). destruct Hva as (_ & _ & Hda).
      by rewrite Hd1, Hda. }
    rewrite bind_run, (load_resident (with_pool bp1 tb) f d Hdf1) in Hrun.
    cbn [bind] in Hrun.
    rewrite bind_run, Hh in Hrun. cbn [try bind] in Hrun.
    rewrite bind_run in Hrun.
    cbn [releasePage modify bind buffer_pool with_pool] in Hrun.
    set (bp2 := BufferPool.releasePage bp1 (next_page h)) in *.
    destruct (releasePage_resident bp1 (next_page h) (proj1 Hv1)) as (Hv2 & Hrel & Hoth2).
    fold bp2 in Hv2, Hrel, Hoth2.
    assert (same_view (buffer_pool tb) bp1) as Hvt1 by (by eapply same_view_trans).
    assert (same_view bp0 bp2) as Hv02.
    { eapply same_view_trans; [|exact Hv2]. by eapply same_view_trans. }
    assert (with_pool bp2 (with_pool bp1 tb) = with_pool bp2 tb) as Hwp2 by done.
    rewrite Hwp2 in Hrun.
    assert (BufferPool.page_table bp1 = BufferPool.page_table bp0) as Ht1.
    { destruct Hvt1 as (_ & -> & _). done. }
    assert (BufferPool.page_table bp1 !! next_page h ≠ Some f) as Hnextf.
    { intros Hnext. destruct (decide (next_page h = 0)) as [Hz|Hnz].
      - rewrite Hz, Ht1, <-Ht in Hnext. congruence.
      - destruct (chain_head _ _ _ Hc Hnz) as (d' & l' & ->).
        apply Hnotin. simpl. apply elem_of_cons. left.
        rewrite Ht1, <-Ht in Hnext.
        by eapply (frame_injective (buffer_pool tb)). }
    destruct (IH Hnd fuel (with_pool bp2 tb) r tb')
      as (Hr & Hwf' & Ht' & Hpins & Hoff).
    { lia. }
    { cbn [buffer_pool with_pool]. destruct Hv02 as (_ & -> & _). by rewrite <-Ht. }
    { done. }
    { done. }
    { intros Heq. apply Hsome. by rewrite Heq. }
    { done. }
    split_and!; [done|done|done| |].
    + assert (BufferPool.pinned_at (buffer_pool tb') f = Some true) as Hpinf.
      { rewrite Hoff; cbn [buffer_pool with_pool].
        - by rewrite Hoth2.
        - intros q Hq Hqf. apply Hnotin.
          assert (q ≠ 0) as Hq0.
          { intros ->. rewrite <-Ht in Hqf. congruence. }
          rewrite <-Ht in Hqf.
          by rewrite (frame_injective _ _ _ _ Hwf Hp Hq0 Hpf Hqf). }
      intros q [->|Hq]%elem_of_cons; [|by apply Hpins].
      eapply is_pinned_page_true; [|exact Hpinf].
      rewrite Ht'. by rewrite <-Ht.
    + intros g [Hgp Hgl]%off_chain_cons. rewrite (Hoff g Hgl).
      cbn [buffer_pool with_pool].
      assert (g ≠ f) as Hgf.
      { intros ->. rewrite Ht in Hpf. congruence. }
      rewrite Hoth2; [by rewrite Hoth1, Hotha|].
      intros Hnext. destruct (decide (next_page h = 0)) as [Hz|Hnz].
      * rewrite Hz, Ht1, <-Ht in Hnext. congruence.
      * destruct (chain_head _ _ _ Hc Hnz) as (d' & l' & ->).
        apply (Hgl (next_page h)); [simpl; by left|]. by rewrite <-Ht1.
  - (* the page has room: it takes the tuple *)
    rewrite bind_run in Hrun.
    destruct (insertTupleIntoPage p tuple tb) as [ok tb1|e tb1] eqn:Hins;
      cbn [bind] in Hrun; [|done].
    destruct (insertTupleIntoPage_room tb p f d h tuple sz ok tb1
                Hwf Hpf Hdf Hh Hsz Hroom Hins)
      as (-> & bp' & -> & Hwf' & Ht' & Hpin' & Hoth' & _).
    unfold updateIndexes in Hrun. rewrite !bind_run in Hrun.
    cbn [get_state bind] in Hrun. rewrite bind_run in Hrun.
    destruct (update_indexes _ _ _) as [e|ix]; cbn [try bind modify mret M_ret] in Hrun;
      [done|].
    injection Hrun as <- <-. cbn [buffer_pool with_indexes with_pool].
    split_and!; [done|done|by rewrite Ht'|by intros q ?%elem_of_nil|].
    intros g [Hgp _]%off_chain_cons. apply Hoth'.
    intros ->. rewrite Ht in Hpf. congruence.
Qed.

(* An insert from the point where the tuple has its id, when it returns:
   the pages that the walk advanced past are pinned, except the head page
   when the insert ended by linking a new page behind it; a pinned frame
   that holds no page of the chain stays pinned. *)
Lemma insert_new_tuple_pins tb l tuple sz fuel ok tb' :
  table_ok tb l → l ≠ [] →
  BufferPool.page_table (buffer_pool tb) !! next_page_id tb = None →
  next_page_id tb ≠ 0 →
  getTupleSize (schema tb) tuple = inr sz →
  (length l < fuel)%nat →
  insert_new_tuple fmt fuel tuple tb = Ok ok tb' →
  (∀ q, q ∈ walked_past (Z.of_nat sz) l →
        q ≠ first_page_id tb ∨ walked_past (Z.of_nat sz) l ≠ l.*1 ∨ ok = false →
        is_pinned_page (buffer_pool tb') q = true) ∧
  (walked_past (Z.of_nat sz) l = l.*1 → ok = true →
   is_pinned_page (buffer_pool tb') (first_page_id tb) = false) ∧
  (∀ g, off_chain (buffer_pool tb) l g →
        BufferPool.pinned_at (buffer_pool tb) g = Some true →
        BufferPool.pinned_at (buffer_pool tb') g = Some true).
Proof.
  intros [Hwf H0 Hc] Hne Hfresh Hnext Hsz Hfuel.
  destruct tb as [nm sch first nextp nextt bp ix].
  cbn [buffer_pool schema first_page_id next_page_id] in *.
  set (tb := mkTable nm sch first nextp nextt bp ix).
  destruct (decide (walked_past (Z.of_nat sz) l = l.*1)) as [Hall|Hsome].
  2:{ (* some page of the chain takes the tuple *)
    unfold insert_new_tuple. rewrite bind_run. cbn [get_state bind].
    change (first_page_id tb) with first. rewrite bind_run.
    destruct (insert_walk fmt fuel first tuple tb) as [r tb1|e tb1] eqn:Hwalk;
      cbn [bind]; [|done].
    destruct (insert_walk_room bp first l tuple sz Hc fuel tb r tb1 Hfuel H0
                (same_view_refl _ Hwf) Hsz Hsome Hwalk)
      as (-> & Hwf1 & Ht1 & Hpins & Hoff).
    cbn [mret M_ret]. intros [= <- <-]. split_and!.
    - intros q Hq _. by apply Hpins.
    - done.
    - intros g Hg Hpin. rewrite (Hoff g Hg). exact Hpin. }
  (* no page of the chain has room *)
  pose proof (walked_past_all _ _ _ _ Hc Hall) as Hfull.
  destruct (chain_head _ _ _ Hc) as (dh & l' & Hl).
  { intros ->. inversion Hc; by subst. }
  destruct (insert_walk_full fmt bp first l tuple sz Hc Hfull fuel tb Hfuel H0
              (same_view_refl _ Hwf) Hsz)
    as (bp1 & Hwalk & Hv1 & Hpins1 & Hoff1).
  unfold insert_new_tuple. rewrite bind_run. cbn [get_state bind].
  change (first_page_id tb) with first.
  mstep Hwalk. cbn [with_pool buffer_pool] in *.
  subst tb. tsimpl_all. pose proof Hv1 as (Hwf1 & Ht1 & Hd1).
  (* allocateNewPage *)
  unfold allocateNewPage. mrun.
  unfold getPage at 1. mrun.
  assert (BufferPool.page_table bp1 !! nextp = None) as Hfresh1 by (by rewrite Ht1).
  destruct (BufferPoolFacts.getPage_miss_view bp1 nextp Hwf1 Hfresh1)
    as [(bp2 & Hg & _)
       |(v & bp2 & d0 & Hg & Hwf2 & Hunp & Htv & Hdv & Hlen & Hpinv & Hd2 & Hp2 & Ht2 & Ht2n)].
  { rewrite Hg. mrun. done. }
  rewrite Hg. mrun.
  set (tb2 := mkTable nm sch first ((nextp + 1) mod 2 ^ 32) nextt bp2 ix).
  rewrite (load_resident tb2 v d0 Hdv). cbn [bind].
  destruct (page_header_roundtrip d0
              (mkPageHeader nextp (Z.of_nat (PAGE_SIZE - PAGE_HEADER_SIZE)) 0 0))
    as (d1 & Hw & Hlen1 & Hr).
  { rewrite Hlen. unfold PAGE_SIZE, PAGE_HEADER_SIZE. lia. }
  rewrite Hw. subst tb2. unfold store, markDirty, releasePage at 1. mrun.
  assert (is_Some (BufferPool.frames bp2 !! v)) as Hvs.
  { unfold BufferPool.data_at in Hdv.
    destruct (BufferPool.frames bp2 !! v); [by eexists|done]. }
  destruct (BufferPoolFacts.storeData_view bp2 v d1 Hwf2 Hvs)
    as (Hwf3 & Ht3 & Hdv3 & Hd3 & Hp3).
  set (bp3 := BufferPool.storeData bp2 v d1) in *.
  destruct (BufferPoolFacts.markDirty_view bp3 nextp Hwf3) as (Hwf4 & Ht4 & Hd4 & Hp4).
  set (bp4 := BufferPool.markDirty bp3 nextp) in *.
  destruct (BufferPoolFacts.releasePage_view bp4 nextp Hwf4)
    as (Hwf5 & Ht5 & Hd5 & Hrel5 & Hp5).
  set (bp5 := BufferPool.releasePage bp4 nextp) in *.
  set (tb5 := mkTable nm sch first ((nextp + 1) mod 2 ^ 32) nextt bp5 ix).
  assert (BufferPool.page_table bp5 !! nextp = Some v) as Htv5.
  { by rewrite Ht5, Ht4, Ht3. }
  assert (BufferPool.data_at bp5 v = Some d1) as Hdv5.
  { by rewrite Hd5, Hd4. }
  (* the frames of the chain are pinned, so none of them is v *)
  assert (∀ q, q ∈ l.*1 →
            ∃ f, BufferPool.page_table bp !! q = Some f ∧ f ≠ v ∧
                 BufferPool.pinned_at bp1 f = Some true ∧
                 BufferPool.page_table bp5 !! q = Some f ∧
                 BufferPool.pinned_at bp5 f = Some true) as Hframes.
  { intros q Hq.
    destruct (proj1 (is_pinned_page_iff bp1 q) (Hpins1 q Hq)) as (f & Hqf & Hpf).
    assert (f ≠ v) as Hfv by (intros ->; congruence).
    exists f. split_and!; [by rewrite <-Ht1|done|done| |].
    - rewrite Ht5, Ht4, Ht3. apply Ht2; try done.
      + by eapply chain_nonzero.
      + intros ->. congruence.
    - rewrite Hp5.
      + by rewrite Hp4, Hp3, Hp2.
      + rewrite Ht4, Ht3, Htv. congruence. }
  (* a pinned frame off the chain is not v either *)
  assert (∀ g, off_chain bp l g → BufferPool.pinned_at bp g = Some true →
               g ≠ v ∧ BufferPool.pinned_at bp5 g = Some true) as Hoffs.
  { intros g Hg0 Hpin. rewrite <-(Hoff1 g Hg0) in Hpin.
    assert (g ≠ v) as Hgv by (intros ->; congruence).
    split; [done|]. rewrite Hp5.
    - by rewrite Hp4, Hp3, Hp2.
    - rewrite Ht4, Ht3, Htv. congruence. }
  destruct (decide (Z.of_nat sz > Z.of_nat (PAGE_SIZE - PAGE_HEADER_SIZE))) as [Hbig|Hroom].
  - (* the new page rejects the tuple too: nothing is linked *)
    destruct (insertTupleIntoPage_full tb5 nextp v d1 _ tuple sz Hwf5 Htv5 Hdv5 Hr Hsz)
      as (bp6 & Hins & Hv6 & Hpin6 & Hoth6).
    { cbn [free_space]. rewrite Z.mod_small; unfold PAGE_SIZE, PAGE_HEADER_SIZE in *; lia. }
    rewrite Hins. mrun. intros [= <- <-].
    subst tb5. cbn [with_pool name schema first_page_id next_page_id
      next_tuple_id indexes buffer_pool] in *.
    destruct Hv6 as (Hwf6 & Ht6 & Hd6).
    split_and!.
    + intros q Hq%walked_past_sub _. apply is_pinned_page_iff.
      destruct (Hframes q Hq) as (f & Hqf & Hfv & Hpf & Hqf5 & Hpf5).
      exists f. split; [by rewrite Ht6|]. by rewrite Hoth6.
    + done.
    + intros g Hg0 Hpin. destruct (Hoffs g Hg0 Hpin) as [Hgv Hpin5].
      by rewrite Hoth6.
  - (* the new page takes the tuple and is linked behind the head page *)
    destruct (insertTupleIntoPage nextp tuple tb5) as [ok6 tb6|e tb6] eqn:Hins;
      cbn [bind]; [|done].
    destruct (insertTupleIntoPage_room tb5 nextp v d1 _ tuple sz ok6 tb6
                Hwf5 Htv5 Hdv5 Hr Hsz) as (-> & bp6 & -> & Hwf6 & Ht6 & Hpin6 & Hoth6 & Hd6);
      [|done|].
    { cbn [free_space]. rewrite Z.mod_small; unfold PAGE_SIZE, PAGE_HEADER_SIZE in *; lia. }
    subst tb5. cbn [with_pool name schema first_page_id next_page_id
      next_tuple_id indexes buffer_pool] in *.
    assert (first ∈ l.*1) as Hfirst by (rewrite Hl; by left).
    destruct (Hframes first Hfirst) as (f1 & Hf1 & Hf1v & Hpf1 & Hf15 & Hpf15).
    assert (BufferPool.page_table bp6 !! first = Some f1) as Hf16 by (by rewrite Ht6).
    mrun.
    match goal with |- context [getPage first ?tb] =>
      destruct (getPage_resident tb first f1 Hwf6 Hf16)
        as (bp7 & Hg7 & (Hwf7 & Ht7 & Hd7) & Hpin7 & Hoth7)
    end.
    cbn [buffer_pool] in Ht7, Hd7, Hoth7. rewrite Hg7. cbn [bind]. tsimpl.
    assert (BufferPool.data_at bp7 f1 = Some dh) as Hdh7.
    { rewrite Hd7, Hd6, Hd5, Hd4, Hd3, Hd2, Hd1 by done.
      rewrite Hl in Hc. inversion Hc as [|? ? ? ? ? Hpd ? ?]; subst.
      unfold page_data in Hpd. by rewrite Hf1 in Hpd. }
    rewrite bind_run.
    match goal with |- context [load f1 ?tb] =>
      rewrite (load_resident tb f1 dh Hdh7)
    end.
    cbn [bind]. rewrite bind_run.
    destruct (read_page_header dh) as [e|hh]; cbn [try bind]; [done|].
    rewrite bind_run.
    destruct (write_page_header dh _) as [e|dh']; cbn [try bind]; [done|].
    unfold store, markDirty, releasePage. mrun.
    assert (is_Some (BufferPool.frames bp7 !! f1)) as Hf7s.
    { unfold BufferPool.data_at in Hdh7. by destruct (BufferPool.frames bp7 !! f1). }
    destruct (BufferPoolFacts.storeData_view bp7 f1 dh' Hwf7 Hf7s)
      as (Hwf8 & Ht8 & _ & _ & Hp8).
    destruct (BufferPoolFacts.markDirty_view _ first Hwf8) as (Hwf9 & Ht9 & _ & Hp9).
    destruct (BufferPoolFacts.releasePage_view _ first Hwf9)
      as (Hwf10 & Ht10 & _ & Hrel10 & Hp10).
    unfold updateIndexes. mrun.
    destruct (update_indexes _ _ _) as [e|ix']; cbn [try bind modify mret M_ret]; [done|].
    mrun. intros [= <- <-]. cbn [buffer_pool with_indexes with_pool].
    assert (BufferPool.page_table
              (BufferPool.releasePage
                 (BufferPool.markDirty (BufferPool.storeData bp7 f1 dh') first) first)
            = BufferPool.page_table bp5) as Htab.
    { by rewrite Ht10, Ht9, Ht8, Ht7, Ht6. }
    assert (BufferPool.page_table
              (BufferPool.markDirty (BufferPool.storeData bp7 f1 dh') first) !! first
            = Some f1) as Hf19.
    { by rewrite Ht9, Ht8, Ht7. }
    assert (∀ g, g ≠ f1 → g ≠ v → BufferPool.pinned_at bp5 g = Some true →
              BufferPool.pinned_at
                (BufferPool.releasePage
                   (BufferPool.markDirty (BufferPool.storeData bp7 f1 dh') first) first) g
              = Some true) as Hkeep.
    { intros g Hg1 Hgv Hpin. rewrite Hp10 by (rewrite Hf19; congruence).
      rewrite Hp9, Hp8, Hoth7 by done. by rewrite Hoth6. }
    split_and!.
    + intros q Hq [Hqf|[Hnot|Hok]]; [|by destruct Hnot|done].
      apply walked_past_sub in Hq. apply is_pinned_page_iff.
      destruct (Hframes q Hq) as (f & Hqf0 & Hfv & Hpf & Hqf5 & Hpf5).
      exists f. split; [by rewrite Htab|]. apply Hkeep; [|done|done].
      intros ->. apply Hqf.
      apply (frame_injective bp q first f1); [done| | |done|done];
        by eapply chain_nonzero.
    + intros _ _. apply not_true_is_false. intros Hpin.
      apply is_pinned_page_iff in Hpin as (f & Hf & Hpinf).
      rewrite Htab, Hf15 in Hf. injection Hf as <-.
      rewrite (Hrel10 f1 Hf19) in Hpinf. done.
    + intros g Hg0 Hpin. destruct (Hoffs g Hg0 Hpin) as [Hgv Hpin5].
      apply Hkeep; [|done|done].
      intros ->. by apply (Hg0 first Hfirst).
Qed.

(** C10 (as amended). Both traversals release the successor of the page
    they have just pinned, so the pages they advance past stay pinned when
    the operation has returned, with one exception. After [getTupleCount]
    every page of the chain is pinned. After [insertTuple] every page that
    the walk advanced past is pinned, except the head page when the insert
    ended by allocating a page and linking it: the link step releases the
    head page. Pins accumulate: neither operation unpins a pinned frame
    that holds no page of the chain, and once the pages of the chain fill
    the pool, every request for another page after [getTupleCount] fails
    with "no unpinned frames". In a pool of 4 frames, inserts of rows of
    1000 bytes get there with the 17th row. *)
Theorem traversals_leave_pages_pinned tb l fuel :
  table_ok tb l → (length l < fuel)%nat →
  (∃ count tb',
     getTupleCount fuel tb = Ok count tb' ∧
     count_pages l.*2 0 = inr count ∧
     (∀ q, q ∈ l.*1 → is_pinned_page (buffer_pool tb') q = true) ∧
     (∀ g, off_chain (buffer_pool tb) l g →
           BufferPool.pinned_at (buffer_pool tb') g
             = BufferPool.pinned_at (buffer_pool tb) g) ∧
     ((∀ g, is_Some (BufferPool.frames (buffer_pool tb) !! g) →
            ∃ q, q ∈ l.*1 ∧ BufferPool.page_table (buffer_pool tb) !! q = Some g) →
      ∀ q, BufferPool.page_table (buffer_pool tb') !! q = None →
           raised (BufferPool.getPage (buffer_pool tb') q) = Some NoUnpinnedFrames)) ∧
  (∀ tuple sz ok tb',
     l ≠ [] →
     BufferPool.page_table (buffer_pool tb) !! next_page_id tb = None →
     next_page_id tb ≠ 0 →
     getTupleSize (schema tb) tuple = inr sz →
     insertTuple fmt fuel tuple tb = Ok ok tb' →
     (∀ q, q ∈ walked_past (Z.of_nat sz) l →
           q ≠ first_page_id tb ∨ walked_past (Z.of_nat sz) l ≠ l.*1 ∨ ok = false →
           is_pinned_page (buffer_pool tb') q = true) ∧
     (walked_past (Z.of_nat sz) l = l.*1 → ok = true →
      is_pinned_page (buffer_pool tb') (first_page_id tb) = false) ∧
     (∀ g, off_chain (buffer_pool tb) l g →
           BufferPool.pinned_at (buffer_pool tb) g = Some true →
           BufferPool.pinned_at (buffer_pool tb') g = Some true)) ∧
  Scenarios.one_more_insert fmt 4 <$> [4; 8; 12; 16]%nat
    = [Some (0, None, 0); Some (1, None, 1); Some (2, None, 2);
       Some (3, Some NoUnpinnedFrames, 4)]%nat.
Proof.
  intros Hok Hfuel. split_and!.
  - destruct Hok as [Hwf H0 Hc].
    destruct (count_walk_spec _ _ _ Hc fuel tb 0 Hfuel H0 (same_view_refl _ Hwf))
      as (n & bp' & Hrun & Hcount & (Hwf' & Ht' & Hd') & Hpins & Hoff).
    exists n, (with_pool bp' tb). cbn [buffer_pool with_pool]. split_and!; [|done..|].
    { unfold getTupleCount. rewrite bind_run. by cbn [get_state bind]. }
    intros Hfill q Hq.
    destruct (BufferPoolFacts.getPage_miss_view bp' q Hwf' Hq)
      as [(bp2 & -> & _)|(v & bp2 & d & _ & _ & Hunp & _)]; [done|].
    exfalso.
    assert (is_Some (BufferPool.frames (buffer_pool tb) !! v)) as Hv.
    { assert (is_Some (BufferPool.data_at bp' v)) as Hdv.
      { unfold BufferPool.pinned_at, BufferPool.data_at in *.
        by destruct (BufferPool.frames bp' !! v). }
      rewrite Hd' in Hdv. unfold BufferPool.data_at in Hdv.
      destruct (BufferPool.frames (buffer_pool tb) !! v); [by eexists|].
      by destruct Hdv. }
    destruct (Hfill v Hv) as (q0 & Hq0 & Hq0v).
    destruct (proj1 (is_pinned_page_iff bp' q0) (Hpins q0 Hq0)) as (f & Hf & Hpin).
    rewrite Ht', Hq0v in Hf. injection Hf as <-. congruence.
  - intros tuple sz ok tb' Hne Hfresh Hnext Hsz.
    destruct (insertTuple_unfold fmt tb tuple fuel)
      as (tb0 & nt & -> & Hvals & Hbp & Hsch & Hfirst & Hnextp).
    assert (table_ok tb0 l) as Hok0.
    { destruct Hok as [Hwf H0 Hc]. split; by rewrite ?Hbp, ?Hfirst. }
    assert (getTupleSize (schema tb0) nt = inr sz) as Hsz0.
    { by rewrite Hsch, (getTupleSize_values _ nt tuple Hvals). }
    intros Hrun.
    rewrite <-Hbp, <-Hfirst.
    apply (insert_new_tuple_pins tb0 l nt sz fuel ok tb'); try done.
    + by rewrite Hbp, Hnextp.
    + by rewrite Hnextp.
  - vm_compute. reflexivity.
Qed.

End WithDoubleFormat2.

(** C10 (as stated) fails: with four rows in the table, page 1 is full; the
    fifth insert visits page 1, advances past it, adds page 2 and links it,
    and the link step releases page 1, which is not pinned when the insert
    has returned. *)
Lemma visited_pages_stay_pinned_counterexample :
  ¬ Scenarios.visited_pages_stay_pinned Scenarios.plain_format 4 4.
Proof.
  intros H. specialize (H [1] true [false]).
  assert (Forall (λ b : bool, b = true) [false]) as Habs.
  { apply H. vm_compute. reflexivity. }
  by inversion Habs.
Qed.

Lemma traversals_leave_pages_pinned_witness :
  (∃ count tb',
     getTupleCount 100 Scenarios.two_page_table = Ok count tb' ∧
     count_pages Scenarios.two_page_chain.*2 0 = inr count ∧
     ∀ q, q ∈ Scenarios.two_page_chain.*1 →
          is_pinned_page (buffer_pool tb') q = true) ∧
  (∃ tb', insertTuple Scenarios.plain_format 100 Scenarios.blob_row
            Scenarios.two_page_table = Ok true tb' ∧
          is_pinned_page (buffer_pool tb') 1 = true).
Proof.
  destruct (traversals_leave_pages_pinned Scenarios.plain_format
              Scenarios.two_page_table Scenarios.two_page_chain 100)
    as ((count & tb1 & Hcount & Hsum & Hpins & _) & Hinsert & _).
  - apply (checked_chain_ok 100). vm_compute. reflexivity.
  - vm_compute. lia.
  - split; [exists count, tb1; exact (conj Hcount (conj Hsum Hpins))|].
    destruct (insertTuple Scenarios.plain_format 100 Scenarios.blob_row
                Scenarios.two_page_table) as [ok tb'|e tb'] eqn:Hrun;
      [|vm_compute in Hrun; discriminate].
    assert (ok = true) as ->.
    { assert (returned (insertTuple Scenarios.plain_format 100 Scenarios.blob_row
                          Scenarios.two_page_table) = Some true) as Hret
        by (vm_compute; reflexivity).
      rewrite Hrun in Hret. cbn [returned] in Hret. congruence. }
    exists tb'. split; [reflexivity|].
    destruct (Hinsert Scenarios.blob_row 1020%nat true tb') as (Hvisited & _).
    + vm_compute. discriminate.
    + vm_compute. reflexivity.
    + vm_compute. discriminate.
    + vm_compute. reflexivity.
    + exact Hrun.
    + apply (Hvisited 1).
      * vm_compute. by left.
      * right. left. vm_compute. discriminate.
Defined.

Lemma oversize_insert_fails_on_two_pages :
  returned (insertTuple Scenarios.plain_format 100 Scenarios.oversize_row
              Scenarios.two_page_table) = Some false ∧
  returned (selectAll 100
              (final_state (insertTuple Scenarios.plain_format 100
                              Scenarios.oversize_row Scenarios.two_page_table)))
    = returned (selectAll 100 Scenarios.two_page_table).
Proof.
  destruct (oversize_insert_fails Scenarios.plain_format Scenarios.two_page_table
              Scenarios.two_page_chain Scenarios.oversize_row 5020 100)
    as (_ & Hfalse & Hscan).
  - apply (checked_chain_ok 100). vm_compute. reflexivity.
  - apply ready_check_ok. vm_compute. reflexivity.
  - vm_compute. reflexivity.
  - vm_compute. lia.
  - vm_compute. lia.
  - split.
    + apply Hfalse. exists 7%nat. split; [vm_compute; reflexivity|].
      intros q Hq. vm_compute in Hq.
      apply list_elem_of_In in Hq. destruct Hq as [<-|[<-|[]]]; vm_compute; discriminate.
    + apply Hscan. vm_compute. lia.
Qed.

End TableFacts.

Module ScenarioFacts.
Import Table Scenarios.

(** C1. Twenty rows of 1000 bytes are inserted into a new table; every
    call answers true and five pages are allocated, but each new page is
    linked by overwriting [next_page] of the head, which unlinks the page
    linked before: the chain is [1; 5], the scan returns the 8 rows of
    those two pages, the page headers count 8 tuples, and 20 tuple ids have
    been handed out. *)
Theorem page_chain_keeps_only_newest_page fmt :
  blob_report fmt BUFFER_POOL_SIZE 20 =
    Some {| answers := replicate 20 true;
            tuple_ids_issued := 20;
            pages_allocated := 5;
            chain := [1; 5];
            scanned_ids := Some [1; 2; 3; 4; 17; 18; 19; 20];
            scanned_sizes := Some (replicate 8 1000%nat);
            counted := Some 8;
            pinned := [1] |}.
Proof. vm_compute. reflexivity. Qed.

(** C6. Nothing checks a value list against the schema. On the empty
    table pairs(a INTEGER, b INTEGER) an insert of the single value 7
    answers true and the scan then returns the row (7, 0); an insert of
    ("abc", 8) answers true as well and the scan returns a row made of the
    bytes that the string left in the page. *)
Theorem insert_accepts_nonconforming_values fmt :
  scan_insert_scan fmt [VInt 7]
    = Some ([], true, [mkTuple 1 [VInt 7; VInt 0]]) ∧
  scan_insert_scan fmt [VString "abc"; VInt 8]
    = Some ([], true, [mkTuple 1 [VInt 3; VInt 140730977]]).
Proof. split; vm_compute; reflexivity. Qed.

(** C4. An oversize tuple is not always rejected. On the empty table
    pairs(a INTEGER, b INTEGER) the value list made of one string of 5000
    bytes has an encoded size of 5020 bytes, but [getTupleSize] sizes it by
    the column types, at 20 bytes; the page has room for that, and
    [serializeTuple] then copies the 5004 bytes of the field from offset 32
    of the page buffer on, past the end of its 4096 bytes. The insert does
    not return failure: its behaviour is undefined. *)
Theorem oversize_value_overruns_page fmt :
  (Codec.TUPLE_HEADER_SIZE + length (Codec.encode_values oversize_values))%nat
    = 5020%nat ∧
  Codec.getTupleSize pairs_schema (mkTuple 0 oversize_values) = inr 20%nat ∧
  raised (oversize_into_pairs fmt) = Some Undefined.
Proof. split_and!; vm_compute; reflexivity. Qed.

End ScenarioFacts.

Module LockManagerProperties.
Import LockManager.

(* what the loop over the requests of a page does *)
Lemma acquire_existing_spec lt p want t rs :
  match acquire_existing lt p want t rs with
  | None => Forall (λ r, transaction_id r ≠ t) rs
  | Some (b, rs') =>
      ∃ l1 r l2, rs = l1 ++ r :: l2 ∧
        Forall (λ r, transaction_id r ≠ t) l1 ∧ transaction_id r = t ∧
        ((lock_type r = SHARED ∧ want = EXCLUSIVE ∧
          canGrantLock lt (newRequest p EXCLUSIVE t) = true ∧
          b = true ∧ rs' = l1 ++ set_lock_type r EXCLUSIVE :: l2) ∨
         (¬ (lock_type r = SHARED ∧ want = EXCLUSIVE ∧
             canGrantLock lt (newRequest p EXCLUSIVE t) = true) ∧
          b = granted r ∧ rs' = rs))
  end.
Proof.
  induction rs as [|r0 rest IH]; [by constructor|].
  cbn [acquire_existing]. case_bool_decide as Ht.
  - destruct (bool_decide (lock_type r0 = SHARED) && bool_decide (want = EXCLUSIVE)
              && canGrantLock lt (newRequest p EXCLUSIVE t)) eqn:Hup.
    + apply andb_true_iff in Hup as [[Hs Hw]%andb_true_iff Hc].
      apply bool_decide_eq_true in Hs, Hw.
      exists [], r0, rest. split_and!; [done|constructor|done|]. left. done.
    + exists [], r0, rest. split_and!; [done|constructor|done|]. right.
      split_and!; [|done..]. intros (Hs & Hw & Hc).
      rewrite Hc, !bool_decide_eq_true_2 in Hup by done. done.
  - destruct (acquire_existing lt p want t rest) as [[b rest']|].
    + destruct IH as (l1 & r & l2 & -> & Hl1 & Hr & Hcase).
      exists (r0 :: l1), r, l2. split_and!; [done|by constructor|done|].
      destruct Hcase as [(?&?&?&?&->)|(?&?&->)]; [left|right]; done.
    + by constructor.
Qed.

Lemma canGrantLock_true lt request :
  canGrantLock lt request = true ↔
  ∀ r, r ∈ requests_of lt (page_id request) → granted r = true →
       lock_type request = SHARED ∧ lock_type r = SHARED.
Proof.
  unfold canGrantLock. rewrite forallb_forall. split.
  - intros Hall r Hin Hg. apply list_elem_of_In, Hall in Hin.
    unfold conflicts in Hin. rewrite Hg in Hin. simpl in Hin.
    apply negb_true_iff, orb_false_iff in Hin as [H1 H2].
    apply bool_decide_eq_false in H1, H2.
    split; [by destruct (lock_type request)|by destruct (lock_type r)].
  - intros Hall r Hin%list_elem_of_In. unfold conflicts.
    destruct (granted r) eqn:Hg; [|done]. simpl.
    destruct (Hall r Hin Hg) as [-> ->]. done.
Qed.

Lemma filter_filter_sublist {A} (P Q : A → Prop) `{!∀ x, Decision (P x)}
    `{!∀ x, Decision (Q x)} (l : list A) :
  filter Q (filter P l) `sublist_of` filter Q l.
Proof.
  induction l as [|x l IH]; [done|].
  rewrite (filter_cons P). destruct (decide (P x)).
  - rewrite !filter_cons. destruct (decide (Q x)); [by constructor|done].
  - rewrite filter_cons. destruct (decide (Q x)); [by constructor|done].
Qed.

Lemma compatible_filter (P : LockRequest → Prop) `{!∀ r, Decision (P r)} rs :
  compatible rs → compatible (filter P rs).
Proof.
  unfold compatible. cbn zeta.
  pose proof (filter_filter_sublist P (λ r, granted r = true) rs) as Hsub.
  intros [Hlen|Hall].
  - left. apply sublist_length in Hsub. lia.
  - right. rewrite Forall_forall in *. intros x Hx. apply Hall.
    by apply (sublist_subseteq _ _ Hsub).
Qed.

Lemma compatible_requests_of lt p : table_compatible lt → compatible (requests_of lt p).
Proof.
  intros H. unfold requests_of. destruct (lt !! p) as [rs|] eqn:Hl; [by eapply H|].
  left. simpl. lia.
Qed.

Lemma table_compatible_insert lt p rs :
  table_compatible lt → compatible rs → table_compatible (<[p := rs]> lt).
Proof.
  intros Hlt Hrs q rs'. destruct (decide (q = p)) as [->|Hq].
  - rewrite (lookup_insert_eq lt). by intros [= <-].
  - rewrite (lookup_insert_ne lt) by done. apply Hlt.
Qed.

Lemma no_granted lt p t rs :
  requests_of lt p = rs →
  canGrantLock lt (newRequest p EXCLUSIVE t) = true →
  filter (fun r => granted r = true) rs = [].
Proof.
  intros Hrs Hc. apply BTreeFacts.filter_none. intros r Hin Hg.
  rewrite canGrantLock_true in Hc. simpl in Hc. rewrite Hrs in Hc.
  by destruct (Hc r Hin Hg).
Qed.

Lemma reachable_compatible lt : reachable lt → table_compatible lt.
Proof.
  induction 1 as [|lt p want t Hr IH|lt p t Hr IH].
  - intros p rs Hl.
    pose proof (lookup_empty (M:=gmap Z) (A:=list LockRequest) p) as He.
    unfold lock_table_t in *. congruence.
  - unfold acquireLock.
    set (rs := requests_of lt p). set (lt0 := <[p := rs]> lt).
    assert (requests_of lt0 p = rs) as Hrs0.
    { unfold requests_of, lt0. by rewrite (lookup_insert_eq lt). }
    assert (compatible rs) as Hc by (by apply compatible_requests_of).
    assert (table_compatible lt0) as H0 by (by apply table_compatible_insert).
    pose proof (acquire_existing_spec lt0 p want t rs) as Hspec.
    destruct (acquire_existing lt0 p want t rs) as [[b rs']|].
    + simpl. apply table_compatible_insert; [done|].
      destruct Hspec as (l1 & r & l2 & Heq & _ & _ & [(_&_&Hcg&_&->)|(_&_&->)]); [|done].
      pose proof (no_granted lt0 p t rs Hrs0 Hcg) as Hnone.
      left. cbn zeta. rewrite Heq in Hnone.
      rewrite filter_app, filter_cons in Hnone. rewrite filter_app, filter_cons.
      cbn [set_lock_type granted].
      destruct (decide (granted r = true)).
      * by apply app_eq_nil in Hnone as [_ ?].
      * rewrite Hnone. simpl. lia.
    + destruct (canGrantLock lt0 (newRequest p want t)) eqn:Hcg; simpl.
      * apply table_compatible_insert; [done|].
        rewrite canGrantLock_true in Hcg. simpl in Hcg. rewrite Hrs0 in Hcg.
        unfold compatible. cbn zeta. rewrite filter_app.
        rewrite (filter_cons_True _ (mkLockRequest p want t true)) by done.
        rewrite filter_nil.
        destruct (filter (λ r, granted r = true) rs) as [|g gs] eqn:Hg.
        -- left. simpl. lia.
        -- right. assert (g ∈ filter (λ r, granted r = true) rs) as Hin
             by (rewrite Hg; by left).
           apply list_elem_of_filter in Hin as [Hgg Hin].
           destruct (Hcg g Hin Hgg) as [-> _].
           apply Forall_app. split; [|by repeat constructor].
           apply Forall_forall. intros x Hx.
           assert (x ∈ filter (λ r, granted r = true) rs) as Hin' by (by rewrite Hg).
           apply list_elem_of_filter in Hin' as [Hxg Hin'].
           by destruct (Hcg x Hin' Hxg).
      * apply table_compatible_insert; [done|].
        unfold compatible. cbn zeta. rewrite filter_app.
        rewrite (filter_cons_False _ (newRequest p want t)) by done.
        rewrite filter_nil, app_nil_r. done.
  - unfold releaseLock.
    assert (compatible (filter (λ r, transaction_id r ≠ t) (requests_of lt p))) as Hc.
    { apply compatible_filter. by apply compatible_requests_of. }
    destruct (filter (λ r, transaction_id r ≠ t) (requests_of lt p)) as [|r rs] eqn:Hf.
    + intros q rs'. destruct (decide (q = p)) as [->|Hq].
      * by rewrite (lookup_delete_eq lt).
      * rewrite (lookup_delete_ne lt) by done. apply IH.
    + by apply table_compatible_insert.
Qed.

Lemma hasLock_true lt p t :
  hasLock lt p t = true ↔
  ∃ r, r ∈ granted_requests lt p ∧ transaction_id r = t.
Proof.
  unfold hasLock, granted_requests, requests_of.
  destruct (lt !! p) as [rs|]; simpl.
  - rewrite existsb_exists. split.
    + intros (r & Hin%list_elem_of_In & [Ht Hg]%andb_true_iff).
      apply bool_decide_eq_true in Ht. exists r. split; [|done].
      by apply list_elem_of_filter.
    + intros (r & [Hg Hin]%list_elem_of_filter & Ht). exists r.
      split; [by apply list_elem_of_In|]. by rewrite bool_decide_eq_true_2, Hg.
  - split; [done|]. by intros (r & ?%elem_of_nil & _).
Qed.

(** X1. Mutual exclusion: in every lock table that calls of [acquireLock]
    and [releaseLock] produce from the empty table, a transaction that
    holds a granted EXCLUSIVE request on a page is the only one with a
    granted request on that page. *)
Theorem exclusive_lock_excludes_others lt p t1 t2 r1 :
  reachable lt → r1 ∈ granted_requests lt p →
  transaction_id r1 = t1 → lock_type r1 = EXCLUSIVE → t2 ≠ t1 →
  hasLock lt p t2 = false.
Proof.
  intros Hr Hin1 Ht1 Hx Hne. apply not_true_is_false. rewrite hasLock_true.
  intros (r2 & Hin2 & Ht2).
  pose proof (compatible_requests_of lt p (reachable_compatible lt Hr)) as [Hlen|Hall].
  - cbn zeta in Hlen. unfold granted_requests in *.
    destruct (filter (λ r, granted r = true) (requests_of lt p)) as [|g [|g' gs]];
      [by apply elem_of_nil in Hin1| |simpl in Hlen; lia].
    apply list_elem_of_singleton in Hin1, Hin2. congruence.
  - rewrite Forall_forall in Hall. specialize (Hall r1 Hin1). congruence.
Qed.

Lemma exclusive_lock_excludes_others_witness :
  hasLock (acquireLock (acquireLock ∅ 1 EXCLUSIVE 7).2 1 SHARED 8).2 1 8 = false.
Proof.
  apply (exclusive_lock_excludes_others _ 1 7 8 (mkLockRequest 1 EXCLUSIVE 7 true)).
  - do 2 constructor. constructor.
  - vm_compute. by left.
  - reflexivity.
  - reflexivity.
  - lia.
Defined.


Lemma own_request_None lt p t :
  own_request lt p t = None ↔ Forall (λ r, transaction_id r ≠ t) (requests_of lt p).
Proof.
  unfold own_request. rewrite head_None. split.
  - intros Hf. apply Forall_forall. intros r Hin Ht.
    assert (r ∈ filter (λ r, transaction_id r = t) (requests_of lt p)) as Hin'
      by (by apply list_elem_of_filter).
    rewrite Hf in Hin'. by apply elem_of_nil in Hin'.
  - intros Hall. apply BTreeFacts.filter_none. by apply Forall_forall.
Qed.

Lemma acquire_existing_None lt p want t rs :
  Forall (λ r, transaction_id r ≠ t) rs → acquire_existing lt p want t rs = None.
Proof.
  induction 1 as [|r rs Hr _ IH]; [done|].
  cbn [acquire_existing]. rewrite bool_decide_eq_false_2 by done. by rewrite IH.
Qed.

Lemma existsb_own_false t rs (f : LockRequest → bool) :
  Forall (λ r, transaction_id r ≠ t) rs →
  existsb (λ r, bool_decide (transaction_id r = t) && f r) rs = false.
Proof.
  induction 1 as [|r rs Hr _ IH]; [done|].
  simpl. by rewrite bool_decide_eq_false_2, IH.
Qed.

(* a newcomer's request is appended to the vector of its page *)
Lemma acquire_new_request_appends lt p want t :
  own_request lt p t = None →
  requests_of (acquireLock lt p want t).2 p
    = requests_of lt p ++ [mkLockRequest p want t (acquireLock lt p want t).1] ∧
  ∀ q, q ≠ p → (acquireLock lt p want t).2 !! q = lt !! q.
Proof.
  intros Hown%own_request_None. unfold acquireLock.
  set (rs := requests_of lt p) in *. set (lt0 := <[p := rs]> lt).
  rewrite (acquire_existing_None lt0 p want t rs Hown).
  destruct (canGrantLock lt0 (newRequest p want t)) eqn:Hcg; cbn [fst snd].
  - split.
    + unfold requests_of at 1. by rewrite (lookup_insert_eq lt0).
    + intros q Hq. rewrite (lookup_insert_ne lt0) by done.
      unfold lt0. by rewrite (lookup_insert_ne lt).
  - split.
    + unfold requests_of at 1. by rewrite (lookup_insert_eq lt0).
    + intros q Hq. rewrite (lookup_insert_ne lt0) by done.
      unfold lt0. by rewrite (lookup_insert_ne lt).
Qed.

(** X2. A transaction without a request on the page gets a new request,
    appended to the page's vector. It is granted exactly when no granted
    request of the page conflicts: none at all for EXCLUSIVE, only SHARED
    ones for SHARED. [hasLock] then reports what [acquireLock] answered,
    and no other page changes. *)
Theorem new_request_granted_iff_compatible lt p want t :
  own_request lt p t = None →
  ((acquireLock lt p want t).1 = true ↔
     ∀ r, r ∈ granted_requests lt p → want = SHARED ∧ lock_type r = SHARED) ∧
  hasLock (acquireLock lt p want t).2 p t = (acquireLock lt p want t).1 ∧
  requests_of (acquireLock lt p want t).2 p
    = requests_of lt p ++ [mkLockRequest p want t (acquireLock lt p want t).1] ∧
  ∀ q, q ≠ p → (acquireLock lt p want t).2 !! q = lt !! q.
Proof.
  intros Hown%own_request_None. unfold acquireLock.
  set (rs := requests_of lt p) in *. set (lt0 := <[p := rs]> lt).
  assert (requests_of lt0 p = rs) as Hrs0.
  { unfold requests_of, lt0. by rewrite (lookup_insert_eq lt). }
  rewrite (acquire_existing_None lt0 p want t rs Hown).
  assert (canGrantLock lt0 (newRequest p want t) = true ↔
          ∀ r, r ∈ granted_requests lt p → want = SHARED ∧ lock_type r = SHARED) as Hiff.
  { rewrite canGrantLock_true. simpl. rewrite Hrs0. unfold granted_requests. fold rs.
    split.
    - intros H r [Hg Hin]%list_elem_of_filter. by apply H.
    - intros H r Hin Hg. apply H. by apply list_elem_of_filter. }
  destruct (canGrantLock lt0 (newRequest p want t)) eqn:Hcg; cbn [fst snd].
  - split_and!.
    + done.
    + unfold hasLock. rewrite (lookup_insert_eq lt0). rewrite existsb_app.
      rewrite (existsb_own_false t rs granted Hown). simpl.
      by rewrite bool_decide_eq_true_2.
    + unfold requests_of at 1. by rewrite (lookup_insert_eq lt0).
    + intros q Hq. rewrite (lookup_insert_ne lt0) by done.
      unfold lt0. by rewrite (lookup_insert_ne lt).
  - split_and!.
    + split; [done|]. intros H. apply Hiff in H. done.
    + unfold hasLock. rewrite (lookup_insert_eq lt0). rewrite existsb_app.
      rewrite (existsb_own_false t rs granted Hown). simpl.
      by rewrite andb_false_r.
    + unfold requests_of at 1. by rewrite (lookup_insert_eq lt0).
    + intros q Hq. rewrite (lookup_insert_ne lt0) by done.
      unfold lt0. by rewrite (lookup_insert_ne lt).
Qed.

Lemma new_request_granted_iff_compatible_witness :
  hasLock (acquireLock shared_holder 1 SHARED 8).2 1 8
    = (acquireLock shared_holder 1 SHARED 8).1.
Proof.
  apply (new_request_granted_iff_compatible shared_holder 1 SHARED 8). reflexivity.
Defined.

Lemma requests_lookup lt p r :
  r ∈ requests_of lt p → lt !! p = Some (requests_of lt p).
Proof.
  unfold requests_of. destruct (lt !! p); [done|]. by intros ?%elem_of_nil.
Qed.

Lemma own_request_split lt p t r :
  own_request lt p t = Some r →
  ∃ l1 l2, requests_of lt p = l1 ++ r :: l2 ∧
           Forall (λ r, transaction_id r ≠ t) l1 ∧ transaction_id r = t.
Proof.
  unfold own_request. induction (requests_of lt p) as [|r0 rs IH]; [done|].
  rewrite filter_cons. destruct (decide (transaction_id r0 = t)) as [Ht|Ht].
  - intros [= ->]. exists [], rs. by split_and!.
  - intros (l1 & l2 & -> & Hl1 & Hr)%IH. exists (r0 :: l1), l2.
    split_and!; [done|by constructor|done].
Qed.

Lemma acquire_existing_at lt p want t l1 r l2 :
  Forall (λ r, transaction_id r ≠ t) l1 → transaction_id r = t →
  acquire_existing lt p want t (l1 ++ r :: l2) =
    if bool_decide (lock_type r = SHARED) && bool_decide (want = EXCLUSIVE)
       && canGrantLock lt (newRequest p EXCLUSIVE t)
    then Some (true, l1 ++ set_lock_type r EXCLUSIVE :: l2)
    else Some (granted r, l1 ++ r :: l2).
Proof.
  intros Hl1 Hr. induction Hl1 as [|r0 l1 H0 _ IH].
  - cbn [app acquire_existing]. by rewrite bool_decide_eq_true_2.
  - cbn [app acquire_existing]. rewrite bool_decide_eq_false_2 by done. rewrite IH.
    by destruct (_ && _).
Qed.

(** X3. A request that was denied stays in the page's vector, never
    granted: when the transaction asks again, for the lock type it is
    waiting for or for SHARED, [acquireLock] answers false and changes
    nothing, whatever the other requests of the page are by then. When it
    waits for SHARED and asks for EXCLUSIVE while the page has no granted
    request, [acquireLock] answers true, but the request is still not
    granted and [hasLock] says so. *)
Theorem denied_request_stays_denied lt p t r want :
  own_request lt p t = Some r → granted r = false →
  ((lock_type r = EXCLUSIVE ∨ want = SHARED) →
   acquireLock lt p want t = (false, lt)) ∧
  (lock_type r = SHARED → want = EXCLUSIVE → granted_requests lt p = [] →
   (acquireLock lt p want t).1 = true ∧
   hasLock (acquireLock lt p want t).2 p t = false).
Proof.
  intros Hown Hg.
  destruct (own_request_split lt p t r Hown) as (l1 & l2 & Hrs & Hl1 & Hr).
  assert (r ∈ requests_of lt p) as Hin by (rewrite Hrs; set_solver).
  pose proof (requests_lookup lt p r Hin) as Hl.
  unfold acquireLock. rewrite (insert_id lt p _ Hl), Hrs.
  rewrite (acquire_existing_at lt p want t l1 r l2 Hl1 Hr).
  split.
  - intros Hcase.
    assert (bool_decide (lock_type r = SHARED) && bool_decide (want = EXCLUSIVE) = false)
      as ->.
    { destruct Hcase as [Hx| ->].
      - rewrite Hx. done.
      - by rewrite andb_false_r. }
    cbn [andb]. rewrite Hg. f_equal. rewrite <-Hrs. by apply insert_id.
  - intros Hs Hw Hnone.
    assert (canGrantLock lt (newRequest p EXCLUSIVE t) = true) as ->.
    { apply canGrantLock_true. simpl. intros r' Hin' Hg'.
      assert (r' ∈ granted_requests lt p) as Habs by (by apply list_elem_of_filter).
      rewrite Hnone in Habs. by apply elem_of_nil in Habs. }
    rewrite !bool_decide_eq_true_2 by done. cbn [andb fst snd]. split; [done|].
    unfold hasLock. rewrite (lookup_insert_eq lt). rewrite existsb_app.
    rewrite (existsb_own_false t l1 granted Hl1). cbn [existsb set_lock_type granted
      transaction_id orb]. rewrite Hg, andb_false_r. cbn [orb].
    apply not_true_is_false. intros (r' & Hin'%list_elem_of_In & [Ht' Hg']%andb_true_iff)
      %existsb_exists.
    assert (r' ∈ granted_requests lt p) as Habs.
    { apply list_elem_of_filter. split; [done|]. rewrite Hrs. set_solver. }
    rewrite Hnone in Habs. by apply elem_of_nil in Habs.
Qed.

Lemma denied_request_stays_denied_witness :
  acquireLock after_holder_released 1 EXCLUSIVE 8 = (false, after_holder_released).
Proof.
  apply (denied_request_stays_denied after_holder_released 1 8
           (mkLockRequest 1 EXCLUSIVE 8 false) EXCLUSIVE).
  - reflexivity.
  - reflexivity.
  - by left.
Defined.


Lemma requests_of_releaseLock lt p t :
  requests_of (releaseLock lt p t) p
    = filter (λ r, transaction_id r ≠ t) (requests_of lt p).
Proof.
  unfold releaseLock.
  destruct (filter (λ r, transaction_id r ≠ t) (requests_of lt p)) as [|r rs] eqn:Hf.
  - unfold requests_of at 1. by rewrite (lookup_delete_eq lt).
  - unfold requests_of at 1. by rewrite (lookup_insert_eq lt).
Qed.

Lemma releaseLock_other_page lt p t q :
  q ≠ p → releaseLock lt p t !! q = lt !! q.
Proof.
  intros Hq. unfold releaseLock.
  destruct (filter (λ r, transaction_id r ≠ t) (requests_of lt p)).
  - by rewrite (lookup_delete_ne lt).
  - by rewrite (lookup_insert_ne lt).
Qed.

Lemma hasLock_requests lt p t :
  hasLock lt p t
    = existsb (λ r, bool_decide (transaction_id r = t) && granted r) (requests_of lt p).
Proof. unfold hasLock, requests_of. by destruct (lt !! p). Qed.

(** X4. [releaseLock] removes every request of the transaction on the page,
    granted or waiting, and nothing else: afterwards the transaction has no
    request and no lock on the page, the requests of the other transactions
    are the ones they had, in the same order, and the other pages are as
    they were. *)
Theorem releaseLock_removes_only_own_requests lt p t :
  own_request (releaseLock lt p t) p t = None ∧
  hasLock (releaseLock lt p t) p t = false ∧
  (∀ t', t' ≠ t →
     filter (λ r, transaction_id r = t') (requests_of (releaseLock lt p t) p)
       = filter (λ r, transaction_id r = t') (requests_of lt p) ∧
     hasLock (releaseLock lt p t) p t' = hasLock lt p t') ∧
  (∀ q, q ≠ p → releaseLock lt p t !! q = lt !! q).
Proof.
  assert (Forall (λ r, transaction_id r ≠ t) (requests_of (releaseLock lt p t) p)) as Hall.
  { rewrite requests_of_releaseLock. apply Forall_forall.
    by intros r [Hr _]%list_elem_of_filter. }
  split_and!.
  - by apply own_request_None.
  - rewrite hasLock_requests. by apply existsb_own_false.
  - intros t' Ht'. rewrite !hasLock_requests, requests_of_releaseLock.
    split.
    + rewrite list_filter_filter. apply list_filter_iff. intros r. split; [tauto|].
      intros Hr. split; [done|congruence].
    + induction (requests_of lt p) as [|r rs IH]; [done|].
      rewrite filter_cons. destruct (decide (transaction_id r ≠ t)) as [Hr|Hr].
      * cbn [existsb]. by rewrite IH.
      * cbn [existsb]. rewrite IH. rewrite bool_decide_eq_false_2; [done|].
        apply dec_stable in Hr. congruence.
  - intros q Hq. by apply releaseLock_other_page.
Qed.

Lemma reachable_no_empty_vector lt p : reachable lt → lt !! p ≠ Some [].
Proof.
  intros Hr. revert p. induction Hr as [|lt p0 want t Hr IH|lt p0 t Hr IH]; intros p.
  - pose proof (lookup_empty (M:=gmap Z) (A:=list LockRequest) p) as He.
    unfold lock_table_t in *. congruence.
  - unfold acquireLock.
    set (rs := requests_of lt p0). set (lt0 := <[p0 := rs]> lt).
    assert (∀ rs', rs' ≠ [] → <[p0 := rs']> lt0 !! p ≠ Some []) as Hins.
    { intros rs' Hne. destruct (decide (p = p0)) as [->|Hp].
      - rewrite (lookup_insert_eq lt0). congruence.
      - rewrite (lookup_insert_ne lt0) by done. unfold lt0.
        rewrite (lookup_insert_ne lt) by done. apply IH. }
    pose proof (acquire_existing_spec lt0 p0 want t rs) as Hspec.
    destruct (acquire_existing lt0 p0 want t rs) as [[b rs']|].
    + simpl. apply Hins.
      destruct Hspec as (l1 & r & l2 & Heq & _ & _ & [(_&_&_&_&->)|(_&_&->)]).
      * by destruct l1.
      * rewrite Heq. by destruct l1.
    + destruct (canGrantLock lt0 (newRequest p0 want t)); simpl; apply Hins;
        by destruct rs.
  - unfold releaseLock.
    destruct (filter (λ r, transaction_id r ≠ t) (requests_of lt p0)) as [|r rs].
    + destruct (decide (p = p0)) as [->|Hp].
      * by rewrite (lookup_delete_eq lt).
      * rewrite (lookup_delete_ne lt) by done. apply IH.
    + destruct (decide (p = p0)) as [->|Hp].
      * by rewrite (lookup_insert_eq lt).
      * rewrite (lookup_insert_ne lt) by done. apply IH.
Qed.

Lemma filter_all {A} (P : A → Prop) `{!∀ x, Decision (P x)} (l : list A) :
  Forall P l → filter P l = l.
Proof.
  induction 1 as [|x l Hx _ IH]; [done|]. rewrite filter_cons_True by done. by rewrite IH.
Qed.

(** X5. Acquire and release are inverse for a newcomer: when a transaction
    without a request on a page asks for a lock, granted or not, and then
    releases it, the lock table is exactly the table from before. *)
Theorem release_after_acquire_restores_table lt p want t :
  reachable lt → own_request lt p t = None →
  releaseLock (acquireLock lt p want t).2 p t = lt.
Proof.
  intros Hr Hown.
  destruct (acquire_new_request_appends lt p want t Hown) as (Hreq & Hother).
  set (b := (acquireLock lt p want t).1) in *. clearbody b.
  set (lt' := (acquireLock lt p want t).2) in *. clearbody lt'.
  apply own_request_None in Hown.
  apply map_eq. intros q. destruct (decide (q = p)) as [->|Hq].
  - unfold releaseLock. rewrite Hreq, filter_app.
    rewrite (filter_cons_False _ (mkLockRequest p want t _)) by (simpl; tauto).
    rewrite filter_nil, app_nil_r.
    assert (filter (λ r, transaction_id r ≠ t) (requests_of lt p) = requests_of lt p)
      as ->.
    { apply filter_all. by eapply Forall_impl. }
    pose proof (reachable_no_empty_vector lt p Hr) as Hne.
    unfold requests_of in *. destruct (lt !! p) as [[|r rs]|] eqn:Hl; simpl.
    + done.
    + by rewrite (lookup_insert_eq lt').
    + by rewrite (lookup_delete_eq lt').
  - rewrite releaseLock_other_page by done. by apply Hother.
Qed.

Lemma release_after_acquire_restores_table_witness :
  releaseLock (acquireLock shared_holder 1 EXCLUSIVE 8).2 1 8 = shared_holder.
Proof.
  apply (release_after_acquire_restores_table shared_holder 1 EXCLUSIVE 8).
  - change shared_holder with (acquireLock ∅ 1 SHARED 7).2. do 2 constructor.
  - reflexivity.
Defined.

Lemma requests_of_lookup lt p rs : lt !! p = Some rs → requests_of lt p = rs.
Proof. intros H. unfold requests_of. by rewrite H. Qed.

Lemma pages_with_request_nil lt t :
  pages_with_request lt t = [] ↔ ∀ p, own_request lt p t = None.
Proof.
  unfold pages_with_request. split.
  - intros Hf%fmap_nil_inv p. apply own_request_None. apply Forall_forall. intros r Hin Ht.
    pose proof (requests_lookup lt p r Hin) as Hl.
    assert ((p, requests_of lt p) ∈
              filter (λ entry : Z * list LockRequest,
                        existsb (λ r, bool_decide (transaction_id r = t)) entry.2)
                     (map_to_list lt)) as Habs.
    { apply list_elem_of_filter. split.
      - apply Is_true_true, existsb_exists. exists r.
        split; [by apply list_elem_of_In|by apply bool_decide_eq_true_2].
      - by apply elem_of_map_to_list. }
    rewrite Hf in Habs. by apply elem_of_nil in Habs.
  - intros Hnone. rewrite BTreeFacts.filter_none; [done|].
    intros [p rs] Hin%elem_of_map_to_list Hex.
    apply Is_true_true, existsb_exists in Hex as (r & Hr%list_elem_of_In & Ht).
    apply bool_decide_eq_true in Ht. simpl in Hr.
    specialize (Hnone p). apply own_request_None in Hnone.
    rewrite (requests_of_lookup lt p rs Hin) in Hnone.
    rewrite Forall_forall in Hnone. by apply (Hnone r).
Qed.

Lemma pages_with_request_cons lt t p ps :
  pages_with_request lt t = p :: ps → ∃ r, own_request lt p t = Some r.
Proof.
  intros Hp.
  assert (p ∈ pages_with_request lt t) as Hin by (rewrite Hp; by left).
  unfold pages_with_request in Hin.
  apply list_elem_of_fmap in Hin as ([q rs] & -> & [Hex Hin]%list_elem_of_filter).
  apply elem_of_map_to_list in Hin.
  apply Is_true_true, existsb_exists in Hex as (r & Hr%list_elem_of_In & Ht).
  apply bool_decide_eq_true in Ht. simpl in Hr. simpl.
  destruct (own_request lt q t) as [r'|] eqn:Hown; [by exists r'|].
  apply own_request_None in Hown.
  rewrite (requests_of_lookup lt q rs Hin) in Hown.
  rewrite Forall_forall in Hown. by destruct (Hown r).
Qed.

(** X6. [releaseAllLocks] returns only for a transaction that has no
    request in the lock table, and then it leaves the table as it was:
    with a request on some page it calls [releaseLock] while it holds the
    mutex that [releaseLock] locks, which C++ leaves undefined. *)
Theorem releaseAllLocks_returns_iff_no_request lt t :
  (releaseAllLocks lt t = inr lt ↔ ∀ p, own_request lt p t = None) ∧
  (releaseAllLocks lt t = inl Undefined ↔ ∃ p r, own_request lt p t = Some r).
Proof.
  pose proof (pages_with_request_nil lt t) as Hnil.
  pose proof (pages_with_request_cons lt t) as Hcons.
  unfold releaseAllLocks.
  destruct (pages_with_request lt t) as [|p ps] eqn:Hp.
  - split; [tauto|]. split; [done|].
    intros (p & r & Hown). destruct Hnil as [Hnil _].
    specialize (Hnil eq_refl p). congruence.
  - split.
    + split; [done|]. intros H. by apply Hnil in H.
    + split; [|done]. intros _. destruct (Hcons p ps eq_refl) as [r Hr]. by exists p, r.
Qed.

End LockManagerProperties.

Module TransactionFacts.
Import TransactionManager.

Lemma releaseAllLocks_no_request lt t :
  (∀ p, LockManager.own_request lt p t = None) →
  LockManager.releaseAllLocks lt t = inr lt.
Proof.
  intros Hnone. unfold LockManager.releaseAllLocks.
  destruct (LockManager.pages_with_request lt t) as [|p ps] eqn:Hp; [done|].
  exfalso.
  assert (p ∈ LockManager.pages_with_request lt t) as Hin by (rewrite Hp; by left).
  unfold LockManager.pages_with_request in Hin.
  apply list_elem_of_fmap in Hin as ([q rs] & -> & [Hex Hin]%list_elem_of_filter).
  apply elem_of_map_to_list in Hin.
  apply Is_true_true, existsb_exists in Hex as (r & Hr%list_elem_of_In & Ht).
  apply bool_decide_eq_true in Ht. simpl in Hr.
  specialize (Hnone q). unfold LockManager.own_request, LockManager.requests_of in Hnone.
  assert (lt !! q = Some rs) as Hl by exact Hin. rewrite Hl in Hnone. simpl in Hnone.
  apply head_None in Hnone.
  assert (r ∈ filter (λ r, LockManager.transaction_id r = t) rs) as Habs
    by (by apply list_elem_of_filter).
  rewrite Hnone in Habs. by apply elem_of_nil in Habs.
Qed.

Lemma releaseAllLocks_with_request lt t p r :
  LockManager.own_request lt p t = Some r →
  LockManager.releaseAllLocks lt t = inl Undefined.
Proof.
  intros Hown. unfold LockManager.releaseAllLocks.
  destruct (LockManager.pages_with_request lt t) as [|q ps] eqn:Hp; [|done].
  exfalso. unfold LockManager.pages_with_request in Hp.
  apply fmap_nil_inv in Hp.
  unfold LockManager.own_request in Hown. apply head_Some_elem_of in Hown.
  apply list_elem_of_filter in Hown as [Ht Hin].
  unfold LockManager.requests_of in Hin.
  destruct (lt !! p) as [rs|] eqn:Hl; [|by apply elem_of_nil in Hin]. simpl in Hin.
  assert ((p, rs) ∈ filter (λ entry : Z * list LockManager.LockRequest,
             existsb (λ r, bool_decide (LockManager.transaction_id r = t)) entry.2)
             (map_to_list lt)) as Habs.
  { apply list_elem_of_filter. split.
    - apply Is_true_true, existsb_exists. exists r.
      split; [by apply list_elem_of_In|by apply bool_decide_eq_true_2].
    - by apply elem_of_map_to_list. }
  rewrite Hp in Habs. by apply elem_of_nil in Habs.
Qed.

Lemma ids_below_counter_init b : ids_below_counter (init b).
Proof.
  split; [simpl; lia|]. intros i tx. simpl.
  intros Hl. by rewrite lookup_empty in Hl.
Qed.

Lemma transactions_writeLogEntry entry tm :
  transactions (writeLogEntry entry tm) = transactions tm ∧
  next_transaction_id (writeLogEntry entry tm) = next_transaction_id tm ∧
  lock_manager (writeLogEntry entry tm) = lock_manager tm ∧
  log_is_open (writeLogEntry entry tm) = log_is_open tm ∧
  log_file (writeLogEntry entry tm)
    = log_file tm ++ (if log_is_open tm then [entry] else []).
Proof.
  unfold writeLogEntry. destruct (log_is_open tm) eqn:Hopen; simpl; [done|].
  by rewrite app_nil_r.
Qed.

(** X7. Until the 32-bit counter wraps, [beginTransaction] hands out an id
    that no transaction of the manager has: the new transaction is ACTIVE,
    the others and the lock table are as before, one BEGIN line is logged
    when the log is open, and ids stay below the counter. *)
Theorem beginTransaction_gives_fresh_id tm :
  ids_below_counter tm → next_transaction_id tm < 2 ^ 32 - 1 →
  ∃ tm', beginTransaction tm = Ok (next_transaction_id tm) tm' ∧
    transactions tm !! next_transaction_id tm = None ∧
    isTransactionActive tm' (next_transaction_id tm) = true ∧
    (∀ i, i ≠ next_transaction_id tm → transactions tm' !! i = transactions tm !! i) ∧
    lock_manager tm' = lock_manager tm ∧
    log_file tm' = log_file tm ++
      (if log_is_open tm
       then ["BEGIN " +:+ Table.to_string_int (next_transaction_id tm)] else []) ∧
    ids_below_counter tm'.
Proof.
  intros [Hnext Hids] Hwrap. eexists. split; [reflexivity|].
  set (n := next_transaction_id tm) in *.
  match goal with |- context [writeLogEntry ?e ?tm1] =>
    destruct (transactions_writeLogEntry e tm1) as (Htx & Hn & Hlm & Hopen & Hlog) end.
  cbn [transactions next_transaction_id lock_manager log_is_open log_file] in *.
  split_and!.
  - destruct (transactions tm !! n) as [tx|] eqn:Hl; [|done].
    apply Hids in Hl. lia.
  - unfold isTransactionActive. rewrite Htx, lookup_insert_eq. done.
  - intros i Hi. by rewrite Htx, lookup_insert_ne.
  - done.
  - done.
  - split.
    + rewrite Hn. rewrite Z.mod_small by lia. lia.
    + intros i tx. rewrite Htx, Hn. rewrite Z.mod_small by lia.
      destruct (decide (i = n)) as [->|Hi].
      * rewrite lookup_insert_eq. intros [= <-]. simpl. lia.
      * rewrite lookup_insert_ne by done. intros Hl. apply Hids in Hl. lia.
Qed.

Lemma beginTransaction_gives_fresh_id_witness :
  ∃ tm', beginTransaction (init true) = Ok 1 tm' ∧
    transactions (init true) !! 1 = None ∧
    isTransactionActive tm' 1 = true ∧
    (∀ i, i ≠ 1 → transactions tm' !! i = transactions (init true) !! i) ∧
    lock_manager tm' = lock_manager (init true) ∧
    log_file tm' = ["BEGIN 1"] ∧
    ids_below_counter tm'.
Proof.
  apply (beginTransaction_gives_fresh_id (init true)).
  - apply ids_below_counter_init.
  - simpl. lia.
Defined.

(** X8. The life of a transaction ends once: [commitTransaction] marks an
    ACTIVE transaction without lock requests COMMITTED, logs one COMMIT
    line and leaves the other transactions and the lock table alone;
    after that both [commitTransaction] and [abortTransaction] answer
    false for it and change nothing. With a lock request of the
    transaction in the lock table, commit and abort are undefined. *)
Theorem commit_ends_transaction tm i tx :
  transactions tm !! i = Some tx → state tx = ACTIVE →
  ((∀ p, LockManager.own_request (lock_manager tm) p i = None) →
   ∃ tm', commitTransaction i tm = Ok true tm' ∧
     getTransactionState tm' i = COMMITTED ∧
     isTransactionActive tm' i = false ∧
     (∀ j, j ≠ i → transactions tm' !! j = transactions tm !! j) ∧
     lock_manager tm' = lock_manager tm ∧
     log_file tm' = log_file tm ++
       (if log_is_open tm then ["COMMIT " +:+ Table.to_string_int i] else []) ∧
     commitTransaction i tm' = Ok false tm' ∧
     abortTransaction i tm' = Ok false tm') ∧
  ((∃ p r, LockManager.own_request (lock_manager tm) p i = Some r) →
   commitTransaction i tm = Throw Undefined tm ∧
   abortTransaction i tm = Throw Undefined tm).
Proof.
  intros Hl Hactive. split.
  - intros Hnone. unfold commitTransaction at 1. rewrite Hl.
    rewrite decide_False by (intros H; by apply H).
    rewrite (releaseAllLocks_no_request _ _ Hnone).
    eexists. split; [reflexivity|].
    match goal with |- context [writeLogEntry ?e ?tm1] =>
      destruct (transactions_writeLogEntry e tm1) as (Htx & Hn & Hlm & Hopen & Hlog);
      generalize dependent (writeLogEntry e tm1) end.
    intros tm'. cbn [transactions next_transaction_id lock_manager log_is_open log_file].
    intros Htx Hn Hlm Hopen Hlog.
    assert (transactions tm' !! i = Some (set_state COMMITTED tx)) as Hl'.
    { by rewrite Htx, lookup_insert_eq. }
    split_and!.
    + unfold getTransactionState. by rewrite Hl'.
    + unfold isTransactionActive. by rewrite Hl'.
    + intros j Hj. by rewrite Htx, lookup_insert_ne.
    + done.
    + done.
    + unfold commitTransaction. rewrite Hl'. by rewrite decide_True.
    + unfold abortTransaction. rewrite Hl'. by rewrite decide_True.
  - intros (p & r & Hown). unfold commitTransaction, abortTransaction. rewrite Hl.
    rewrite !decide_False by (intros H; by apply H).
    by rewrite (releaseAllLocks_with_request _ _ _ _ Hown).
Qed.

Lemma commit_ends_transaction_witness :
  ∃ tm', commitTransaction 1 (final_state (beginTransaction (init true))) = Ok true tm' ∧
    getTransactionState tm' 1 = COMMITTED ∧
    log_file tm' = ["BEGIN 1"; "COMMIT 1"] ∧
    commitTransaction 1 tm' = Ok false tm' ∧
    abortTransaction 1 tm' = Ok false tm'.
Proof.
  destruct (commit_ends_transaction (final_state (beginTransaction (init true))) 1
              (newTransaction 1)) as [Hcommit _]; [reflexivity..|].
  destruct Hcommit as (tm' & H1 & H2 & _ & _ & _ & H3 & H4 & H5); [done|].
  exists tm'. by split_and!.
Defined.

End TransactionFacts.

Module DatabaseEngineFacts.
Import DatabaseEngine.

(** X9. The engine runs one transaction at a time and its transaction
    calls never touch the tables. With no transaction open,
    [beginTransaction] opens one under the manager's next id; a second
    [beginTransaction] answers false and changes nothing; commit (or
    rollback) ends it as COMMITTED (ABORTED) and leaves the storage engine
    exactly as it is at that moment, so a rollback undoes no insert; with
    no transaction open, commit and rollback answer false. *)
Theorem one_transaction_at_a_time e :
  in_transaction e = false →
  TransactionManager.lock_manager (transaction_manager e) = ∅ →
  commitTransaction e = Ok false e ∧ rollbackTransaction e = Ok false e ∧
  ∃ e1, beginTransaction e = Ok true e1 ∧
    in_transaction e1 = true ∧
    current_transaction_id e1
      = TransactionManager.next_transaction_id (transaction_manager e) ∧
    storage_engine e1 = storage_engine e ∧
    beginTransaction e1 = Ok false e1 ∧
    ∀ se, let e1' := mkDatabaseEngine se (transaction_manager e1)
                       (current_transaction_id e1) true in
      (∃ e2, commitTransaction e1' = Ok true e2 ∧ in_transaction e2 = false ∧
             storage_engine e2 = se ∧
             TransactionManager.getTransactionState (transaction_manager e2)
               (current_transaction_id e1) = TransactionManager.COMMITTED) ∧
      (∃ e2, rollbackTransaction e1' = Ok true e2 ∧ in_transaction e2 = false ∧
             storage_engine e2 = se ∧
             TransactionManager.getTransactionState (transaction_manager e2)
               (current_transaction_id e1) = TransactionManager.ABORTED).
Proof.
  intros Hin Hlocks. split_and!.
  - unfold commitTransaction. by rewrite Hin.
  - unfold rollbackTransaction. by rewrite Hin.
  - unfold beginTransaction at 1. rewrite Hin. cbn [TransactionManager.beginTransaction].
    eexists. split; [reflexivity|].
    cbn [in_transaction current_transaction_id storage_engine transaction_manager].
    split_and!; [done..|].
    set (n := TransactionManager.next_transaction_id (transaction_manager e)).
    match goal with |- context [TransactionManager.writeLogEntry ?en ?tm1] =>
      destruct (TransactionFacts.transactions_writeLogEntry en tm1)
        as (Htx & Hn & Hlm & Hopen & Hlog);
      generalize dependent (TransactionManager.writeLogEntry en tm1) end.
    intros tm1.
    cbn [TransactionManager.transactions TransactionManager.next_transaction_id
         TransactionManager.lock_manager TransactionManager.log_is_open
         TransactionManager.log_file].
    intros Htx Hn Hlm Hopen Hlog se.
    assert (TransactionManager.transactions tm1 !! n
            = Some (TransactionManager.newTransaction n)) as Hl.
    { by rewrite Htx, lookup_insert_eq. }
    assert (∀ p, LockManager.own_request (TransactionManager.lock_manager tm1) p n = None)
      as Hnone.
    { intros p. rewrite Hlm, Hlocks. done. }
    split.
    + unfold commitTransaction.
      cbn [in_transaction negb current_transaction_id transaction_manager storage_engine].
      unfold TransactionManager.commitTransaction. rewrite Hl.
      rewrite decide_False by (intros H; by apply H).
      rewrite (TransactionFacts.releaseAllLocks_no_request _ _ Hnone).
      eexists. split; [reflexivity|].
      cbn [in_transaction storage_engine transaction_manager]. split_and!; [done..|].
      unfold TransactionManager.getTransactionState.
      match goal with |- context [TransactionManager.writeLogEntry ?en ?tm2] =>
        destruct (TransactionFacts.transactions_writeLogEntry en tm2) as (-> & _) end.
      cbn [TransactionManager.transactions]. by rewrite lookup_insert_eq.
    + unfold rollbackTransaction.
      cbn [in_transaction negb current_transaction_id transaction_manager storage_engine].
      unfold TransactionManager.abortTransaction. rewrite Hl.
      rewrite decide_False by (intros H; by apply H).
      rewrite (TransactionFacts.releaseAllLocks_no_request _ _ Hnone).
      eexists. split; [reflexivity|].
      cbn [in_transaction storage_engine transaction_manager]. split_and!; [done..|].
      unfold TransactionManager.getTransactionState.
      match goal with |- context [TransactionManager.writeLogEntry ?en ?tm2] =>
        destruct (TransactionFacts.transactions_writeLogEntry en tm2) as (-> & _) end.
      cbn [TransactionManager.transactions]. by rewrite lookup_insert_eq.
Qed.


Lemma one_transaction_at_a_time_witness :
  commitTransaction new_engine = Ok false new_engine ∧
  rollbackTransaction new_engine = Ok false new_engine.
Proof.
  destruct (one_transaction_at_a_time new_engine) as (H1 & H2 & _); [reflexivity..|].
  by split.
Defined.

#[local] Opaque le_bytes le_value.

Lemma stream_read_app (bs rest : list byte) :
  stream_read (bs ++ rest) (length bs) = Some (bs, rest).
Proof.
  unfold stream_read. rewrite decide_True by (rewrite length_app; lia).
  by rewrite take_app_length, drop_app_length.
Qed.

Lemma read_uint32_app v rest :
  read_uint32 (le_bytes 4 v ++ rest) = Some (v mod 2 ^ 32, rest).
Proof.
  unfold read_uint32.
  pose proof (stream_read_app (le_bytes 4 v) rest) as H.
  rewrite CodecFacts.length_le_bytes in H. rewrite H.
  by rewrite CodecFacts.le_value_le_bytes.
Qed.

Lemma length_list_byte_of_string str :
  length (String.list_byte_of_string str) = String.length str.
Proof.
  unfold String.list_byte_of_string. rewrite length_map.
  induction str as [|a str IH]; simpl; [done|]. by rewrite IH.
Qed.

Lemma read_string_app str rest :
  Z.of_nat (String.length str) < 2 ^ 32 →
  read_string (write_string str ++ rest) = Some (str, rest).
Proof.
  intros Hlen. unfold read_string, write_string. cbn zeta.
  rewrite Z.mod_small by lia. rewrite Nat2Z.id.
  rewrite firstn_all2 by (rewrite length_list_byte_of_string; lia).
  rewrite <-app_assoc, read_uint32_app. rewrite Z.mod_small by lia. rewrite Nat2Z.id.
  rewrite <-(length_list_byte_of_string str), stream_read_app.
  by rewrite String.string_of_list_byte_of_string.
Qed.

Lemma read_column_app column rest :
  column_fits column →
  read_column (write_column column ++ rest) = Some (raw_column column, rest).
Proof.
  intros [Hname Hsize]. unfold read_column, write_column.
  rewrite <-!app_assoc, read_string_app by done.
  rewrite read_uint32_app, read_uint32_app.
  unfold raw_column. rewrite (Z.mod_small (size column)) by lia.
  rewrite Z.mod_small by (destruct (type column); simpl; lia). done.
Qed.

Lemma read_columns_app columns rest :
  Forall column_fits columns →
  read_columns (length columns) (concat (map write_column columns) ++ rest)
    = (raw_column <$> columns, Some rest).
Proof.
  induction 1 as [|column columns Hc _ IH]; [done|].
  cbn [length map concat read_columns]. rewrite <-app_assoc, read_column_app by done.
  by rewrite IH.
Qed.

Lemma read_tables_app tables :
  Forall table_fits tables →
  read_tables (length tables)
    (concat (map (λ entry, write_table entry.1 entry.2) tables))
    = (λ entry, (entry.1, raw_schema entry.2)) <$> tables.
Proof.
  induction 1 as [|[table_name schema] tables (Hname & Hcount & Hcols) _ IH]; [done|].
  cbn [length map concat read_tables fst snd] in *. unfold write_table at 1.
  rewrite (Z.mod_small (Z.of_nat (length (columns schema)))) by lia.
  rewrite <-!app_assoc, read_string_app by done.
  rewrite read_uint32_app. rewrite Z.mod_small by lia. rewrite Nat2Z.id.
  rewrite read_columns_app by done. by rewrite IH.
Qed.

(** X10. What [saveTableMetadata] writes, [loadTableMetadata] reads back:
    for an engine whose table names, column names and column counts fit
    the 32-bit length fields and whose column sizes fit the 32 bits they
    are stored in, loading the saved bytes creates the same tables, in the
    order in which they were written, with the same column names, types
    and sizes. *)
Theorem metadata_round_trip se :
  Z.of_nat (length (table_schemas se)) < 2 ^ 32 →
  Forall table_fits (table_schemas se) →
  loadTableMetadata (Some (saveTableMetadata se))
    = (λ entry, (entry.1, raw_schema entry.2)) <$> table_schemas se.
Proof.
  intros Hcount Hfits. unfold loadTableMetadata, saveTableMetadata, write_metadata.
  rewrite (Z.mod_small (Z.of_nat (length (table_schemas se)))) by lia.
  rewrite read_uint32_app. rewrite Z.mod_small by lia. rewrite Nat2Z.id.
  by apply read_tables_app.
Qed.

Lemma metadata_round_trip_witness :
  loadTableMetadata (Some (saveTableMetadata pairs_engine))
    = (λ entry, (entry.1, raw_schema entry.2)) <$> table_schemas pairs_engine.
Proof.
  apply (metadata_round_trip pairs_engine).
  - vm_compute. reflexivity.
  - assert (table_schemas pairs_engine
            = [("pairs", mkSchema [mkColumn "a" INTEGER 0; mkColumn "b" INTEGER 0])])
      as -> by (vm_compute; reflexivity).
    repeat constructor; simpl; lia.
Defined.

End DatabaseEngineFacts.

Module BufferPoolProperties.
Import BufferPool.

(** X11. The bookkeeping of the pool stays consistent through every call:
    the pool keeps its n frames, the LRU list is a permutation of the frame
    ids 0 .. n-1, every page-table entry of a page other than 0 points to a
    frame that holds that page, and every frame that holds a page other
    than 0 is the one the page table names for it, so no such page is in
    two frames. *)
Theorem pool_bookkeeping_is_consistent n bp :
  reachable n bp →
  length (frames bp) = n ∧
  lru_list bp ≡ₚ seq 0 n ∧
  (∀ p f, p ≠ 0 → page_table bp !! p = Some f →
          page_id <$> frames bp !! f = Some p) ∧
  (∀ f g fr gr, frames bp !! f = Some fr → frames bp !! g = Some gr →
                page_id fr ≠ 0 → page_id fr = page_id gr → f = g).
Proof.
  intros [Hwf Hlen]%BufferPoolFacts.reachable_wf. destruct Hwf as [H1 H2 H3 H4 H5 H6].
  split_and!.
  - done.
  - apply NoDup_Permutation; [done|apply NoDup_seq|].
    intros f. rewrite elem_of_seq. split.
    + intros Hf%H1. lia.
    + intros Hf. apply H2. lia.
  - intros p f Hp Hl. pose proof (H4 p f Hl) as Hlt.
    destruct (lookup_lt_is_Some_2 (frames bp) f Hlt) as [fr Hfr].
    rewrite Hfr. simpl. f_equal. by eapply H5.
  - intros f g fr gr Hf Hg Hne Heq.
    pose proof (H6 f fr Hf Hne) as Hpf.
    assert (page_id gr ≠ 0) as Hne' by congruence.
    pose proof (H6 g gr Hg Hne') as Hpg. congruence.
Qed.

Lemma pool_bookkeeping_is_consistent_witness :
  length (frames (releasePage (final_state (getPage (init 3 []) 7)) 7)) = 3%nat.
Proof.
  apply (pool_bookkeeping_is_consistent 3).
  do 2 constructor. constructor.
Defined.

Lemma frame_of_Some bp p fr :
  frame_of bp p = Some fr ↔ ∃ f, page_table bp !! p = Some f ∧ frames bp !! f = Some fr.
Proof.
  unfold frame_of. destruct (page_table bp !! p) as [f|]; [|naive_solver].
  split; [by exists f|]. by intros (f' & [= <-] & ?).
Qed.

(** X12. A pinned page is never evicted: if a page other than 0 is resident
    and pinned, then after any [getPage], whether it hits, misses or
    raises, the page is still in the same frame with the same bytes, and
    still pinned. *)
Theorem pinned_page_is_never_evicted n bp p f fr q :
  reachable n bp → p ≠ 0 →
  page_table bp !! p = Some f → frames bp !! f = Some fr → is_pinned fr = true →
  ∃ fr', page_table (final_state (getPage bp q)) !! p = Some f ∧
         frames (final_state (getPage bp q)) !! f = Some fr' ∧
         data fr' = data fr ∧ is_pinned fr' = true.
Proof.
  intros [Hwf Hlen]%BufferPoolFacts.reachable_wf Hp Hl Hfr Hpin.
  assert (pinned_at bp f = Some true) as Hpa by (unfold pinned_at; by rewrite Hfr, <-Hpin).
  assert (data_at bp f = Some (data fr)) as Hda by (unfold data_at; by rewrite Hfr).
  assert (∀ bp', page_table bp' !! p = Some f → data_at bp' f = Some (data fr) →
                 pinned_at bp' f = Some true →
                 ∃ fr', page_table bp' !! p = Some f ∧ frames bp' !! f = Some fr' ∧
                        data fr' = data fr ∧ is_pinned fr' = true) as Hfin.
  { intros bp' H1 H2 H3. unfold data_at, pinned_at in *.
    destruct (frames bp' !! f) as [fr'|]; [|done]. simpl in *.
    exists fr'. split_and!; congruence. }
  destruct (page_table bp !! q) as [g|] eqn:Hq.
  - destruct (BufferPoolFacts.getPage_hit_view bp q g Hwf Hq)
      as (bp' & -> & _ & Htab & Hdata & Hpg & Hpo).
    simpl. apply Hfin.
    + by rewrite Htab.
    + by rewrite Hdata.
    + destruct (decide (f = g)) as [->|Hne]; [done|]. by rewrite Hpo.
  - destruct (BufferPoolFacts.getPage_miss_view bp q Hwf Hq)
      as [(bp' & -> & _ & Htab & Hdata & Hpo & _)
         |(v & bp' & d & -> & _ & Hv & _ & _ & _ & _ & Hdata & Hpo & Htab & _)].
    + simpl. apply Hfin; by rewrite ?Htab, ?Hdata, ?Hpo.
    + simpl. assert (f ≠ v) as Hne by (intros ->; congruence).
      apply Hfin.
      * apply Htab; [done| |done..]. intros ->. congruence.
      * by rewrite Hdata.
      * by rewrite Hpo.
Qed.

Lemma pinned_page_is_never_evicted_witness :
  ∃ fr', page_table (final_state (getPage (final_state (getPage (init 1 []) 7)) 8)) !! 7
           = Some 0%nat ∧
         frames (final_state (getPage (final_state (getPage (init 1 []) 7)) 8)) !! 0%nat
           = Some fr' ∧
         data fr' = zero_page ∧ is_pinned fr' = true.
Proof.
  apply (pinned_page_is_never_evicted 1 (final_state (getPage (init 1 []) 7)) 7 0
           (mkFrame 7 false true zero_page) 8).
  - do 2 constructor.
  - lia.
  - reflexivity.
  - reflexivity.
  - reflexivity.
Defined.

(** X13. On a miss the victim is the first unpinned frame from the front of
    the LRU list, and [getPage] moves the frame of every access to the
    front: the frame taken is the most recently used one that is not
    pinned. The page it held, if any other than 0, is no longer resident. *)
Theorem victim_is_most_recent_unpinned n bp q v bp' :
  reachable n bp → page_table bp !! q = None → getPage bp q = Ok v bp' →
  ∃ l1 l2 fr,
    lru_list bp = l1 ++ v :: l2 ∧
    (∀ f, f ∈ l1 → pinned_at bp f = Some true) ∧
    frames bp !! v = Some fr ∧ is_pinned fr = false ∧
    lru_list bp' = v :: l1 ++ l2 ∧
    (page_id fr ≠ 0 → page_id fr ≠ q → page_table bp' !! page_id fr = None).
Proof.
  intros [Hwf Hlen]%BufferPoolFacts.reachable_wf Hq Hget.
  destruct (findVictim_from (frames bp) (lru_list bp)) as [e|[v' rest]] eqn:Hfind.
  { unfold getPage, findVictim in Hget. rewrite Hq in Hget. cbn [frames lru_list] in Hget.
    by rewrite Hfind in Hget. }
  destruct (BufferPoolFacts.findVictim_from_inr _ _ _ _ Hfind)
    as (l1 & l2 & fr & Hlru & -> & Hfr & Hunp & Hl1).
  rewrite (BufferPoolFacts.getPage_miss bp q v' (l1 ++ l2) fr Hq Hfind Hfr) in Hget.
  cbn zeta in Hget. injection Hget as <- <-.
  exists l1, l2, fr. split_and!; [done| |done..|].
  - intros f Hf. destruct (Hl1 f Hf) as (fr' & Hfr' & Hp').
    unfold pinned_at. by rewrite Hfr', <-Hp'.
  - intros Hne Hneq. cbn [page_table]. rewrite decide_True by done.
    rewrite lookup_insert_ne by done. by rewrite lookup_delete_eq.
Qed.

Lemma victim_is_most_recent_unpinned_witness :
  ∃ l1 l2 fr,
    lru_list (releasePage (final_state (getPage (init 3 []) 7)) 7) = l1 ++ 0%nat :: l2 ∧
    (∀ f, f ∈ l1 →
          pinned_at (releasePage (final_state (getPage (init 3 []) 7)) 7) f = Some true) ∧
    frames (releasePage (final_state (getPage (init 3 []) 7)) 7) !! 0%nat = Some fr ∧
    is_pinned fr = false ∧
    lru_list (final_state (getPage (releasePage (final_state (getPage (init 3 []) 7)) 7) 8))
      = 0%nat :: l1 ++ l2 ∧
    (page_id fr ≠ 0 → page_id fr ≠ 8 →
     page_table
       (final_state (getPage (releasePage (final_state (getPage (init 3 []) 7)) 7) 8))
       !! page_id fr = None).
Proof.
  apply (victim_is_most_recent_unpinned 3
           (releasePage (final_state (getPage (init 3 []) 7)) 7) 8 0).
  - do 2 constructor. constructor.
  - reflexivity.
  - reflexivity.
Defined.


(* a window of a buffer that a store elsewhere leaves alone *)
Lemma window_outside (l bs : list byte) (off o n : nat) :
  (off <= length l)%nat →
  (o + n <= off ∨ off + length bs <= o)%nat →
  take n (drop o (take off l ++ bs ++ drop (off + length bs) l)) = take n (drop o l).
Proof.
  intros Hoff Hcase. apply list_eq. intros i.
  destruct (decide (i < n)%nat) as [Hi|Hi].
  - rewrite !lookup_take_lt, !lookup_drop by done.
    destruct Hcase as [Hleft|Hright].
    + rewrite lookup_app_l by (rewrite length_take; lia).
      rewrite lookup_take_lt by lia. done.
    + rewrite lookup_app_r by (rewrite length_take; lia).
      rewrite lookup_app_r by (rewrite length_take; lia).
      rewrite lookup_drop, length_take. f_equal. lia.
  - rewrite !lookup_take_ge by lia. done.
Qed.

Lemma window_app (l k : list byte) (o n : nat) :
  (o + n <= length l)%nat → take n (drop o (l ++ k)) = take n (drop o l).
Proof.
  intros Hfit. rewrite drop_app_le by lia. rewrite take_app_le; [done|].
  rewrite length_drop. lia.
Qed.

(* the file after a write, as one store into the padded file *)
Lemma writePageToDisk_contents f p d :
  length d = PAGE_SIZE →
  ∃ padded,
    contents (writePageToDisk f p d)
      = take (page_offset p) padded ++ d ++ drop (page_offset p + length d) padded ∧
    (page_offset p <= length padded)%nat ∧
    (length (contents f) <= length padded)%nat ∧
    (∀ o n, (o + n <= length (contents f))%nat →
            take n (drop o padded) = take n (drop o (contents f))) ∧
    failbit (writePageToDisk f p d) = false.
Proof.
  intros Hd. unfold writePageToDisk. cbn [contents failbit].
  rewrite (take_ge d) by lia. rewrite Hd.
  destruct (decide (length (contents f) <= page_offset p)%nat) as [Hle|Hgt].
  - eexists. split; [reflexivity|]. rewrite length_app, length_replicate.
    split_and!; [lia|lia| |done]. intros o n Hfit. by apply window_app.
  - exists (contents f). split_and!; [done|lia|lia|done|done].
Qed.

Lemma read_after_write f p d :
  length d = PAGE_SIZE →
  read_bytes (contents (writePageToDisk f p d)) (page_offset p) PAGE_SIZE = Some d.
Proof.
  intros Hd. destruct (writePageToDisk_contents f p d Hd) as (padded & -> & Hoff & _).
  pose proof (CodecFacts.read_bytes_app (take (page_offset p) padded) d
                (drop (page_offset p + length d) padded)) as H.
  rewrite length_take_le in H by done. rewrite <-Hd. exact H.
Qed.

Lemma read_other_after_write f p d q d' :
  0 <= p → 0 <= q → q ≠ p → length d = PAGE_SIZE →
  read_bytes (contents f) (page_offset q) PAGE_SIZE = Some d' →
  read_bytes (contents (writePageToDisk f p d)) (page_offset q) PAGE_SIZE = Some d'.
Proof.
  intros Hp Hq Hne Hd Hread.
  destruct (writePageToDisk_contents f p d Hd) as (padded & -> & Hoff & Hlen & Hsame & _).
  unfold read_bytes in *.
  destruct (decide (page_offset q + PAGE_SIZE <= length (contents f))%nat) as [Hfit|];
    [|done].
  injection Hread as <-.
  rewrite decide_True.
  2:{ rewrite !length_app, length_take, length_drop. lia. }
  f_equal. rewrite window_outside, Hsame; [done|done|done|].
  rewrite Hd. unfold page_offset.
  assert (Z.to_nat q ≠ Z.to_nat p) as Hne' by lia.
  generalize dependent PAGE_SIZE. intros. nia.
Qed.

(** X14. The file is a store of pages: after [writePageToDisk] of a page,
    [readPageFromDisk] of that page returns the bytes written, and every
    other page that the file held completely before the write is read
    back with the bytes it had. *)
Theorem page_file_round_trip f p d :
  0 <= p → length d = PAGE_SIZE →
  readPageFromDisk (writePageToDisk f p d) p = (d, writePageToDisk f p d) ∧
  ∀ q d', 0 <= q → q ≠ p →
    read_bytes (contents f) (page_offset q) PAGE_SIZE = Some d' →
    readPageFromDisk (writePageToDisk f p d) q = (d', writePageToDisk f p d).
Proof.
  intros Hp Hd.
  assert (failbit (writePageToDisk f p d) = false) as Hgood by done.
  split.
  - unfold readPageFromDisk. rewrite Hgood. by rewrite read_after_write.
  - intros q d' Hq Hne Hread. unfold readPageFromDisk. rewrite Hgood.
    by rewrite (read_other_after_write f p d q d').
Qed.

Lemma page_file_round_trip_witness :
  readPageFromDisk (writePageToDisk (mkFile [] true) 2 zero_page) 2
    = (zero_page, writePageToDisk (mkFile [] true) 2 zero_page).
Proof.
  destruct (page_file_round_trip (mkFile [] true) 2 zero_page) as [Hread _].
  - lia.
  - apply length_replicate.
  - exact Hread.
Defined.

Lemma contents_readPageFromDisk f p :
  contents (readPageFromDisk f p).2 = contents f.
Proof.
  unfold readPageFromDisk. destruct (failbit f); [done|].
  by destruct (read_bytes _ _ _).
Qed.

(** X15. A miss writes the victim's page to the file exactly when the frame
    is dirty: the bytes of a dirty frame that holds a page other than 0
    are in the file, at the page's offset, when [getPage] returns; for a
    clean frame, or one that holds no page, the bytes of the file are not
    touched. *)
Theorem eviction_writes_back_iff_dirty n bp q v bp' fr :
  reachable n bp → page_table bp !! q = None → getPage bp q = Ok v bp' →
  frames bp !! v = Some fr →
  (page_id fr ≠ 0 → is_dirty fr = true → length (data fr) = PAGE_SIZE →
   read_bytes (contents (db_file bp')) (page_offset (page_id fr)) PAGE_SIZE
     = Some (data fr)) ∧
  (page_id fr = 0 ∨ is_dirty fr = false →
   contents (db_file bp') = contents (db_file bp)).
Proof.
  intros [Hwf Hlen]%BufferPoolFacts.reachable_wf Hq Hget Hfr.
  destruct (findVictim_from (frames bp) (lru_list bp)) as [e|[v' rest]] eqn:Hfind.
  { unfold getPage, findVictim in Hget. rewrite Hq in Hget. cbn [frames lru_list] in Hget.
    by rewrite Hfind in Hget. }
  assert (v' = v) as ->.
  { destruct (BufferPoolFacts.findVictim_from_inr _ _ _ _ Hfind)
      as (l1 & l2 & fr' & _ & _ & Hfr' & _).
    rewrite (BufferPoolFacts.getPage_miss bp q v' rest fr' Hq Hfind Hfr') in Hget.
    cbn zeta in Hget. by injection Hget as <- _. }
  rewrite (BufferPoolFacts.getPage_miss bp q v rest fr Hq Hfind Hfr) in Hget.
  cbn zeta in Hget. injection Hget as <-. cbn [db_file].
  rewrite contents_readPageFromDisk. split.
  - intros Hne Hdirty Hd. rewrite decide_True by done. rewrite Hdirty.
    by apply read_after_write.
  - intros [H0|Hclean].
    + by rewrite decide_False by (intros H; by apply H).
    + rewrite Hclean. by destruct (decide _).
Qed.

Lemma eviction_writes_back_iff_dirty_witness :
  read_bytes (contents (db_file (final_state (getPage dirty_page_7 8))))
             (page_offset 7) PAGE_SIZE = Some zero_page.
Proof.
  destruct (eviction_writes_back_iff_dirty 1 dirty_page_7 8 0
              (final_state (getPage dirty_page_7 8))
              (mkFrame 7 true false zero_page)) as [Hdirty _].
  - unfold dirty_page_7. repeat constructor.
  - reflexivity.
  - reflexivity.
  - reflexivity.
  - apply Hdirty; [done|done|apply length_replicate].
Defined.

(** X16. What a miss loads when the victim is clean or empty: the bytes that
    the file holds for the page, if the stream is good and the file holds
    the whole page; otherwise a page of zeros, and the stream is in the
    failed state afterwards. No read clears that state, so once a page that
    lies past the end of the file has been requested, every miss of this
    kind loads zeros, also for pages that the file holds. *)
Theorem miss_loads_zeros_after_failed_read n bp q v bp' fr :
  reachable n bp → page_table bp !! q = None → getPage bp q = Ok v bp' →
  frames bp !! v = Some fr → (page_id fr = 0 ∨ is_dirty fr = false) →
  (failbit (db_file bp) = true ∨
   read_bytes (contents (db_file bp)) (page_offset q) PAGE_SIZE = None →
   data_at bp' v = Some zero_page ∧ failbit (db_file bp') = true) ∧
  (∀ d, failbit (db_file bp) = false →
        read_bytes (contents (db_file bp)) (page_offset q) PAGE_SIZE = Some d →
        data_at bp' v = Some d ∧ failbit (db_file bp') = false).
Proof.
  intros [Hwf Hlen]%BufferPoolFacts.reachable_wf Hq Hget Hfr Hclean.
  destruct (findVictim_from (frames bp) (lru_list bp)) as [e|[v' rest]] eqn:Hfind.
  { unfold getPage, findVictim in Hget. rewrite Hq in Hget. cbn [frames lru_list] in Hget.
    by rewrite Hfind in Hget. }
  assert (v' = v) as ->.
  { destruct (BufferPoolFacts.findVictim_from_inr _ _ _ _ Hfind)
      as (l1 & l2 & fr' & _ & _ & Hfr' & _).
    rewrite (BufferPoolFacts.getPage_miss bp q v' rest fr' Hq Hfind Hfr') in Hget.
    cbn zeta in Hget. by injection Hget as <- _. }
  rewrite (BufferPoolFacts.getPage_miss bp q v rest fr Hq Hfind Hfr) in Hget.
  cbn zeta in Hget. injection Hget as <-.
  assert ((if decide (page_id fr ≠ 0)
           then if is_dirty fr
                then writePageToDisk (db_file bp) (page_id fr) (data fr)
                else db_file bp
           else db_file bp) = db_file bp) as ->.
  { destruct Hclean as [H0|Hc].
    - by rewrite decide_False by (intros H; by apply H).
    - rewrite Hc. by destruct (decide _). }
  unfold data_at. cbn [frames db_file].
  rewrite list_lookup_insert_eq by (by eapply lookup_lt_Some). cbn [fmap option_fmap option_map data].
  unfold readPageFromDisk. split.
  - intros [Hfail|Hshort].
    + by rewrite Hfail.
    + destruct (failbit (db_file bp)) eqn:Hfb; [done|]. by rewrite Hshort.
  - intros d Hgood Hread. by rewrite Hgood, Hread.
Qed.

Lemma miss_loads_zeros_after_failed_read_witness :
  data_at (final_state (getPage after_failed_read 1)) 0 = Some zero_page ∧
  failbit (db_file (final_state (getPage after_failed_read 1))) = true.
Proof.
  destruct (miss_loads_zeros_after_failed_read 1 after_failed_read 1 0
              (final_state (getPage after_failed_read 1))
              (mkFrame 5 false false zero_page)) as [Hzero _].
  - unfold after_failed_read. repeat constructor.
  - reflexivity.
  - vm_compute. reflexivity.
  - vm_compute. reflexivity.
  - by right.
  - apply Hzero. left. vm_compute. reflexivity.
Defined.

(* flushAllPages, frame by frame *)
Lemma flush_keeps_page p d (l : list BufferFrame) : ∀ f0,
  Forall (λ fr, 0 <= page_id fr ∧ length (data fr) = PAGE_SIZE) l →
  0 <= p →
  Forall (λ fr, is_dirty fr = true → page_id fr ≠ p) l →
  read_bytes (contents f0) (page_offset p) PAGE_SIZE = Some d →
  failbit f0 = false →
  let f1 := fold_left (λ f fr, if is_dirty fr
                               then writePageToDisk f (page_id fr) (data fr) else f)
                      l f0 in
  read_bytes (contents f1) (page_offset p) PAGE_SIZE = Some d ∧ failbit f1 = false.
Proof.
  induction l as [|fr l IH]; intros f0 Hwhole Hp Hother Hread Hgood; [done|].
  apply Forall_cons in Hwhole as [[Hid Hlen] Hwhole].
  apply Forall_cons in Hother as [Hfr Hother].
  cbn [fold_left]. apply IH; [done|done|done| |].
  - destruct (is_dirty fr); [|done].
    apply read_other_after_write; [done|done| |done|done].
    intros ->. by apply Hfr.
  - by destruct (is_dirty fr).
Qed.

Lemma flush_writes_page bp p f fr :
  wf bp → whole_pages bp → p ≠ 0 →
  page_table bp !! p = Some f → frames bp !! f = Some fr → is_dirty fr = true →
  read_bytes (contents (db_file (flushAllPages bp))) (page_offset p) PAGE_SIZE
    = Some (data fr) ∧
  failbit (db_file (flushAllPages bp)) = false.
Proof.
  intros Hwf Hwhole Hp Hpf Hf Hdirty.
  pose proof (wf_table_page _ Hwf p f fr Hp Hpf Hf) as Hid.
  unfold whole_pages in Hwhole.
  unfold flushAllPages. cbn [db_file].
  rewrite <-(take_drop_middle (frames bp) f fr Hf) in Hwhole |- *.
  apply Forall_app in Hwhole as [_ Hwhole].
  apply Forall_cons in Hwhole as [[Hnonneg Hlen] Hwhole].
  rewrite fold_left_app. cbn [fold_left]. rewrite Hdirty, Hid.
  apply flush_keeps_page; [done|lia| | |done].
  - apply Forall_forall. intros gr Hin Hd Hq.
    apply list_elem_of_lookup in Hin as [i Hi]. rewrite lookup_drop in Hi.
    assert (page_id gr ≠ 0) as Hne by congruence.
    pose proof (wf_frame_table _ Hwf _ _ Hi Hne) as Hg. rewrite Hq in Hg.
    assert (S f + i = f)%nat by congruence. lia.
  - by apply read_after_write.
Qed.

(** X23. [flushAllPages] saves what is dirty: in a pool of whole pages, a
    page other than 0 that is resident and dirty is in the file when
    [flushAllPages] returns, so that [readPageFromDisk] delivers the bytes
    of its frame; the frames keep their pages and bytes, and none is dirty
    any more. *)
Theorem flushAllPages_saves_dirty_pages n bp p f fr :
  reachable n bp → whole_pages bp → p ≠ 0 →
  page_table bp !! p = Some f → frames bp !! f = Some fr → is_dirty fr = true →
  readPageFromDisk (db_file (flushAllPages bp)) p
    = (data fr, db_file (flushAllPages bp)) ∧
  page_table (flushAllPages bp) = page_table bp ∧
  (∀ g, data_at (flushAllPages bp) g = data_at bp g) ∧
  (∀ g, g < length (frames bp) → dirty_at (flushAllPages bp) g = Some false)%nat.
Proof.
  intros Hr Hwhole Hp Hpf Hf Hdirty.
  destruct (BufferPoolFacts.reachable_wf n bp Hr) as [Hwf _].
  destruct (flush_writes_page bp p f fr Hwf Hwhole Hp Hpf Hf Hdirty) as [Hread Hgood].
  split_and!.
  - unfold readPageFromDisk. by rewrite Hgood, Hread.
  - done.
  - intros g. unfold data_at, flushAllPages. cbn [frames].
    rewrite list_lookup_fmap. by destruct (frames bp !! g).
  - intros g Hg. unfold dirty_at, flushAllPages. cbn [frames].
    rewrite list_lookup_fmap.
    destruct (lookup_lt_is_Some_2 _ _ Hg) as [gr ->]. done.
Qed.

Lemma flushAllPages_saves_dirty_pages_witness :
  readPageFromDisk (db_file (flushAllPages two_dirty_pages)) 1
    = (replicate PAGE_SIZE x01, db_file (flushAllPages two_dirty_pages)).
Proof.
  destruct (flushAllPages_saves_dirty_pages 2 two_dirty_pages 1 0
              (mkFrame 1 true false (replicate PAGE_SIZE x01))) as [Hread _].
  - repeat constructor.
  - unfold whole_pages.
    assert (frames two_dirty_pages
            = [mkFrame 1 true false (replicate PAGE_SIZE x01);
               mkFrame 2 true false zero_page]) as -> by (vm_compute; reflexivity).
    repeat constructor; cbn [page_id data]; try lia; apply length_replicate.
  - lia.
  - reflexivity.
  - vm_compute. reflexivity.
  - reflexivity.
  - exact Hread.
Defined.

(* what the calls of a table on a resident page do to the dirty flags and
   to the sizes of the frames *)
Lemma whole_pages_insert bp f fr fr' :
  frames bp !! f = Some fr → page_id fr' = page_id fr →
  length (data fr') = PAGE_SIZE →
  whole_pages bp → whole_pages (with_frames (<[f := fr']> (frames bp)) bp).
Proof.
  intros Hf Hid Hlen Hwhole. unfold whole_pages in *. cbn [frames with_frames].
  apply Forall_insert; [done|]. split; [|done].
  rewrite Forall_forall in Hwhole. rewrite Hid.
  apply (Hwhole fr). by eapply list_elem_of_lookup_2.
Qed.

Lemma whole_pages_length bp f fr :
  whole_pages bp → frames bp !! f = Some fr → length (data fr) = PAGE_SIZE.
Proof.
  unfold whole_pages. rewrite Forall_forall. intros Hwhole Hf.
  apply (Hwhole fr). by eapply list_elem_of_lookup_2.
Qed.

Lemma getPage_hit_kept bp p f fr :
  page_table bp !! p = Some f → frames bp !! f = Some fr →
  (whole_pages bp → whole_pages (final_state (getPage bp p))) ∧
  (∀ g, dirty_at (final_state (getPage bp p)) g = dirty_at bp g).
Proof.
  intros Hp Hf. rewrite (BufferPoolFacts.getPage_hit _ _ _ _ Hp Hf). cbn [final_state].
  assert (f < length (frames bp))%nat as Hlt by (by eapply lookup_lt_Some).
  split.
  - intros Hwhole.
    pose proof (whole_pages_length bp f fr Hwhole Hf) as Hlen.
    exact (whole_pages_insert bp f fr (set_pinned true fr) Hf eq_refl Hlen Hwhole).
  - intros g. unfold dirty_at. cbn [frames].
    destruct (decide (g = f)) as [->|Hne].
    + by rewrite list_lookup_insert_eq, Hf by done.
    + by rewrite list_lookup_insert_ne by done.
Qed.

Lemma storeData_kept bp f d :
  length d = PAGE_SIZE →
  (whole_pages bp → whole_pages (storeData bp f d)) ∧
  (∀ g, dirty_at (storeData bp f d) g = dirty_at bp g).
Proof.
  intros Hlen. unfold storeData. destruct (frames bp !! f) as [fr|] eqn:Hf; [|done].
  assert (f < length (frames bp))%nat as Hlt by (by eapply lookup_lt_Some).
  split.
  - by apply (whole_pages_insert bp f fr (set_data d fr)).
  - intros g. unfold dirty_at. cbn [frames with_frames].
    destruct (decide (g = f)) as [->|Hne].
    + by rewrite list_lookup_insert_eq, Hf by done.
    + by rewrite list_lookup_insert_ne by done.
Qed.

Lemma markDirty_kept bp p f :
  page_table bp !! p = Some f → is_Some (frames bp !! f) →
  (whole_pages bp → whole_pages (markDirty bp p)) ∧
  dirty_at (markDirty bp p) f = Some true.
Proof.
  intros Hp [fr Hf]. unfold markDirty. rewrite Hp, Hf.
  assert (f < length (frames bp))%nat as Hlt by (by eapply lookup_lt_Some).
  split.
  - intros Hwhole. apply (whole_pages_insert bp f fr (set_dirty true fr)); [done..| |done].
    exact (whole_pages_length bp f fr Hwhole Hf).
  - unfold dirty_at. cbn [frames with_frames]. by rewrite list_lookup_insert_eq by done.
Qed.

Lemma releasePage_kept bp p :
  (whole_pages bp → whole_pages (releasePage bp p)) ∧
  (∀ g, dirty_at (releasePage bp p) g = dirty_at bp g).
Proof.
  unfold releasePage. destruct (page_table bp !! p) as [f|]; [|done].
  destruct (frames bp !! f) as [fr|] eqn:Hf; [|done].
  assert (f < length (frames bp))%nat as Hlt by (by eapply lookup_lt_Some).
  split.
  - intros Hwhole. apply (whole_pages_insert bp f fr (set_pinned false fr)); [done..| |done].
    exact (whole_pages_length bp f fr Hwhole Hf).
  - intros g. unfold dirty_at. cbn [frames with_frames].
    destruct (decide (g = f)) as [->|Hne].
    + by rewrite list_lookup_insert_eq, Hf by done.
    + by rewrite list_lookup_insert_ne by done.
Qed.

(* the first getPage of a new pool: frame 0 takes the page, with what the
   file holds for it *)
Lemma getPage_init n file p :
  0 < p →
  ∃ bp, getPage (init (S n) file) p = Ok 0%nat bp ∧
        wf bp ∧ whole_pages bp ∧
        page_table bp !! p = Some 0%nat ∧
        page_table bp !! 0 = None ∧
        data_at bp 0 = Some (readPageFromDisk (mkFile file false) p).1.
Proof.
  intros Hp.
  pose proof (BufferPoolFacts.wf_getPage (init (S n) file) p
                (BufferPoolFacts.wf_init _ _)) as Hwf.
  rewrite (BufferPoolFacts.getPage_miss (init (S n) file) p 0 (seq 1 n) emptyFrame) in *;
    [|done..].
  cbn zeta in *. cbn [final_state] in Hwf.
  cbn [page_id emptyFrame db_file init page_table frames] in *.
  rewrite decide_False in * by (intros H; by apply H).
  eexists. split; [reflexivity|]. split_and!.
  - done.
  - unfold whole_pages. cbn [frames replicate list_insert insert].
    apply Forall_cons. split.
    + cbn [page_id data]. split; [lia|]. apply BufferPoolFacts.readPageFromDisk_length.
    + apply Forall_replicate. cbn [page_id data emptyFrame].
      split; [lia|]. apply length_replicate.
  - cbn [page_table]. by rewrite lookup_insert_eq.
  - cbn [page_table]. rewrite lookup_insert_ne by lia. done.
  - unfold data_at. cbn [frames replicate]. done.
Qed.

End BufferPoolProperties.

Module CodecProperties.
Import Codec.

(** X17. [getTupleSize] raises exactly when a VARCHAR column is paired with
    a value that is not a string, and then it raises bad_variant_access.
    Nothing else makes it fail: values of the wrong type for the other
    columns, missing values and surplus values are all sized without
    complaint, the loop stopping at the shorter of the two lists. *)
Theorem getTupleSize_raises_iff_varchar_mismatch schema tuple :
  (getTupleSize schema tuple = inl BadVariantAccess ↔
   ∃ i col v, columns schema !! i = Some col ∧ values tuple !! i = Some v ∧
              type col = VARCHAR ∧ type_of v ≠ VARCHAR) ∧
  (∀ e, getTupleSize schema tuple = inl e → e = BadVariantAccess).
Proof.
  unfold getTupleSize.
  assert (∀ cols vs,
    (fields_size cols vs = inl BadVariantAccess ↔
     ∃ i col v, cols !! i = Some col ∧ vs !! i = Some v ∧
                type col = VARCHAR ∧ type_of v ≠ VARCHAR) ∧
    (∀ e, fields_size cols vs = inl e → e = BadVariantAccess)) as Hfields.
  { induction cols as [|col cols IH]; intros vs.
    - simpl. split; [|done]. split; [done|]. by intros (i & c & v & ? & _).
    - destruct vs as [|v vs].
      + simpl. split; [|done]. split; [done|]. by intros (i & c & v & _ & ? & _).
      + destruct (IH vs) as [IH1 IH2]. cbn [fields_size].
        assert (∀ n : nat,
          (res_bind (inr n) (λ n, res_bind (fields_size cols vs) (λ m, inr (n + m)%nat))
             = inl BadVariantAccess ↔ fields_size cols vs = inl BadVariantAccess) ∧
          (∀ e, res_bind (inr n) (λ n, res_bind (fields_size cols vs)
                                          (λ m, inr (n + m)%nat)) = inl e →
                e = BadVariantAccess)) as Hrest.
        { intros n. cbn [res_bind].
          destruct (fields_size cols vs) as [e|m] eqn:Hf; cbn [res_bind].
          - split; [done|]. intros e' [= <-]. by apply IH2.
          - split; [done|]. done. }
        assert ((∃ i c w, (col :: cols) !! i = Some c ∧ (v :: vs) !! i = Some w ∧
                          type c = VARCHAR ∧ type_of w ≠ VARCHAR) ↔
                (type col = VARCHAR ∧ type_of v ≠ VARCHAR) ∨
                ∃ i c w, cols !! i = Some c ∧ vs !! i = Some w ∧
                         type c = VARCHAR ∧ type_of w ≠ VARCHAR) as Hsplit.
        { split.
          - intros ([|i] & c & w & Hc & Hw & Hty); simpl in *.
            + left. by simplify_eq.
            + right. by exists i, c, w.
          - intros [[? ?]|(i & c & w & ? & ? & ?)].
            + by exists O, col, v.
            + by exists (S i), c, w. }
        rewrite Hsplit.
        destruct (type col) eqn:Hty.
        * destruct (Hrest 4%nat) as [-> H2]. split; [|done]. rewrite IH1. naive_solver.
        * destruct v as [z|str|b|bits].
          -- cbn [res_bind]. split; [|by intros e [= <-]]. split; [|done].
             intros _. left. done.
          -- destruct (Hrest (4 + String.length str)%nat) as [-> H2].
             split; [|done]. rewrite IH1. simpl. naive_solver.
          -- cbn [res_bind]. split; [|by intros e [= <-]]. split; [|done].
             intros _. left. done.
          -- cbn [res_bind]. split; [|by intros e [= <-]]. split; [|done].
             intros _. left. done.
        * destruct (Hrest 1%nat) as [-> H2]. split; [|done]. rewrite IH1. naive_solver.
        * destruct (Hrest 8%nat) as [-> H2]. split; [|done]. rewrite IH1. naive_solver. }
  destruct (Hfields (columns schema) (values tuple)) as [H1 H2].
  destruct (fields_size (columns schema) (values tuple)) as [e|n] eqn:Hf; cbn [res_bind].
  - split; [|intros e' [= <-]; by apply H2].
    rewrite <-H1. split; congruence.
  - split; [|done]. rewrite <-H1. done.
Qed.

Lemma write_bytes_frame buf off bs buf' :
  write_bytes buf off bs = Some buf' →
  length buf' = length buf ∧ take off buf' = take off buf ∧
  drop (off + length bs) buf' = drop (off + length bs) buf ∧
  take (length bs) (drop off buf') = bs.
Proof.
  unfold write_bytes. destruct (decide _) as [Hfit|]; [|done]. intros [= <-].
  assert (length (take off buf) = off) as Hlen by (rewrite length_take; lia).
  split_and!.
  - rewrite !length_app, length_take, length_drop. lia.
  - rewrite take_app_length'; done.
  - rewrite app_assoc, drop_app_length'; [done|]. rewrite length_app. lia.
  - rewrite drop_app_length' by done. by rewrite take_app_length.
Qed.

Lemma write_values_frame vs : ∀ buf off buf' off',
  write_values vs buf off = inr (buf', off') →
  off' = (off + length (encode_values vs))%nat ∧
  length buf' = length buf ∧ take off buf' = take off buf ∧
  drop off' buf' = drop off' buf ∧
  take (length (encode_values vs)) (drop off buf') = encode_values vs.
Proof.
  induction vs as [|v vs IH]; intros buf off buf' off' Hw.
  - simpl in Hw. injection Hw as <- <-. unfold encode_values. simpl.
    rewrite Nat.add_0_r. by rewrite take_0.
  - cbn [write_values] in Hw.
    destruct (write_bytes buf off (encode_value v)) as [buf1|] eqn:Hw1; [|done].
    cbn [of_option res_bind] in Hw.
    apply write_bytes_frame in Hw1 as (Hl1 & Ht1 & Hd1 & Hb1).
    apply IH in Hw as (-> & Hl2 & Ht2 & Hd2 & Hb2).
    rewrite CodecFacts.length_encode_values_cons.
    set (n := length (encode_value v)) in *. set (m := length (encode_values vs)) in *.
    split_and!.
    + lia.
    + congruence.
    + rewrite <-Ht1. rewrite <-(take_take_drop buf' off n) in Ht2.
      rewrite <-(take_take_drop buf1 off n) in Ht2.
      apply app_inj_1 in Ht2 as [Ht2 _]; [done|].
      rewrite !length_take. lia.
    + replace (off + (n + m))%nat with (off + n + m)%nat by lia.
      rewrite Hd2. rewrite <-(drop_drop buf1 m (off + n)), <-(drop_drop buf m (off + n)).
      by rewrite Hd1.
    + unfold encode_values. cbn [map concat]. fold (encode_values vs).
      rewrite <-(take_take_drop (drop off buf') n m). rewrite drop_drop. f_equal.
      * rewrite <-Hb1. rewrite <-(take_take_drop buf' off n) in Ht2.
        rewrite <-(take_take_drop buf1 off n) in Ht2.
        apply app_inj_1 in Ht2 as [_ Ht2]; [done|].
        rewrite !length_take. lia.
      * exact Hb2.
Qed.

(** X18. [serializeTuple] changes only the bytes it reports: when it
    returns, the buffer has the length it had, the bytes before the offset
    and the bytes from offset + written on are the ones from before, and
    written is 16 plus the encoded size of the values as they are, which
    is what getTupleSize computed only if the values have the types of
    their columns. *)
Theorem serializeTuple_writes_only_its_bytes schema tuple buf offset buf' written :
  serializeTuple schema tuple buf offset = inr (buf', written) →
  written = (TUPLE_HEADER_SIZE + length (encode_values (values tuple)))%nat ∧
  length buf' = length buf ∧
  take offset buf' = take offset buf ∧
  drop (offset + written) buf' = drop (offset + written) buf ∧
  take (length (encode_values (values tuple))) (drop (offset + TUPLE_HEADER_SIZE) buf')
    = encode_values (values tuple).
Proof.
  unfold serializeTuple.
  destruct (getTupleSize schema tuple) as [e|sz]; [done|]. cbn [res_bind].
  set (h := mkTupleHeader _ _ _).
  assert (length (encode_tuple_header h) = TUPLE_HEADER_SIZE) as Hh.
  { unfold encode_tuple_header. by rewrite !length_app, !CodecFacts.length_le_bytes. }
  destruct (write_bytes buf offset (encode_tuple_header h)) as [buf1|] eqn:Hw1; [|done].
  cbn [of_option res_bind].
  destruct (write_values (values tuple) buf1 (offset + TUPLE_HEADER_SIZE))
    as [e|[buf2 off2]] eqn:Hw2; [done|].
  cbn [res_bind]. intros [= <- <-].
  apply write_bytes_frame in Hw1 as (Hl1 & Ht1 & Hd1 & _). rewrite Hh in Hd1.
  apply write_values_frame in Hw2 as (-> & Hl2 & Ht2 & Hd2 & Hb2).
  set (m := length (encode_values (values tuple))) in *.
  split_and!.
  - lia.
  - congruence.
  - rewrite <-Ht1.
    rewrite <-(take_take_drop buf2 offset TUPLE_HEADER_SIZE) in Ht2.
    rewrite <-(take_take_drop buf1 offset TUPLE_HEADER_SIZE) in Ht2.
    apply app_inj_1 in Ht2 as [Ht2 _]; [done|]. rewrite !length_take. lia.
  - replace (offset + (offset + TUPLE_HEADER_SIZE + m - offset))%nat
      with (offset + TUPLE_HEADER_SIZE + m)%nat by lia.
    rewrite Hd2.
    rewrite <-(drop_drop buf1 m (offset + TUPLE_HEADER_SIZE)),
            <-(drop_drop buf m (offset + TUPLE_HEADER_SIZE)).
    by rewrite Hd1.
  - exact Hb2.
Qed.

Lemma serializeTuple_writes_only_its_bytes_witness :
  ∃ buf', serializeTuple users_schema alice (replicate 64 xff) 8 = inr (buf', 42%nat) ∧
          length buf' = 64%nat ∧ take 8 buf' = replicate 8 xff ∧
          drop 50 buf' = replicate 14 xff.
Proof.
  assert (∃ buf', serializeTuple users_schema alice (replicate 64 xff) 8
                  = inr (buf', 42%nat)) as [buf' Hs].
  { eexists. vm_compute. reflexivity. }
  exists buf'. split; [done|].
  destruct (serializeTuple_writes_only_its_bytes _ _ _ _ _ _ Hs) as (_ & H1 & H2 & H3 & _).
  split_and!; [exact H1|exact H2|exact H3].
Defined.

End CodecProperties.

Module BTreeProperties.
Import BTree.

Lemma key_lt_asym a b : key_lt a b = true → key_lt b a = false.
Proof.
  intros Hab. destruct (key_lt b a) eqn:Hba; [|done].
  pose proof (BTreeFacts.key_lt_trans _ _ _ Hab Hba) as Haa.
  by rewrite BTreeFacts.key_lt_irrefl in Haa.
Qed.

Lemma key_lt_not_eq a b : key_lt a b = true → key_eq a b = false.
Proof.
  intros Hab. destruct (key_eq a b) eqn:Heq; [|done].
  apply BTreeFacts.key_eq_spec in Heq as ->.
  by rewrite BTreeFacts.key_lt_irrefl in Hab.
Qed.

Lemma key_gt_lt a b : key_gt a b = key_lt b a.
Proof. done. Qed.

#[local] Opaque key_lt key_gt key_eq.

(* evaluation of the vector operations on vectors of known length *)
#[local] Ltac crunch :=
  repeat first
    [ progress cbn
    | progress unfold isFull, vector_insert, MAX_KEYS
    | rewrite decide_True by (cbn; lia)
    | rewrite bool_decide_eq_true_2 by (cbn; lia)
    | rewrite bool_decide_eq_false_2 by (cbn; lia) ].

Lemma search_two_children k2 v2 c1 k :
  searchRecursive (Node [k2] [v2] [None; Some c1] false) k =
    if key_gt k k2 then searchRecursive c1 k
    else if key_eq k k2 then inr (Some v2) else inr None.
Proof.
  cbn [searchRecursive search_index].
  destruct (key_gt k k2); [reflexivity|].
  cbn [lookup list_lookup]. destruct (key_eq k k2); reflexivity.
Qed.

(** X19. The first split loses the smaller half of the index. When the root
    is a leaf with four entries, the next [insert] splits it around the
    third entry, and the node with the entries before it is destroyed,
    its slot in the new root left null. If the new key is smaller than the
    third key, [insert] then dereferences that null slot. Otherwise it
    returns, and from then on [search] finds no key smaller than the third
    key, whether it was inserted or not; it still finds the third key, and
    for a greater key it returns the first of the fourth entry and the new
    one that carries it. *)
Theorem first_split_loses_smaller_keys node e0 e1 e2 e3 key value :
  leaf_root node [e0; e1; e2; e3] →
  (key_lt key e2.1 = true → insert node key value = inl Undefined) ∧
  (key_lt key e2.1 = false →
   ∃ node', insert node key value = inr node' ∧
     (∀ k, key_lt k e2.1 = true → search node' k = inr None) ∧
     search node' e2.1 = inr (Some e2.2) ∧
     (∀ k, key_gt k e2.1 = true →
           search node' k = inr (first_with_key k [e3; (key, value)]))).
Proof.
  intros [-> Hs]. destruct e0 as [k0 v0], e1 as [k1 v1], e2 as [k2 v2], e3 as [k3 v3].
  cbn [fmap list_fmap fst snd] in *.
  split.
  - intros Hlt. unfold insert. crunch. unfold insert_index. crunch. rewrite Hlt. by crunch.
  - intros Hge. unfold insert. crunch. unfold insert_index. crunch. rewrite Hge. crunch.
    unfold insert_index. crunch.
    destruct (key_lt key k3) eqn:Hk3; crunch.
    + eexists. split; [reflexivity|]. unfold search.
      split_and!; [intros k Hk|..|intros k Hk]; rewrite search_two_children, key_gt_lt.
      * rewrite (key_lt_asym _ _ Hk). by rewrite (key_lt_not_eq _ _ Hk).
      * rewrite BTreeFacts.key_lt_irrefl.
        by rewrite (proj2 (BTreeFacts.key_eq_spec k2 k2) eq_refl).
      * rewrite key_gt_lt in Hk. rewrite Hk.
        pose proof (BTreeFacts.search_leaf [(key, value); (k3, v3)] k) as Hleaf.
        cbn [fmap list_fmap fst snd] in Hleaf. rewrite Hleaf.
        2:{ repeat constructor. by apply BTreeFacts.key_lt_le. }
        f_equal. unfold first_with_key. rewrite !filter_cons, !filter_nil. cbn [fst].
        destruct (decide (key = k)) as [->|]; destruct (decide (k3 = k)) as [->|]; try done.
        by rewrite BTreeFacts.key_lt_irrefl in Hk3.
    + eexists. split; [reflexivity|]. unfold search.
      split_and!; [intros k Hk|..|intros k Hk]; rewrite search_two_children, key_gt_lt.
      * rewrite (key_lt_asym _ _ Hk). by rewrite (key_lt_not_eq _ _ Hk).
      * rewrite BTreeFacts.key_lt_irrefl.
        by rewrite (proj2 (BTreeFacts.key_eq_spec k2 k2) eq_refl).
      * rewrite key_gt_lt in Hk. rewrite Hk.
        pose proof (BTreeFacts.search_leaf [(k3, v3); (key, value)] k) as Hleaf.
        cbn [fmap list_fmap fst snd] in Hleaf. rewrite Hleaf.
        2:{ repeat constructor. exact Hk3. }
        done.
Qed.

Lemma first_split_loses_smaller_keys_witness :
  ∃ node', insert full_leaf "5" 5 = inr node' ∧
    (∀ k, key_lt k "3" = true → search node' k = inr None) ∧
    search node' "3" = inr (Some 3) ∧
    (∀ k, key_gt k "3" = true →
          search node' k = inr (first_with_key k [("4", 4); ("5", 5)])).
Proof.
  destruct (first_split_loses_smaller_keys full_leaf
              ("1", 1) ("2", 2) ("3", 3) ("4", 4) "5" 5) as [_ Hins].
  - split; [reflexivity|]. repeat constructor.
  - apply Hins. reflexivity.
Defined.

End BTreeProperties.

Module PageLayout.
Import Codec Table.

#[local] Opaque le_bytes le_value.

Lemma length_encode_tuple_header h : length (encode_tuple_header h) = TUPLE_HEADER_SIZE.
Proof. unfold encode_tuple_header. by rewrite !length_app, !CodecFacts.length_le_bytes. Qed.

Lemma length_encode_tuple tuple :
  length (encode_tuple tuple)
    = (TUPLE_HEADER_SIZE + length (encode_values (values tuple)))%nat.
Proof. unfold encode_tuple. by rewrite length_app, length_encode_tuple_header. Qed.

Lemma read_tuple_header_encoded h (pre post : list byte) :
  read_tuple_header (pre ++ encode_tuple_header h ++ post) (length pre)
    = inr (mkTupleHeader (tuple_size h mod 2 ^ 32) (next_tuple_offset h mod 2 ^ 32)
                         (tuple_id h mod 2 ^ 64)).
Proof.
  unfold read_tuple_header.
  pose proof (CodecFacts.read_bytes_app pre (encode_tuple_header h) post) as Hrd.
  rewrite length_encode_tuple_header in Hrd. rewrite Hrd. cbn [of_option res_bind].
  unfold encode_tuple_header.
  rewrite take_app_length' by (by rewrite CodecFacts.length_le_bytes).
  rewrite drop_app_length' by (by rewrite CodecFacts.length_le_bytes).
  rewrite take_app_length' by (by rewrite CodecFacts.length_le_bytes).
  rewrite app_assoc.
  rewrite drop_app_length' by (by rewrite length_app, !CodecFacts.length_le_bytes).
  by rewrite !CodecFacts.le_value_le_bytes.
Qed.

(* what serializeTuple stores for a tuple that conforms to the schema *)
Lemma serializeTuple_stores schema tuple (pre old post : list byte) :
  conforms schema tuple → tuple_in_range tuple →
  length old = length (encode_tuple tuple) →
  serializeTuple schema tuple (pre ++ old ++ post) (length pre)
    = inr (pre ++ encode_tuple tuple ++ post, length (encode_tuple tuple)).
Proof.
  intros Hconf [Hid Hr] Hold. rewrite length_encode_tuple in Hold.
  unfold serializeTuple, getTupleSize.
  rewrite (CodecFacts.fields_size_conforming _ _ Hconf Hr). cbn [res_bind].
  set (h := mkTupleHeader _ _ _).
  pose proof (length_encode_tuple_header h) as Hh.
  rewrite <-(take_drop TUPLE_HEADER_SIZE old), <-(app_assoc (take _ old)).
  rewrite CodecFacts.write_bytes_app by (rewrite length_take, Hh; lia).
  cbn [of_option res_bind].
  replace (length pre + TUPLE_HEADER_SIZE)%nat
    with (length (pre ++ encode_tuple_header h)) by (by rewrite length_app, Hh).
  rewrite (app_assoc pre (encode_tuple_header h)).
  rewrite CodecFacts.write_values_app by (rewrite length_drop; lia).
  cbn [of_option res_bind]. rewrite length_encode_tuple. unfold encode_tuple. fold h.
  rewrite <-!app_assoc. do 2 f_equal. rewrite length_app, Hh. lia.
Qed.

Lemma deserializeTuple_stored schema tuple (pre post : list byte) :
  conforms schema tuple → tuple_in_range tuple →
  deserializeTuple schema (pre ++ encode_tuple tuple ++ post) (length pre) = inr tuple.
Proof.
  intros Hconf [Hid Hr]. unfold deserializeTuple, encode_tuple.
  rewrite <-app_assoc, read_tuple_header_encoded. cbn [res_bind tuple_id].
  set (h := mkTupleHeader _ _ _).
  replace (length pre + TUPLE_HEADER_SIZE)%nat
    with (length (pre ++ encode_tuple_header h))
    by (by rewrite length_app, length_encode_tuple_header).
  rewrite (app_assoc pre (encode_tuple_header h)).
  rewrite (CodecFacts.read_values_encode _ _ _ _ Hconf Hr). cbn [res_bind].
  rewrite Z.mod_small by done. by destruct tuple.
Qed.

Lemma stored_snoc tuples tuple : stored (tuples ++ [tuple]) = stored tuples ++ encode_tuple tuple.
Proof. unfold stored. rewrite fmap_app, concat_app. simpl. by rewrite app_nil_r. Qed.

Lemma stored_cons tuple tuples : stored (tuple :: tuples) = encode_tuple tuple ++ stored tuples.
Proof. done. Qed.

Lemma length_stored_ge tuples :
  (TUPLE_HEADER_SIZE * length tuples <= length (stored tuples))%nat.
Proof.
  induction tuples as [|tuple tuples IH]; [simpl; lia|].
  rewrite stored_cons, length_app, length_encode_tuple. cbn [length]. lia.
Qed.

Lemma skip_tuples_stored tuples : ∀ (pre post : list byte),
  Z.of_nat (length (stored tuples)) < 2 ^ 32 →
  skip_tuples (pre ++ stored tuples ++ post) (length tuples) (length pre)
    = inr (length pre + length (stored tuples))%nat.
Proof.
  induction tuples as [|tuple tuples IH]; intros pre post Hsmall.
  - simpl. by rewrite Nat.add_0_r.
  - rewrite stored_cons in *. rewrite length_app, length_encode_tuple in Hsmall.
    cbn [length skip_tuples]. unfold encode_tuple at 1.
    rewrite <-!app_assoc, read_tuple_header_encoded. cbn [res_bind tuple_size].
    rewrite Zmod_mod, Z.mod_small by lia. rewrite Nat2Z.id.
    replace (length pre + (TUPLE_HEADER_SIZE + length (encode_values (values tuple))))%nat
      with (length (pre ++ encode_tuple tuple))
      by (rewrite !length_app, length_encode_tuple; lia).
    rewrite (app_assoc pre).
    rewrite IH by lia. f_equal. rewrite !length_app. lia.
Qed.

Lemma read_tuples_stored schema tuples : ∀ (pre post : list byte),
  Forall (λ tuple, conforms schema tuple ∧ tuple_in_range tuple) tuples →
  Z.of_nat (length (stored tuples)) < 2 ^ 32 →
  read_tuples schema (pre ++ stored tuples ++ post) (length tuples) (length pre)
    = inr tuples.
Proof.
  induction tuples as [|tuple tuples IH]; intros pre post Hall Hsmall; [done|].
  apply Forall_cons in Hall as [[Hconf Hrange] Hall].
  rewrite stored_cons in *. rewrite length_app, length_encode_tuple in Hsmall.
  cbn [length read_tuples]. rewrite <-app_assoc.
  rewrite deserializeTuple_stored by done. cbn [res_bind].
  unfold encode_tuple at 1.
  rewrite <-!app_assoc, read_tuple_header_encoded. cbn [res_bind tuple_size].
  rewrite Zmod_mod, Z.mod_small by lia. rewrite Nat2Z.id.
  replace (length pre + (TUPLE_HEADER_SIZE + length (encode_values (values tuple))))%nat
    with (length (pre ++ encode_tuple tuple))
    by (rewrite !length_app, length_encode_tuple; lia).
  rewrite (app_assoc pre).
  rewrite IH by (done || lia). done.
Qed.

(* a page that holds tuples, taken apart *)
Lemma page_holds_split schema d h tuples :
  page_holds schema d h tuples →
  ∃ hdr rest, d = hdr ++ stored tuples ++ rest ∧ length hdr = PAGE_HEADER_SIZE ∧
    length rest = (PAGE_SIZE - PAGE_HEADER_SIZE - length (stored tuples))%nat.
Proof.
  intros [Hlen _ _ Hfits _ Hbytes _].
  exists (take PAGE_HEADER_SIZE d),
         (drop (length (stored tuples)) (drop PAGE_HEADER_SIZE d)).
  split_and!.
  - rewrite <-Hbytes at 1. by rewrite !take_drop.
  - rewrite length_take. lia.
  - rewrite !length_drop. lia.
Qed.

Lemma page_size_small : Z.of_nat PAGE_SIZE < 2 ^ 32.
Proof. unfold PAGE_SIZE. lia. Qed.

(** the tuples of a page are the ones it holds *)
Lemma page_tuples_holds schema d h tuples :
  page_holds schema d h tuples → page_tuples schema d = inr tuples.
Proof.
  intros Hp. destruct (page_holds_split _ _ _ _ Hp) as (hdr & rest & Hd & Hhdr & Hrest).
  destruct Hp as [Hlen Hh Hcount Hfits _ _ Hall].
  unfold page_tuples. rewrite Hh. cbn [res_bind]. rewrite Hcount, Nat2Z.id.
  rewrite Hd, <-Hhdr. apply read_tuples_stored; [done|].
  pose proof page_size_small. lia.
Qed.

Lemma read_page_header_range d h :
  read_page_header d = inr h →
  0 <= page_id h < 2 ^ 32 ∧ 0 <= free_space h < 2 ^ 32 ∧
  0 <= tuple_count h < 2 ^ 32 ∧ 0 <= next_page h < 2 ^ 32.
Proof.
  unfold read_page_header, read_bytes.
  destruct (decide _) as [Hfit|]; [|done]. cbn [of_option res_bind]. intros [= <-].
  cbn [page_id free_space tuple_count next_page].
  set (bs := take PAGE_HEADER_SIZE (drop 0 d)).
  assert (length bs = 16%nat) as Hbs.
  { unfold bs. rewrite length_take, length_drop. unfold PAGE_HEADER_SIZE in *. lia. }
  pose proof (CodecFacts.le_value_range (take 4 bs)) as H1.
  pose proof (CodecFacts.le_value_range (take 4 (drop 4 bs))) as H2.
  pose proof (CodecFacts.le_value_range (take 4 (drop 8 bs))) as H3.
  pose proof (CodecFacts.le_value_range (drop 12 bs)) as H4.
  rewrite ?length_take, ?length_drop, Hbs in *.
  change (256 ^ Z.of_nat (4 `min` 16)) with (2 ^ 32) in H1.
  change (256 ^ Z.of_nat (4 `min` (16 - 4))) with (2 ^ 32) in H2.
  change (256 ^ Z.of_nat (4 `min` (16 - 8))) with (2 ^ 32) in H3.
  change (256 ^ Z.of_nat (16 - 12)) with (2 ^ 32) in H4.
  done.
Qed.

(* the steps of insertTupleIntoPage on the bytes of a page with room *)
Lemma page_holds_insert schema d h tuples tuple :
  page_holds schema d h tuples →
  conforms schema tuple → tuple_in_range tuple →
  Z.of_nat (length (encode_tuple tuple)) <= free_space h →
  ∃ offset d1 d2,
    getTupleSize schema tuple = inr (length (encode_tuple tuple)) ∧
    skip_tuples d (Z.to_nat (tuple_count h)) PAGE_HEADER_SIZE = inr offset ∧
    serializeTuple schema tuple d offset = inr (d1, length (encode_tuple tuple)) ∧
    let h' := mkPageHeader (page_id h)
                ((free_space h - Z.of_nat (length (encode_tuple tuple))) mod 2 ^ 32)
                ((tuple_count h + 1) mod 2 ^ 32) (next_page h) in
    write_page_header d1 h' = inr d2 ∧
    page_holds schema d2 h' (tuples ++ [tuple]).
Proof.
  intros Hp Hconf Hrange Hroom.
  destruct (page_holds_split _ _ _ _ Hp) as (hdr & rest & Hd & Hhdr & Hrest).
  pose proof Hp as [Hlen Hh Hcount Hfits Hfree Hbytes Hall].
  pose proof page_size_small as Hsmall.
  pose proof (read_page_header_range d h Hh) as (Hr1 & Hr2 & Hr3 & Hr4).
  pose proof (length_stored_ge tuples) as Hmany.
  unfold TUPLE_HEADER_SIZE in Hmany.
  set (n := length (encode_tuple tuple)) in *.
  assert (n <= length rest)%nat as Hn by lia.
  assert (getTupleSize schema tuple = inr n) as Hsz.
  { unfold getTupleSize. destruct Hrange as [_ Hr].
    rewrite (CodecFacts.fields_size_conforming _ _ Hconf Hr). cbn [res_bind].
    unfold n. by rewrite length_encode_tuple. }
  assert (skip_tuples d (Z.to_nat (tuple_count h)) PAGE_HEADER_SIZE
          = inr (length hdr + length (stored tuples))%nat) as Hskip.
  { rewrite Hcount, Nat2Z.id, Hd, <-Hhdr. apply skip_tuples_stored. lia. }
  assert (d = (hdr ++ stored tuples) ++ take n rest ++ drop n rest) as Hd'.
  { rewrite take_drop, <-app_assoc. done. }
  assert (serializeTuple schema tuple d (length hdr + length (stored tuples))
          = inr ((hdr ++ stored tuples) ++ encode_tuple tuple ++ drop n rest, n)) as Hser.
  { rewrite Hd' at 1. rewrite <-length_app.
    apply serializeTuple_stores; [done..|]. rewrite length_take. lia. }
  set (h' := mkPageHeader (page_id h) ((free_space h - Z.of_nat n) mod 2 ^ 32)
                          ((tuple_count h + 1) mod 2 ^ 32) (next_page h)).
  set (d1 := (hdr ++ stored tuples) ++ encode_tuple tuple ++ drop n rest) in *.
  assert (length d1 = PAGE_SIZE) as Hlen1.
  { unfold d1. rewrite !length_app, length_drop. fold n. lia. }
  destruct (TableFacts.page_header_roundtrip d1 h') as (d2 & Hw & Hlen2 & Hread);
    [unfold PAGE_HEADER_SIZE, PAGE_SIZE in *; lia|].
  exists (length hdr + length (stored tuples))%nat, d1, d2.
  split; [done|]. split; [done|]. split; [done|]. cbn zeta. fold h'. split; [done|].
  assert (drop PAGE_HEADER_SIZE d2 = drop PAGE_HEADER_SIZE d1) as Hkeep.
  { unfold write_page_header, write_bytes in Hw.
    destruct (decide _); [|done]. cbn [of_option] in Hw. injection Hw as <-.
    cbn [take app]. rewrite drop_app_length'; [done|].
    unfold encode_page_header. by rewrite !length_app, !CodecFacts.length_le_bytes. }
  assert (h' = mkPageHeader (page_id h' mod 2 ^ 32) (free_space h' mod 2 ^ 32)
                            (tuple_count h' mod 2 ^ 32) (next_page h' mod 2 ^ 32)) as Hh'.
  { unfold h'. cbn [page_id free_space tuple_count next_page].
    rewrite !Zmod_mod. by rewrite (Z.mod_small (page_id h)), (Z.mod_small (next_page h)). }
  split.
  - congruence.
  - by rewrite Hread, <-Hh'.
  - unfold h'. cbn [tuple_count]. rewrite Hcount, length_app. cbn [length].
    rewrite Z.mod_small by lia. lia.
  - rewrite stored_snoc, length_app. fold n. lia.
  - unfold h'. cbn [free_space]. rewrite stored_snoc, length_app. fold n.
    rewrite Z.mod_small by lia. lia.
  - rewrite Hkeep. unfold d1. rewrite <-app_assoc, <-Hhdr, drop_app_length.
    rewrite stored_snoc, app_assoc. by rewrite take_app_length.
  - apply Forall_app. split; [done|]. apply Forall_singleton. done.
Qed.

End PageLayout.

Module TableProperties.
Import Codec Table.

#[local] Opaque le_bytes le_value.

#[local] Ltac tsimpl :=
  unfold with_pool, with_next_ids, with_first_page_id, with_indexes;
  cbn [name schema first_page_id next_page_id next_tuple_id buffer_pool indexes].

#[local] Ltac mrun :=
  repeat first
    [ rewrite TableFacts.bind_run
    | progress cbn [bind get_state modify mret M_ret try]
    | progress tsimpl ].

#[local] Ltac mstep H := rewrite TableFacts.bind_run, H; cbn [bind].

(* the pool that a getPage of the table leaves is the pool's own result *)
Lemma getPage_pool tb p f bp1 :
  getPage p tb = Ok f (with_pool bp1 tb) →
  bp1 = final_state (BufferPool.getPage (buffer_pool tb) p).
Proof.
  unfold getPage. destruct (BufferPool.getPage _ _) as [f' bp'|e bp']; [|done].
  unfold with_pool. by intros [= _ ->].
Qed.

(* a page with room: the tuple is stored behind the tuples of the page,
   the header is updated, and the page is left dirty and unpinned *)
Lemma insertTupleIntoPage_stores tb p f d h tuple sz offset d1 written d2 :
  BufferPool.wf (buffer_pool tb) →
  BufferPool.page_table (buffer_pool tb) !! p = Some f →
  BufferPool.data_at (buffer_pool tb) f = Some d →
  read_page_header d = inr h →
  getTupleSize (schema tb) tuple = inr sz →
  Z.of_nat sz <= free_space h →
  skip_tuples d (Z.to_nat (tuple_count h)) PAGE_HEADER_SIZE = inr offset →
  serializeTuple (schema tb) tuple d offset = inr (d1, written) →
  write_page_header d1
    (mkPageHeader (page_id h) ((free_space h - Z.of_nat written) mod 2 ^ 32)
                  ((tuple_count h + 1) mod 2 ^ 32) (next_page h)) = inr d2 →
  ∃ bp', insertTupleIntoPage p tuple tb = Ok true (with_pool bp' tb) ∧
         BufferPool.wf bp' ∧
         BufferPool.page_table bp' = BufferPool.page_table (buffer_pool tb) ∧
         BufferPool.data_at bp' f = Some d2 ∧
         (∀ g, g ≠ f → BufferPool.data_at bp' g
                       = BufferPool.data_at (buffer_pool tb) g) ∧
         BufferPool.pinned_at bp' f = Some false ∧
         (∀ g, g ≠ f → BufferPool.pinned_at bp' g
                       = BufferPool.pinned_at (buffer_pool tb) g) ∧
         (length d2 = PAGE_SIZE → BufferPool.whole_pages (buffer_pool tb) →
          BufferPool.whole_pages bp') ∧
         BufferPool.dirty_at bp' f = Some true.
Proof.
  intros Hwf Hpf Hdf Hh Hsz Hroom Hskip Hser Hw.
  destruct (TableFacts.getPage_resident tb p f Hwf Hpf) as (bp1 & Hg & Hv1 & Hpin1 & Hoth1).
  destruct Hv1 as (Hwf1 & Htab1 & Hdata1).
  assert (BufferPool.data_at bp1 f = Some d) as Hdf1 by (by rewrite Hdata1).
  assert (is_Some (BufferPool.frames (buffer_pool tb) !! f)) as Hf0.
  { unfold BufferPool.data_at in Hdf. by destruct (BufferPool.frames (buffer_pool tb) !! f). }
  unfold insertTupleIntoPage. mstep Hg.
  rewrite TableFacts.bind_run, (TableFacts.load_resident (with_pool bp1 tb) f d Hdf1).
  cbn [bind].
  rewrite TableFacts.bind_run, Hh. cbn [try bind].
  rewrite TableFacts.bind_run. cbn [get_state bind].
  rewrite TableFacts.bind_run. cbn [schema with_pool]. rewrite Hsz. cbn [try bind].
  rewrite decide_False by lia.
  rewrite TableFacts.bind_run, Hskip. cbn [try bind].
  rewrite TableFacts.bind_run, Hser. cbn [try bind].
  rewrite TableFacts.bind_run, Hw. cbn [try bind].
  unfold store, markDirty, releasePage. mrun.
  assert (is_Some (BufferPool.frames bp1 !! f)) as Hf1.
  { unfold BufferPool.data_at in Hdf1. by destruct (BufferPool.frames bp1 !! f). }
  destruct (BufferPoolFacts.storeData_view bp1 f d2 Hwf1 Hf1)
    as (Hwf2 & Htab2 & Hd2 & Hdo2 & Hp2).
  destruct (BufferPoolFacts.markDirty_view _ p Hwf2) as (Hwf3 & Htab3 & Hd3 & Hp3).
  destruct (BufferPoolFacts.releasePage_view _ p Hwf3) as (Hwf4 & Htab4 & Hd4 & Hp4 & Hpo4).
  assert (is_Some (BufferPool.frames (BufferPool.storeData bp1 f d2) !! f)) as Hf2.
  { unfold BufferPool.data_at in Hd2.
    by destruct (BufferPool.frames (BufferPool.storeData bp1 f d2) !! f). }
  eexists. split; [reflexivity|]. split_and!.
  - done.
  - by rewrite Htab4, Htab3, Htab2, Htab1.
  - by rewrite Hd4, Hd3, Hd2.
  - intros g Hg'. by rewrite Hd4, Hd3, Hdo2, Hdata1.
  - apply Hp4. by rewrite Htab3, Htab2, Htab1.
  - intros g Hg'. rewrite Hpo4, Hp3, Hp2, Hoth1; [done..|].
    rewrite Htab3, Htab2, Htab1. congruence.
  - intros Hlen Hwhole.
    apply BufferPoolProperties.releasePage_kept.
    apply (BufferPoolProperties.markDirty_kept _ p f); [by rewrite Htab2, Htab1|exact Hf2|].
    apply BufferPoolProperties.storeData_kept; [done|].
    rewrite (getPage_pool _ _ _ _ Hg).
    destruct Hf0 as [fr0 Hf0].
    by apply (BufferPoolProperties.getPage_hit_kept _ p f fr0).
  - rewrite (proj2 (BufferPoolProperties.releasePage_kept _ _)).
    apply (BufferPoolProperties.markDirty_kept _ p f); [by rewrite Htab2, Htab1|exact Hf2].
Qed.


Lemma page_data_at bp p f d :
  BufferPool.page_table bp !! p = Some f → BufferPool.data_at bp f = Some d →
  page_data bp p = Some d.
Proof. intros Hp Hd. unfold page_data. by rewrite Hp. Qed.

Lemma one_page_table_ok tb tuples :
  one_page_table tb tuples →
  ∃ d h, table_ok tb [(1, d)] ∧ page_holds (schema tb) d h tuples.
Proof.
  intros [Hwf H0 Hfirst (d & h & Hpd & Hholds & Hnext & Hpid) Hix].
  exists d, h. split; [|done]. split; [done..|].
  rewrite Hfirst. eapply chain_link; [done|done|exact (holds_header _ _ _ _ Hholds)|].
  rewrite Hnext. constructor.
Qed.

Lemma one_page_scan tb tuples fuel :
  one_page_table tb tuples → (1 < fuel)%nat →
  returned (selectAll fuel tb) = Some tuples.
Proof.
  intros Hone Hfuel. destruct (one_page_table_ok _ _ Hone) as (d & h & Hok & Hholds).
  rewrite (TableFacts.selectAll_spec tb [(1, d)] fuel Hok) by (simpl; lia).
  cbn [fmap list_fmap snd scan_pages].
  rewrite (PageLayout.page_tuples_holds _ _ _ _ Hholds). cbn [res_bind to_option].
  by rewrite app_nil_r.
Qed.

Lemma one_page_count tb tuples fuel :
  one_page_table tb tuples → (1 < fuel)%nat →
  returned (getTupleCount fuel tb) = Some (Z.of_nat (length tuples)).
Proof.
  intros Hone Hfuel. destruct (one_page_table_ok _ _ Hone) as (d & h & Hok & Hholds).
  destruct Hok as [Hwf H0 Hchain].
  destruct (TableFacts.count_walk_spec _ _ _ Hchain fuel tb 0)
    as (n & bp' & Hrun & Hcount & _); [simpl; lia|done|by apply TableFacts.same_view_refl|].
  unfold getTupleCount. rewrite TableFacts.bind_run. cbn [get_state bind].
  rewrite Hrun. cbn [returned]. f_equal.
  cbn [fmap list_fmap snd count_pages] in Hcount.
  rewrite (holds_header _ _ _ _ Hholds) in Hcount. cbn [res_bind count_pages] in Hcount.
  injection Hcount as <-. rewrite (holds_count _ _ _ _ Hholds).
  pose proof (PageLayout.length_stored_ge tuples) as Hmany.
  pose proof (holds_fits _ _ _ _ Hholds) as Hfits.
  unfold TUPLE_HEADER_SIZE, PAGE_HEADER_SIZE, PAGE_SIZE in *.
  rewrite Z.mod_small by lia. lia.
Qed.

Lemma read_page_header_zero_page :
  read_page_header zero_page = inr (mkPageHeader 0 0 0 0).
Proof. vm_compute. reflexivity. Qed.

Lemma length_zero_page : length zero_page = PAGE_SIZE.
Proof. apply length_replicate. Qed.

Lemma read_page_header_whole d :
  length d = PAGE_SIZE → ∃ h, read_page_header d = inr h.
Proof.
  intros Hlen. unfold read_page_header, read_bytes.
  rewrite decide_True by (rewrite Hlen; unfold PAGE_HEADER_SIZE, PAGE_SIZE; lia).
  eexists. reflexivity.
Qed.

(* the constructor over a file whose page 1 does not show a table with
   rows: page 1 gets an empty header, first_page_id is 1, the counters are
   at their start *)
Lemma create_fresh fuel n name schema file h0 :
  read_page_header (BufferPool.readPageFromDisk (BufferPool.mkFile file false) 1).1
    = inr h0 →
  ¬ (page_id h0 = 1 ∧ tuple_count h0 > 0) →
  ∃ tb, create fuel (S n) name schema file = Ok tt tb ∧
        one_page_table tb [] ∧ page1_unsaved tb ∧
        next_tuple_id tb = 1 ∧ next_page_id tb = 2 ∧
        Table.schema tb = schema ∧ Table.name tb = name.
Proof.
  intros Hh0 Hnew.
  destruct (BufferPoolProperties.getPage_init n file 1 ltac:(done))
    as (bp1 & Hget & Hwf1 & Hwhole1 & Hp1 & H01 & Hd1).
  set (d0 := (BufferPool.readPageFromDisk (BufferPool.mkFile file false) 1).1) in *.
  assert (length d0 = PAGE_SIZE) as Hlen0 by apply BufferPoolFacts.readPageFromDisk_length.
  unfold create, loadExistingTableData.
  rewrite TableFacts.bind_run. rewrite TableFacts.bind_run.
  unfold getPage at 1. cbn [buffer_pool]. rewrite Hget. cbn [bind]. tsimpl.
  set (tb1 := mkTable _ _ _ _ _ _ _).
  rewrite TableFacts.bind_run, (TableFacts.load_resident tb1 0 d0 Hd1). cbn [bind].
  rewrite TableFacts.bind_run, Hh0. cbn [try bind].
  rewrite decide_False by done.
  rewrite TableFacts.bind_run. cbn [mret M_ret bind].
  unfold releasePage at 1. mrun. subst tb1. mrun.
  destruct (TableFacts.releasePage_resident bp1 1 Hwf1) as ((Hwf2 & Htab2 & Hdata2) & _ & _).
  pose proof (proj1 (BufferPoolProperties.releasePage_kept bp1 1) Hwhole1) as Hwhole2.
  set (bp2 := BufferPool.releasePage bp1 1) in *.
  rewrite decide_True by done. mrun.
  unfold allocateNewPage. mrun.
  assert (BufferPool.page_table bp2 !! 1 = Some 0%nat) as Hp2 by (by rewrite Htab2).
  match goal with |- context [getPage 1 ?tb] =>
    destruct (TableFacts.getPage_resident tb 1 0 Hwf2 Hp2)
      as (bp3 & Hg3 & (Hwf3 & Htab3 & Hdata3) & _);
    pose proof (getPage_pool tb 1 0%nat bp3 Hg3) as Hbp3
  end.
  cbn [buffer_pool] in Htab3, Hdata3, Hbp3.
  rewrite Hg3. cbn [bind]. tsimpl.
  assert (BufferPool.data_at bp3 0 = Some d0) as Hd3 by (by rewrite Hdata3, Hdata2).
  assert (is_Some (BufferPool.frames bp2 !! 0%nat)) as [fr2 Hf2].
  { assert (BufferPool.data_at bp2 0 = Some d0) as H by (by rewrite Hdata2).
    unfold BufferPool.data_at in H. by destruct (BufferPool.frames bp2 !! 0%nat). }
  assert (BufferPool.whole_pages bp3) as Hwhole3.
  { rewrite Hbp3. by apply (BufferPoolProperties.getPage_hit_kept bp2 1 0%nat fr2). }
  match goal with |- context [load 0%nat ≫= ?k] =>
    rewrite TableFacts.bind_run
  end.
  match goal with |- context [load 0%nat ?tb] =>
    rewrite (TableFacts.load_resident tb 0 d0 Hd3)
  end.
  cbn [bind].
  destruct (TableFacts.page_header_roundtrip d0
              (mkPageHeader 1 (Z.of_nat (PAGE_SIZE - PAGE_HEADER_SIZE)) 0 0))
    as (d' & Hw & Hlen' & Hread); [rewrite Hlen0; unfold PAGE_HEADER_SIZE, PAGE_SIZE; lia|].
  rewrite TableFacts.bind_run, Hw. cbn [try bind].
  unfold store, markDirty, releasePage. mrun.
  assert (is_Some (BufferPool.frames bp3 !! 0%nat)) as Hf3.
  { unfold BufferPool.data_at in Hd3. by destruct (BufferPool.frames bp3 !! 0%nat). }
  destruct (BufferPoolFacts.storeData_view bp3 0 d' Hwf3 Hf3)
    as (Hwf4 & Htab4 & Hd4 & _ & _).
  destruct (BufferPoolFacts.markDirty_view _ 1 Hwf4) as (Hwf5 & Htab5 & Hd5 & _).
  destruct (BufferPoolFacts.releasePage_view _ 1 Hwf5) as (Hwf6 & Htab6 & Hd6 & _ & _).
  assert (is_Some (BufferPool.frames (BufferPool.storeData bp3 0 d') !! 0%nat)) as Hf4.
  { unfold BufferPool.data_at in Hd4.
    by destruct (BufferPool.frames (BufferPool.storeData bp3 0 d') !! 0%nat). }
  assert (BufferPool.page_table (BufferPool.storeData bp3 0 d') !! 1 = Some 0%nat) as Hp4.
  { by rewrite Htab4, Htab3. }
  eexists. split; [reflexivity|]. split_and!; [| |done..].
  - assert (BufferPool.page_table
              (BufferPool.releasePage
                 (BufferPool.markDirty (BufferPool.storeData bp3 0 d') 1) 1)
            = BufferPool.page_table bp1) as Htab.
    { by rewrite Htab6, Htab5, Htab4, Htab3, Htab2. }
    split; cbn [buffer_pool first_page_id Table.schema indexes].
    + done.
    + by rewrite Htab.
    + done.
    + exists d'. eexists. split_and!.
      * apply (page_data_at _ _ 0%nat); [by rewrite Htab|]. by rewrite Hd6, Hd5, Hd4.
      * split.
        -- by rewrite Hlen'.
        -- exact Hread.
        -- done.
        -- unfold PAGE_HEADER_SIZE, PAGE_SIZE. simpl. lia.
        -- cbn [free_space stored fmap list_fmap concat length].
           unfold PAGE_HEADER_SIZE, PAGE_SIZE. done.
        -- done.
        -- constructor.
      * done.
      * done.
    + done.
  - split; cbn [buffer_pool].
    + apply BufferPoolProperties.releasePage_kept.
      apply (BufferPoolProperties.markDirty_kept _ 1 0%nat); [done|done|].
      apply BufferPoolProperties.storeData_kept; [by rewrite Hlen'|done].
    + exists 0%nat. split.
      * by rewrite Htab6, Htab5.
      * rewrite (proj2 (BufferPoolProperties.releasePage_kept _ _)).
        by apply (BufferPoolProperties.markDirty_kept _ 1 0%nat).
Qed.

Lemma create_new_table fuel n name schema :
  ∃ tb, create fuel (S n) name schema [] = Ok tt tb ∧
        one_page_table tb [] ∧ page1_unsaved tb ∧
        next_tuple_id tb = 1 ∧ next_page_id tb = 2 ∧
        Table.schema tb = schema ∧ Table.name tb = name.
Proof.
  apply (create_fresh fuel n name schema [] (mkPageHeader 0 0 0 0)).
  - unfold BufferPool.readPageFromDisk, read_bytes.
    cbn [BufferPool.failbit BufferPool.contents length].
    rewrite decide_False by (unfold BufferPool.page_offset, PAGE_SIZE; lia).
    apply read_page_header_zero_page.
  - cbn [page_id]. lia.
Qed.

(* readTuplesFromPage on a resident page *)
Lemma readTuplesFromPage_resident tb p f d h tuples :
  BufferPool.wf (buffer_pool tb) →
  BufferPool.page_table (buffer_pool tb) !! p = Some f →
  BufferPool.data_at (buffer_pool tb) f = Some d →
  read_page_header d = inr h →
  read_tuples (schema tb) d (Z.to_nat (tuple_count h)) PAGE_HEADER_SIZE = inr tuples →
  ∃ bp', readTuplesFromPage p tb = Ok tuples (with_pool bp' tb) ∧
         same_view (buffer_pool tb) bp'.
Proof.
  intros Hwf Hpf Hdf Hh Hrd.
  destruct (TableFacts.getPage_resident tb p f Hwf Hpf) as (bp1 & Hg & Hv1 & _ & _).
  assert (BufferPool.data_at bp1 f = Some d) as Hdf1.
  { destruct Hv1 as (_ & _ & Hd1). by rewrite Hd1. }
  unfold readTuplesFromPage. mstep Hg.
  rewrite TableFacts.bind_run, (TableFacts.load_resident (with_pool bp1 tb) f d Hdf1).
  cbn [bind].
  rewrite TableFacts.bind_run, Hh. cbn [try bind].
  rewrite TableFacts.bind_run. cbn [get_state bind].
  rewrite TableFacts.bind_run. cbn [schema with_pool]. rewrite Hrd. cbn [try bind].
  rewrite TableFacts.bind_run. cbn [releasePage modify bind mret M_ret buffer_pool with_pool].
  destruct (TableFacts.releasePage_resident bp1 p (proj1 Hv1)) as (Hv2 & _ & _).
  eexists. split; [reflexivity|].
  eapply TableFacts.same_view_trans; [exact Hv1|exact Hv2].
Qed.

(* the constructor over a file whose page 1 holds rows and is the only
   page: the table has these rows, and the tuple ids go on behind the
   greatest of them *)
Lemma open_existing_table fuel n name schema file d h tuples :
  read_bytes file (BufferPool.page_offset 1) PAGE_SIZE = Some d →
  page_holds schema d h tuples → page_id h = 1 → next_page h = 0 → tuples ≠ [] →
  (1 < fuel)%nat →
  ∃ tb, create fuel (S n) name schema file = Ok tt tb ∧
        one_page_table tb tuples ∧
        next_tuple_id tb
          = (fold_left (λ m tuple, Z.max m (id tuple)) tuples 0 + 1) mod 2 ^ 64 ∧
        next_page_id tb = 2 ∧ Table.schema tb = schema ∧ Table.name tb = name.
Proof.
  intros Hfile Hholds Hpid Hnext Hne Hfuel.
  destruct (BufferPoolProperties.getPage_init n file 1 ltac:(done))
    as (bp1 & Hget & Hwf1 & _ & Hp1 & H01 & Hd1).
  assert ((BufferPool.readPageFromDisk (BufferPool.mkFile file false) 1).1 = d) as Hd0.
  { unfold BufferPool.readPageFromDisk. cbn [BufferPool.failbit BufferPool.contents].
    by rewrite Hfile. }
  rewrite Hd0 in Hd1.
  pose proof (holds_header _ _ _ _ Hholds) as Hh.
  pose proof (PageLayout.page_tuples_holds _ _ _ _ Hholds) as Hrd.
  unfold page_tuples in Hrd. rewrite Hh in Hrd. cbn [res_bind] in Hrd.
  unfold create, loadExistingTableData.
  rewrite TableFacts.bind_run. rewrite TableFacts.bind_run.
  unfold getPage at 1. cbn [buffer_pool]. rewrite Hget. cbn [bind]. tsimpl.
  set (tb1 := mkTable _ _ _ _ _ _ _).
  rewrite TableFacts.bind_run, (TableFacts.load_resident tb1 0 d Hd1). cbn [bind].
  rewrite TableFacts.bind_run, Hh. cbn [try bind].
  rewrite decide_True.
  2:{ split; [done|]. rewrite (holds_count _ _ _ _ Hholds).
      destruct tuples; [done|]. cbn [length]. lia. }
  destruct fuel as [|fuel']; [lia|].
  subst tb1. mrun. cbn [load_walk]. rewrite decide_False by done. mrun.
  match goal with |- context [getPage 1 ?tb] =>
    destruct (TableFacts.getPage_resident tb 1 0 Hwf1 Hp1) as (bp2 & Hg2 & Hv2 & _ & _)
  end.
  cbn [buffer_pool] in Hv2. rewrite Hg2. cbn [bind]. tsimpl.
  assert (BufferPool.data_at bp2 0 = Some d) as Hd2.
  { destruct Hv2 as (_ & _ & Hdat). by rewrite Hdat. }
  rewrite TableFacts.bind_run.
  match goal with |- context [load 0%nat ?tb] =>
    rewrite (TableFacts.load_resident tb 0 d Hd2)
  end.
  cbn [bind]. rewrite TableFacts.bind_run, Hh. cbn [try bind].
  rewrite TableFacts.bind_run.
  match goal with |- context [readTuplesFromPage 1 ?tb] =>
    destruct (readTuplesFromPage_resident tb 1 0%nat d h tuples)
      as (bp3 & Hr3 & Hv3);
      [exact (proj1 Hv2)|cbn [buffer_pool]; by rewrite (proj1 (proj2 Hv2))
      |exact Hd2|exact Hh|exact Hrd|]
  end.
  cbn [buffer_pool] in Hv3. rewrite Hr3. cbn [bind]. tsimpl.
  rewrite Hnext. unfold releasePage. mrun.
  destruct fuel' as [|fuel'']; [lia|]. cbn [load_walk].
  rewrite decide_True by done. mrun.
  destruct (TableFacts.releasePage_resident bp3 0 (proj1 Hv3)) as (Hv4 & _ & _).
  destruct (TableFacts.releasePage_resident _ 1 (proj1 Hv4)) as (Hv5 & _ & _).
  rewrite decide_False by done. mrun.
  assert (same_view bp1 (BufferPool.releasePage (BufferPool.releasePage bp3 0) 1)) as Hv.
  { eapply TableFacts.same_view_trans; [|exact Hv5].
    eapply TableFacts.same_view_trans; [|exact Hv4].
    eapply TableFacts.same_view_trans; [exact Hv2|exact Hv3]. }
  destruct Hv as (Hwf & Htab & Hdat).
  eexists. split; [reflexivity|]. split_and!; [|done..].
  split; cbn [buffer_pool first_page_id Table.schema indexes].
  - done.
  - by rewrite Htab.
  - done.
  - exists d, h. split_and!; [|done..].
    apply (page_data_at _ _ 0%nat); [by rewrite Htab|by rewrite Hdat].
  - done.
Qed.

(* the greatest tuple id of the rows of a new table *)
Lemma max_id_numbered rows : ∀ (b : nat) (m0 : Z),
  m0 <= Z.of_nat b →
  fold_left (λ m tuple, Z.max m (id tuple))
            (imap (λ k vs, mkTuple (Z.of_nat (b + k) + 1) vs) rows) m0
    = match rows with [] => m0 | _ => Z.of_nat (b + length rows) end.
Proof.
  induction rows as [|vs rows IH]; intros b m0 Hm; [done|].
  rewrite imap_cons. cbn [fold_left id].
  rewrite (imap_ext _ (λ k vs0, mkTuple (Z.of_nat (S b + k) + 1) vs0)).
  2:{ intros k vs' _. cbn. do 2 f_equal. lia. }
  rewrite IH by lia. destruct rows; cbn [length]; lia.
Qed.

Section WithDoubleFormat.
Variable fmt : Z → string.

(* one insert into a table whose rows are all in page 1, when the page has
   room for the new row *)
Lemma insertTuple_one_page tb tuples fuel vs :
  one_page_table tb tuples →
  conforms (schema tb) (mkTuple 0 vs) → Forall value_in_range vs →
  0 < next_tuple_id tb < 2 ^ 64 - 1 →
  (PAGE_HEADER_SIZE + length (stored (tuples ++ [mkTuple (next_tuple_id tb) vs]))
     <= PAGE_SIZE)%nat →
  (0 < fuel)%nat →
  ∃ tb', insertTuple fmt fuel (mkTuple 0 vs) tb = Ok true tb' ∧
         one_page_table tb' (tuples ++ [mkTuple (next_tuple_id tb) vs]) ∧
         next_tuple_id tb' = next_tuple_id tb + 1 ∧
         schema tb' = schema tb ∧ name tb' = name tb ∧
         (BufferPool.whole_pages (buffer_pool tb) → page1_unsaved tb').
Proof.
  intros [Hwf H0 Hfirst (d & h & Hpd & Hholds & Hnext & Hpid) Hix] Hconf Hrange Hid Hfits Hfuel.
  set (tuple := mkTuple (next_tuple_id tb) vs) in *.
  assert (conforms (schema tb) tuple) as Hconf' by done.
  assert (tuple_in_range tuple) as Hrange'.
  { split; [cbn; lia|done]. }
  rewrite PageLayout.stored_snoc, length_app in Hfits.
  assert (Z.of_nat (length (encode_tuple tuple)) <= free_space h) as Hroom.
  { rewrite (holds_free _ _ _ _ Hholds). pose proof (holds_fits _ _ _ _ Hholds). lia. }
  destruct (PageLayout.page_holds_insert _ _ _ _ tuple Hholds Hconf' Hrange' Hroom)
    as (offset & d1 & d2 & Hsz & Hskip & Hser & Hw & Hholds').
  cbn zeta in Hw, Hholds'.
  destruct (TableFacts.page_data_Some _ _ _ Hpd) as (f & Hpf & Hdf).
  destruct fuel as [|fuel']; [lia|].
  unfold insertTuple. mrun. rewrite decide_True by done. mrun.
  unfold insert_new_tuple. mrun. rewrite Hfirst.
  cbn [insert_walk]. rewrite decide_False by done.
  set (tb1 := mkTable _ _ _ _ _ _ _).
  destruct (insertTupleIntoPage_stores tb1 1 f d h tuple (length (encode_tuple tuple))
              offset d1 (length (encode_tuple tuple)) d2 Hwf Hpf Hdf
              (holds_header _ _ _ _ Hholds) Hsz Hroom Hskip Hser Hw)
    as (bp' & Hins & Hwf' & Htab' & Hd' & Hdo' & Hp' & Hpo' & Hwhole' & Hdirty').
  cbn [Types.values Types.id]. fold tuple. mstep Hins. unfold updateIndexes. subst tb1. mrun. rewrite Hix.
  cbn [update_indexes]. mrun.
  eexists. split; [reflexivity|].
  split_and!; [|cbn [next_tuple_id]; by rewrite Z.mod_small by lia|done|done|].
  - split; cbn [buffer_pool first_page_id schema indexes].
    + done.
    + by rewrite Htab'.
    + done.
    + exists d2. eexists. split_and!; [|exact Hholds'|done|done].
      apply (page_data_at _ _ f); [by rewrite Htab'|done].
    + done.
  - intros Hwhole. split; cbn [buffer_pool].
    + apply Hwhole'; [exact (holds_length _ _ _ _ Hholds')|done].
    + exists f. split; [by rewrite Htab'|done].
Qed.


Lemma insert_each_one_page fuel rows : ∀ tb tuples,
  one_page_table tb tuples →
  next_tuple_id tb = Z.of_nat (length tuples) + 1 →
  Forall (λ vs, conforms (schema tb) (mkTuple 0 vs) ∧ Forall value_in_range vs) rows →
  (PAGE_HEADER_SIZE
   + length (stored (tuples ++ imap (λ k vs, mkTuple (Z.of_nat (length tuples + k) + 1) vs)
                                 rows))
   <= PAGE_SIZE)%nat →
  (0 < fuel)%nat →
  page1_unsaved tb →
  ∃ tb', insert_each fmt fuel rows tb = Ok (replicate (length rows) true) tb' ∧
         one_page_table tb'
           (tuples ++ imap (λ k vs, mkTuple (Z.of_nat (length tuples + k) + 1) vs) rows) ∧
         schema tb' = schema tb ∧ name tb' = name tb ∧ page1_unsaved tb'.
Proof.
  induction rows as [|vs rows IH]; intros tb tuples Hone Hnext Hrows Hfits Hfuel Hdirty.
  - exists tb. split_and!; [done| |done..]. cbn [imap]. by rewrite app_nil_r.
  - apply Forall_cons in Hrows as [[Hconf Hrange] Hrows].
    rewrite imap_cons in Hfits |- *. rewrite Nat.add_0_r in Hfits |- *.
    rewrite <-Hnext in Hfits |- *.
    set (tuple := mkTuple (next_tuple_id tb) vs) in *.
    rewrite (cons_middle tuple), app_assoc in Hfits |- *.
    assert (PAGE_HEADER_SIZE + length (stored (tuples ++ [tuple])) <= PAGE_SIZE)%nat as Hfit1.
    { unfold stored in *. rewrite fmap_app, concat_app, length_app in Hfits. lia. }
    pose proof (PageLayout.length_stored_ge (tuples ++ [tuple])) as Hmany.
    rewrite length_app in Hmany. cbn [length] in Hmany.
    assert (0 < next_tuple_id tb < 2 ^ 64 - 1) as Hid.
    { rewrite Hnext. unfold TUPLE_HEADER_SIZE, PAGE_HEADER_SIZE, PAGE_SIZE in *. lia. }
    destruct (insertTuple_one_page tb tuples fuel vs Hone Hconf Hrange Hid Hfit1 Hfuel)
      as (tb1 & Hins & Hone1 & Hnext1 & Hschema1 & Hname1 & Hdirty1).
    specialize (Hdirty1 (unsaved_whole _ Hdirty)).
    fold tuple in Hone1.
    assert (imap ((λ k vs0, mkTuple (Z.of_nat (length tuples + k) + 1) vs0) ∘ S) rows
            = imap (λ k vs0, mkTuple (Z.of_nat (length (tuples ++ [tuple]) + k) + 1) vs0) rows)
      as Himap.
    { apply imap_ext. intros k vs' _. cbn. rewrite length_app. cbn [length].
      do 2 f_equal. lia. }
    rewrite Himap in Hfits |- *.
    destruct (IH tb1 (tuples ++ [tuple]))
      as (tb' & Hrest & Hone' & Hschema' & Hname' & Hdirty'); [done| | |done|done|done|].
    + rewrite Hnext1, Hnext, length_app. cbn [length]. lia.
    + by rewrite Hschema1.
    + exists tb'. split_and!; [|done|congruence|congruence|done].
      cbn [insert_each]. rewrite TableFacts.bind_run, Hins. cbn [bind].
      rewrite TableFacts.bind_run, Hrest. cbn [bind mret M_ret]. done.
Qed.

(* a new table over an empty file, filled with rows that fit into one page *)
Lemma new_table_with_rows name schema rows fuel :
  Forall (λ vs, conforms schema (mkTuple 0 vs) ∧ Forall value_in_range vs) rows →
  (PAGE_HEADER_SIZE + length (stored (numbered rows)) <= PAGE_SIZE)%nat →
  (0 < fuel)%nat →
  ∃ tb, bind (create fuel BUFFER_POOL_SIZE name schema [])
             (λ _, insert_each fmt fuel rows)
          = Ok (replicate (length rows) true) tb ∧
        one_page_table tb (numbered rows) ∧ Table.schema tb = schema ∧
        Table.name tb = name ∧ page1_unsaved tb.
Proof.
  intros Hrows Hfits Hfuel.
  destruct (create_new_table fuel 999 name schema)
    as (tb0 & Hcreate & Hone0 & Hdirty0 & Hnext0 & _ & Hschema0 & Hname0).
  change (S 999) with BUFFER_POOL_SIZE in Hcreate. rewrite Hcreate. cbn [bind].
  destruct (insert_each_one_page fuel rows tb0 [])
    as (tb & Hins & Hone & Hschema & Hname & Hdirty);
    [done|done|by rewrite Hschema0|exact Hfits|lia|done|].
  cbn [app length Nat.add] in Hone. fold (numbered rows) in Hone.
  exists tb. split_and!; [done|done|congruence|congruence|done].
Qed.

(** X20. Rows come back as they went in. When the value lists conform to the
    schema and their encodings fit into one page together, then in a new
    table over an empty file every [insertTuple] answers true, the k-th
    row gets the tuple id k, [selectAll] returns exactly these rows, in
    the order of insertion, and [getTupleCount] returns their number. *)
Theorem inserted_rows_are_scanned_back name schema rows fuel :
  Forall (λ vs, conforms schema (mkTuple 0 vs) ∧ Forall value_in_range vs) rows →
  (PAGE_HEADER_SIZE + length (stored (numbered rows)) <= PAGE_SIZE)%nat →
  (1 < fuel)%nat →
  ∃ tb, bind (create fuel BUFFER_POOL_SIZE name schema [])
             (λ _, insert_each fmt fuel rows)
          = Ok (replicate (length rows) true) tb ∧
        returned (selectAll fuel tb) = Some (numbered rows) ∧
        returned (getTupleCount fuel tb) = Some (Z.of_nat (length rows)).
Proof.
  intros Hrows Hfits Hfuel.
  destruct (new_table_with_rows name schema rows fuel) as (tb & Hrun & Hone & _);
    [done|done|lia|].
  exists tb. split_and!.
  - done.
  - by apply one_page_scan.
  - rewrite (one_page_count tb (numbered rows) fuel Hone Hfuel).
    unfold numbered. by rewrite length_imap.
Qed.

(** X21. A query on a column without an index. In a table filled as above,
    [selectWhere] returns, in the order of insertion, exactly the stored
    rows whose value in the column equals the value asked for; a column
    name that the schema does not have is compared as the first column. *)
Theorem selectWhere_filters_inserted_rows name schema rows fuel column value :
  Forall (λ vs, conforms schema (mkTuple 0 vs) ∧ Forall value_in_range vs) rows →
  (PAGE_HEADER_SIZE + length (stored (numbered rows)) <= PAGE_SIZE)%nat →
  (1 < fuel)%nat →
  ∃ tb, bind (create fuel BUFFER_POOL_SIZE name schema [])
             (λ _, insert_each fmt fuel rows)
          = Ok (replicate (length rows) true) tb ∧
        returned (selectWhere fmt fuel column value tb)
          = Some (filter (λ tuple, matches (column_index schema column) value tuple = true)
                         (numbered rows)).
Proof.
  intros Hrows Hfits Hfuel.
  destruct (new_table_with_rows name schema rows fuel)
    as (tb & Hrun & Hone & Hschema & _); [done|done|lia|].
  exists tb. split; [done|].
  pose proof (one_page_scan tb (numbered rows) fuel Hone Hfuel) as Hscan.
  unfold selectWhere. rewrite TableFacts.bind_run. cbn [get_state bind].
  rewrite (one_indexes _ _ Hone). cbn [find_index].
  rewrite TableFacts.bind_run.
  destruct (selectAll fuel tb) as [l tb'|e tb']; [|done].
  cbn [returned] in Hscan. injection Hscan as ->.
  cbn [bind mret M_ret returned]. by rewrite Hschema.
Qed.

(** X22. A query on a column with an index. Whatever the table holds,
    [selectWhere] on a column that has an index returns at most one row,
    also when several stored rows have the value in that column. *)
Theorem indexed_selectWhere_returns_at_most_one_row fuel column value tb index :
  find_index column (indexes tb) = Some index →
  ∀ l tb', selectWhere fmt fuel column value tb = Ok l tb' → (length l <= 1)%nat.
Proof.
  intros Hindex l tb'.
  assert (∀ tuple_id tuples, (length (first_with_id tuple_id tuples) <= 1)%nat) as Hone.
  { intros tuple_id tuples. induction tuples as [|tuple tuples IH]; cbn; [lia|].
    destruct (decide _); cbn; lia. }
  unfold selectWhere. rewrite TableFacts.bind_run. cbn [get_state bind].
  rewrite Hindex. unfold selectUsingIndex.
  rewrite TableFacts.bind_run. cbn [get_state bind]. rewrite Hindex.
  rewrite TableFacts.bind_run. unfold try.
  destruct (BTree.search index _) as [e|[tuple_id|]]; cbn [bind mret M_ret].
  - done.
  - rewrite TableFacts.bind_run.
    destruct (selectAll fuel tb) as [tuples tb1|e tb1]; cbn [bind mret M_ret]; [|done].
    intros [= <- _]. apply Hone.
  - intros [= <- _]. cbn. lia.
Qed.

(** X24. Rows survive a flush and a new start. A new table is filled with
    rows that conform to the schema and fit into one page together, the
    pool is flushed, and the table is constructed again over the file: it
    then returns the same rows with the same tuple ids, and the next tuple
    id is the one after the last row. *)
Theorem rows_survive_reopen name schema rows fuel :
  Forall (λ vs, conforms schema (mkTuple 0 vs) ∧ Forall value_in_range vs) rows →
  (PAGE_HEADER_SIZE + length (stored (numbered rows)) <= PAGE_SIZE)%nat →
  (1 < fuel)%nat →
  ∃ tb tb', bind (create fuel BUFFER_POOL_SIZE name schema [])
                 (λ _, insert_each fmt fuel rows)
              = Ok (replicate (length rows) true) tb ∧
            reopen fuel BUFFER_POOL_SIZE tb = Ok tt tb' ∧
            returned (selectAll fuel tb') = Some (numbered rows) ∧
            next_tuple_id tb' = Z.of_nat (length rows) + 1.
Proof.
  intros Hrows Hfits Hfuel.
  destruct (new_table_with_rows name schema rows fuel)
    as (tb & Hrun & Hone & Hschema & Hname & [Hwhole (f & Hpf & Hdirty)]);
    [done|done|lia|].
  exists tb. unfold reopen. rewrite Hschema, Hname.
  destruct Hone as [Hwf H0 Hfirst (d & h & Hpd & Hholds & Hnext & Hpid) Hix].
  rewrite Hschema in Hholds.
  destruct (TableFacts.page_data_Some _ _ _ Hpd) as (f' & Hpf' & Hdf).
  assert (f' = f) as -> by congruence.
  unfold BufferPool.data_at, BufferPool.dirty_at in Hdf, Hdirty.
  destruct (BufferPool.frames (buffer_pool tb) !! f) as [fr|] eqn:Hf; [|done].
  cbn in Hdf, Hdirty. injection Hdf as Hdf. injection Hdirty as Hdirty.
  destruct (BufferPoolProperties.flush_writes_page (buffer_pool tb) 1 f fr
              Hwf Hwhole ltac:(done) Hpf Hf Hdirty) as [Hfile _].
  rewrite Hdf in Hfile.
  set (file := BufferPool.contents _) in *.
  change BUFFER_POOL_SIZE with (S 999).
  destruct rows as [|vs rows].
  - destruct (create_fresh fuel 999 name schema file h)
      as (tb' & Hcreate & Hone' & _ & Hnext' & _); [| |].
    + unfold BufferPool.readPageFromDisk. cbn [BufferPool.failbit BufferPool.contents].
      rewrite Hfile. exact (holds_header _ _ _ _ Hholds).
    + rewrite (holds_count _ _ _ _ Hholds). cbn. lia.
    + exists tb'. split_and!; [done|done| |done].
      by apply one_page_scan.
  - destruct (open_existing_table fuel 999 name schema file d h (numbered (vs :: rows)))
      as (tb' & Hcreate & Hone' & Hnext' & _); [done..|].
    exists tb'. split_and!; [done|done|by apply one_page_scan|].
    rewrite Hnext'. unfold numbered.
    rewrite (imap_ext _ (λ k vs0, mkTuple (Z.of_nat (0 + k) + 1) vs0)) by done.
    rewrite max_id_numbered by done. cbn [Nat.add].
    pose proof (PageLayout.length_stored_ge (numbered (vs :: rows))) as Hmany.
    assert (length (numbered (vs :: rows)) = length (vs :: rows)) as Hlen
      by apply length_imap.
    rewrite Hlen in Hmany.
    unfold TUPLE_HEADER_SIZE, PAGE_HEADER_SIZE, PAGE_SIZE in *.
    rewrite Z.mod_small by lia. done.
Qed.

End WithDoubleFormat.

Lemma inserted_rows_are_scanned_back_witness :
  ∃ tb, bind (create 2 BUFFER_POOL_SIZE "users" users_schema [])
             (λ _, insert_each Scenarios.plain_format 2 [values alice; values alice])
          = Ok [true; true] tb ∧
        returned (selectAll 2 tb) = Some [mkTuple 1 (values alice); mkTuple 2 (values alice)] ∧
        returned (getTupleCount 2 tb) = Some 2.
Proof.
  apply (inserted_rows_are_scanned_back Scenarios.plain_format "users" users_schema
           [values alice; values alice] 2).
  - repeat constructor; simpl; lia.
  - vm_compute. lia.
  - lia.
Defined.

Lemma selectWhere_filters_inserted_rows_witness :
  ∃ tb, bind (create 2 BUFFER_POOL_SIZE "users" users_schema [])
             (λ _, insert_each Scenarios.plain_format 2
                     [values alice;
                      [VInt 2; VString "Bob"; VInt 30; VBool false; VDouble 0]])
          = Ok [true; true] tb ∧
        returned (selectWhere Scenarios.plain_format 2 "name" (VString "Bob") tb)
          = Some [mkTuple 2 [VInt 2; VString "Bob"; VInt 30; VBool false; VDouble 0]].
Proof.
  apply (selectWhere_filters_inserted_rows Scenarios.plain_format "users" users_schema
           [values alice; [VInt 2; VString "Bob"; VInt 30; VBool false; VDouble 0]]
           2 "name" (VString "Bob")).
  - repeat constructor; simpl; lia.
  - vm_compute. lia.
  - lia.
Defined.

Lemma indexed_selectWhere_returns_at_most_one_row_witness :
  ∃ l, returned (selectWhere Scenarios.plain_format 100 "name" (VString "Alice")
                             Scenarios.indexed_users) = Some l ∧
       (length l <= 1)%nat.
Proof.
  destruct (find_index "name" (indexes Scenarios.indexed_users)) as [index|] eqn:Hindex;
    [|vm_compute in Hindex; discriminate].
  destruct (selectWhere Scenarios.plain_format 100 "name" (VString "Alice")
                        Scenarios.indexed_users) as [l tb'|e tb'] eqn:Hrun;
    [|vm_compute in Hrun; discriminate].
  exists l. split; [done|].
  exact (indexed_selectWhere_returns_at_most_one_row Scenarios.plain_format 100 "name"
           (VString "Alice") Scenarios.indexed_users index Hindex l tb' Hrun).
Defined.

Lemma rows_survive_reopen_witness :
  ∃ tb tb', bind (create 2 BUFFER_POOL_SIZE "users" users_schema [])
                 (λ _, insert_each Scenarios.plain_format 2
                         [values alice;
                          [VInt 2; VString "Bob"; VInt 30; VBool false; VDouble 0]])
              = Ok [true; true] tb ∧
            reopen 2 BUFFER_POOL_SIZE tb = Ok tt tb' ∧
            returned (selectAll 2 tb')
              = Some [mkTuple 1 (values alice);
                      mkTuple 2 [VInt 2; VString "Bob"; VInt 30; VBool false; VDouble 0]] ∧
            next_tuple_id tb' = 3.
Proof.
  apply (rows_survive_reopen Scenarios.plain_format "users" users_schema
           [values alice; [VInt 2; VString "Bob"; VInt 30; VBool false; VDouble 0]] 2).
  - repeat constructor; simpl; lia.
  - vm_compute. lia.
  - lia.
Defined.

End TableProperties.

Module StorageEngineFacts.
Import StorageEngine.

Lemma on_table_absent {A} table_name (absent : A) m se :
  tables se !! table_name = None → on_table table_name absent m se = Ok absent se.
Proof. intros H. unfold on_table. by rewrite H. Qed.

Lemma on_table_other {A} table_name (absent : A) m se other :
  other ≠ table_name →
  tables (final_state (on_table table_name absent m se)) !! other = tables se !! other.
Proof.
  intros Hne. unfold on_table. destruct (tables se !! table_name) as [tb|]; [|done].
  destruct (m tb) as [a tb'|e tb']; cbn [final_state tables];
    by rewrite lookup_insert_ne.
Qed.

(** X25. The calls of the storage engine work on the named table alone. For
    a name without a table, [insertTuple] answers false, [selectAll]
    returns no rows and [dropTable] answers false, each leaving the engine
    as it is; [createTable] under a name that has a table answers false
    and changes nothing; and whatever [insertTuple], [selectAll],
    [createTable] and [dropTable] do, every table under another name is
    afterwards exactly as it was. *)
Theorem calls_touch_only_the_named_table fmt fuel n table_name tuple schema file se :
  (tables se !! table_name = None →
   insertTuple fmt fuel table_name tuple se = Ok false se ∧
   selectAll fuel table_name se = Ok [] se ∧
   dropTable table_name se = Ok false se) ∧
  (is_Some (tables se !! table_name) →
   createTable fuel n table_name schema file se = Ok false se ∧
   ∃ se', dropTable table_name se = Ok true se' ∧ tables se' !! table_name = None) ∧
  (∀ other, other ≠ table_name →
     tables (final_state (insertTuple fmt fuel table_name tuple se)) !! other
       = tables se !! other ∧
     tables (final_state (selectAll fuel table_name se)) !! other = tables se !! other ∧
     tables (final_state (createTable fuel n table_name schema file se)) !! other
       = tables se !! other ∧
     tables (final_state (dropTable table_name se)) !! other = tables se !! other).
Proof.
  split_and!.
  - intros Hnone. unfold insertTuple, selectAll, dropTable.
    rewrite !on_table_absent by done. by rewrite Hnone.
  - intros [tb Htb]. unfold createTable, dropTable. rewrite Htb. split; [done|].
    eexists. split; [reflexivity|]. cbn [tables]. by rewrite lookup_delete_eq.
  - intros other Hne. unfold insertTuple, selectAll. rewrite !on_table_other by done.
    split_and!; [done|done| |].
    + unfold createTable. destruct (tables se !! table_name); [done|].
      destruct (Table.create _ _ _ _ _); cbn [final_state tables]; [|done].
      by rewrite lookup_insert_ne.
    + unfold dropTable. destruct (tables se !! table_name); [|done].
      cbn [final_state tables]. by rewrite lookup_delete_ne.
Qed.

End StorageEngineFacts.
